(** * Demark: a shallow embedding of [src/index.js]

    The markdown-to-HTML pipeline, the frontmatter parser and the slug
    generator of the [Demark] class, together with the part of the
    JavaScript runtime they rest on: strings as sequences of code units,
    backtracking regular expressions, [String.prototype.replace],
    [match], [split], [trim], and the string-to-number conversions
    [Number] and [parseFloat].

    Scope of the model.  A string is a list of 8-bit code units (the
    Latin-1 range U+0000..U+00FF); the character classes [\s], [\w] and
    [.] and [toLowerCase] are the restrictions of the ECMAScript ones
    to that range.  A number is kept as the exact decimal value that
    was read from its text; rounding to binary64 is outside the model. *)

From Stdlib Require Import Ascii String DecimalString List Bool Arith NArith ZArith Lia.
Import ListNotations.

Set Implicit Arguments.
Local Open Scope string_scope.
Local Open Scope list_scope.
Local Open Scope nat_scope.

(** ** Strings *)

Definition jsstring := list ascii.

Coercion list_ascii_of_string : string >-> list.

Definition code (c : ascii) : N := N_of_ascii c.

Definition in_range (lo hi : N) (c : ascii) : bool :=
  ((lo <=? code c) && (code c <=? hi))%N.

(** The double quote, written by its code. *)
Definition dquote : ascii := ascii_of_N 34.
Definition squote : ascii := ascii_of_N 39.
Definition LF : ascii := ascii_of_N 10.
Definition CR : ascii := ascii_of_N 13.

(** [LineTerminator]: LF and CR (U+2028 and U+2029 lie outside the range). *)
Definition is_line_terminator (c : ascii) : bool :=
  Ascii.eqb c LF || Ascii.eqb c CR.

(** [WhiteSpace] and [LineTerminator], the set of [\s] and of [trim]:
    TAB, LF, VT, FF, CR, SP and NBSP. *)
Definition is_space (c : ascii) : bool :=
  in_range 9 13 c || (code c =? 32)%N || (code c =? 160)%N.

Definition is_digit (c : ascii) : bool := in_range 48 57 c.
Definition is_upper (c : ascii) : bool := in_range 65 90 c.
Definition is_lower (c : ascii) : bool := in_range 97 122 c.

(** [\w] is [A-Za-z0-9_]. *)
Definition is_word (c : ascii) : bool :=
  is_upper c || is_lower c || is_digit c || Ascii.eqb c "_".

(** [.] without the [s] flag: anything but a line terminator. *)
Definition is_dot (c : ascii) : bool := negb (is_line_terminator c).

(** [[\s\S]]: any code unit. *)
Definition is_any (c : ascii) : bool := is_space c || negb (is_space c).

Definition is_char (a : ascii) (c : ascii) : bool := Ascii.eqb c a.
Definition not_char (a : ascii) (c : ascii) : bool := negb (Ascii.eqb c a).

Fixpoint str_eqb (s t : jsstring) : bool :=
  match s, t with
  | [], [] => true
  | a :: s', b :: t' => Ascii.eqb a b && str_eqb s' t'
  | _, _ => false
  end.

(** [String.prototype.trimStart], [trimEnd] and [trim]. *)
Fixpoint trimStart (s : jsstring) : jsstring :=
  match s with
  | c :: s' => if is_space c then trimStart s' else s
  | [] => []
  end.

Definition trimEnd (s : jsstring) : jsstring := rev (trimStart (rev s)).

Definition trim (s : jsstring) : jsstring := trimEnd (trimStart s).

Definition startsWith (s : jsstring) (a : ascii) : bool :=
  match s with
  | c :: _ => Ascii.eqb c a
  | [] => false
  end.

Definition endsWith (s : jsstring) (a : ascii) : bool := startsWith (rev s) a.

(** [s.slice(1, -1)]: from index 1 up to, not including, the last index;
    empty when the string has fewer than two code units. *)
Definition slice_1_m1 (s : jsstring) : jsstring := removelast (tl s).

(** [String.prototype.toLowerCase] on the Latin-1 range: [A-Z] and the
    accented capitals U+00C0..U+00DE (the multiplication sign U+00D7
    apart) move up by 32; every other code unit is its own lower case. *)
Definition lower_char (c : ascii) : ascii :=
  if is_upper c || (in_range 192 222 c && negb (code c =? 215)%N)
  then ascii_of_N (code c + 32)
  else c.

Definition toLowerCase (s : jsstring) : jsstring := map lower_char s.

(** [Array.prototype.join]. *)
Fixpoint join (sep : jsstring) (l : list jsstring) : jsstring :=
  match l with
  | [] => []
  | [x] => x
  | x :: l' => x ++ sep ++ join sep l'
  end.

(** ** Regular expressions

    The fragment of ECMAScript patterns the pattern table uses.  A
    quantifier stands on a one-code-unit atom ([Rep]) or is the greedy
    [?] on a group ([Opt]); [Group] is a capturing group with its
    number. *)

Inductive regex : Type :=
| Empty
| Char (p : ascii -> bool)
| Seq (r1 r2 : regex)
| Alt (r1 r2 : regex)
| Rep (p : ascii -> bool) (lo : nat) (hi : option nat) (greedy : bool)
| Opt (r : regex)
| Group (i : nat) (r : regex)
| Bol
| Eol.

Declare Scope regex_scope.
Delimit Scope regex_scope with re.
Bind Scope regex_scope with regex.
Infix "+>" := Seq (at level 60, right associativity) : regex_scope.

Fixpoint lit (s : jsstring) : regex :=
  match s with
  | [] => Empty
  | [c] => Char (is_char c)
  | c :: s' => Seq (Char (is_char c)) (lit s')
  end.

(** Quantifier shorthands: [p*], [p+], [p?] and the lazy [p*?]. *)
Definition star (p : ascii -> bool) : regex := Rep p 0 None true.
Definition plus (p : ascii -> bool) : regex := Rep p 1 None true.
Definition opt (p : ascii -> bool) : regex := Rep p 0 (Some 1) true.
Definition lazy_star (p : ascii -> bool) : regex := Rep p 0 None false.

(** A position in the input: the code units before it (nearest first)
    and those after it. *)
Definition position := (list ascii * list ascii)%type.

Definition captures := list (nat * jsstring).

Fixpoint capture (i : nat) (caps : captures) : option jsstring :=
  match caps with
  | [] => None
  | (j, s) :: caps' => if Nat.eqb i j then Some s else capture i caps'
  end.

(** [$n] in a replacement and a capture used as a string: an undefined
    capture reads as the empty string. *)
Definition capture_str (i : nat) (caps : captures) : jsstring :=
  match capture i caps with
  | Some s => s
  | None => []
  end.

(** Ordered choice: the second alternative is tried when the first fails. *)
Notation "x <|> y" :=
  (match x with Some r => Some r | None => y end)
  (at level 70, right associativity, only parsing).

Definition dec_hi (hi : option nat) : option nat := option_map pred hi.

Definition hi_zero (hi : option nat) : bool :=
  match hi with
  | Some 0 => true
  | _ => false
  end.

Section Matcher.

Variable R : Type.

(** The quantified atom [p{lo,hi}]: greedy tries one more code unit
    first, lazy tries the continuation first.  Every iteration
    consumes one code unit. *)
Fixpoint rep_greedy (p : ascii -> bool) (lo : nat) (hi : option nat)
    (bf af : list ascii) (k : position -> option R) {struct af} : option R :=
  (if hi_zero hi then None
   else match af with
        | c :: af' =>
            if p c then rep_greedy p (pred lo) (dec_hi hi) (c :: bf) af' k
            else None
        | [] => None
        end)
  <|> match lo with 0 => k (bf, af) | S _ => None end.

Fixpoint rep_lazy (p : ascii -> bool) (lo : nat) (hi : option nat)
    (bf af : list ascii) (k : position -> option R) {struct af} : option R :=
  match lo with 0 => k (bf, af) | S _ => None end
  <|> (if hi_zero hi then None
       else match af with
            | c :: af' =>
                if p c then rep_lazy p (pred lo) (dec_hi hi) (c :: bf) af' k
                else None
            | [] => None
            end).

(** Assertions.  Without the [m] flag [^] holds at the start of the
    input and [$] at its end; with it, also after and before a line
    terminator. *)
Definition at_bol (multiline : bool) (st : position) : bool :=
  match fst st with
  | [] => true
  | c :: _ => multiline && is_line_terminator c
  end.

Definition at_eol (multiline : bool) (st : position) : bool :=
  match snd st with
  | [] => true
  | c :: _ => multiline && is_line_terminator c
  end.

(** The text between two positions of one input. *)
Definition between (st st' : position) : jsstring :=
  firstn (length (snd st) - length (snd st')) (snd st).

(** The backtracking matcher, in continuation-passing style: [k] is
    the rest of the pattern, and a failure of [k] makes the matcher
    try its next alternative. *)
Fixpoint rmatch (multiline : bool) (r : regex) (st : position)
    (caps : captures) (k : position -> captures -> option R) : option R :=
  match r with
  | Empty => k st caps
  | Char p =>
      match snd st with
      | c :: af => if p c then k (c :: fst st, af) caps else None
      | [] => None
      end
  | Seq r1 r2 =>
      rmatch multiline r1 st caps
        (fun st' caps' => rmatch multiline r2 st' caps' k)
  | Alt r1 r2 =>
      rmatch multiline r1 st caps k <|> rmatch multiline r2 st caps k
  | Rep p lo hi greedy =>
      (if greedy then rep_greedy else rep_lazy)
        p lo hi (fst st) (snd st) (fun st' => k st' caps)
  | Opt r1 =>
      rmatch multiline r1 st caps
        (fun st' caps' =>
           if Nat.eqb (length (snd st')) (length (snd st)) then None
           else k st' caps')
      <|> k st caps
  | Group i r1 =>
      rmatch multiline r1 st caps
        (fun st' caps' => k st' ((i, between st st') :: caps'))
  | Bol => if at_bol multiline st then k st caps else None
  | Eol => if at_eol multiline st then k st caps else None
  end.

End Matcher.

(** A regular-expression object: its pattern and its [g] and [m] flags. *)
Record RegExp : Type := mkRegExp {
  source : regex;
  global : bool;
  multiline : bool
}.

(** One match attempt at a position: the matched text, what follows it,
    and the captures. *)
Record match_result : Type := mkMatch {
  matched : jsstring;
  rest : jsstring;
  groups : captures
}.

Definition match_at (re : RegExp) (bf af : list ascii) : option match_result :=
  rmatch (multiline re) (source re) (bf, af) []
    (fun st' caps => Some (mkMatch (between (bf, af) st') (snd st') caps)).

(** [RegExpBuiltinExec] from index 0 of a regular expression that is
    not sticky: the first position, left to right, at which the pattern
    matches.  The result carries the text before the match. *)
Fixpoint search (re : RegExp) (bf af : list ascii)
    : option (jsstring * match_result) :=
  match match_at re bf af with
  | Some m => Some (rev bf, m)
  | None =>
      match af with
      | c :: af' => search re (c :: bf) af'
      | [] => None
      end
  end.

(** [String.prototype.match] with a regular expression without the [g]
    flag. *)
Definition String_match (s : jsstring) (re : RegExp) : option match_result :=
  option_map snd (search re [] s).

(** A replacement: a function of the matched text and the captures. *)
Definition replacer := jsstring -> captures -> jsstring.

(** A replacement string with [$n] references. *)
Inductive template_item : Type :=
| Lit (s : jsstring)
| Ref (n : nat).

Definition template := list template_item.

Definition expand (t : template) : replacer :=
  fun _ caps =>
    flat_map (fun it => match it with
                        | Lit s => s
                        | Ref n => capture_str n caps
                        end) t.

(** [replace] with the [g] flag: the matches are found left to right,
    each search starting where the previous match ended, or one code
    unit further when that match was empty.  [skip] counts the code
    units of the current match that are still to be passed over. *)
Fixpoint replace_all (re : RegExp) (f : replacer) (bf af : list ascii)
    (skip : nat) {struct af} : jsstring :=
  match skip with
  | S n =>
      match af with
      | c :: af' => replace_all re f (c :: bf) af' n
      | [] => []
      end
  | 0 =>
      match match_at re bf af with
      | Some m =>
          f (matched m) (groups m) ++
          match af with
          | c :: af' =>
              match length (matched m) with
              | 0 => c :: replace_all re f (c :: bf) af' 0
              | S n => replace_all re f (c :: bf) af' n
              end
          | [] => []
          end
      | None =>
          match af with
          | c :: af' => c :: replace_all re f (c :: bf) af' 0
          | [] => []
          end
      end
  end.

(** [replace] without the [g] flag: the first match only. *)
Definition replace_first (re : RegExp) (f : replacer) (s : jsstring) : jsstring :=
  match search re [] s with
  | Some (pre, m) => pre ++ f (matched m) (groups m) ++ rest m
  | None => s
  end.

Definition String_replace (s : jsstring) (re : RegExp) (f : replacer) : jsstring :=
  if global re then replace_all re f [] s 0 else replace_first re f s.

(** [String.prototype.split] with a regular expression that has no
    capturing group.  The separator is tried at every index before the
    end of the input; a match that ends where the current piece starts
    is passed over, and any other match closes the current piece.
    [cur] is the current piece, nearest code unit first. *)
Fixpoint split_from (re : RegExp) (cur bf af : list ascii) (skip : nat)
    {struct af} : list jsstring :=
  match af with
  | [] => [rev cur]
  | c :: af' =>
      match skip with
      | S n => split_from re cur (c :: bf) af' n
      | 0 =>
          match match_at re bf af with
          | Some m =>
              match length (matched m), cur with
              | 0, [] => split_from re [c] (c :: bf) af' 0
              | 0, _ => rev cur :: split_from re [c] (c :: bf) af' 0
              | S n, _ => rev cur :: split_from re [] (c :: bf) af' n
              end
          | None => split_from re (c :: cur) (c :: bf) af' 0
          end
      end
  end.

Definition String_split (s : jsstring) (re : RegExp) : list jsstring :=
  match s with
  | [] => match match_at re [] [] with Some _ => [] | None => [[]] end
  | _ => split_from re [] [] s 0
  end.


(** [String.prototype.split] with a one-code-unit string separator. *)
Fixpoint split_char (sep : ascii) (cur : list ascii) (s : jsstring)
    : list jsstring :=
  match s with
  | [] => [rev cur]
  | c :: s' =>
      if Ascii.eqb c sep then rev cur :: split_char sep [] s'
      else split_char sep (c :: cur) s'
  end.

(** [String.prototype.indexOf] with a one-code-unit string: the text
    before the first occurrence and the text after it, or [None] for -1. *)
Fixpoint cut_at (sep : ascii) (cur : list ascii) (s : jsstring)
    : option (jsstring * jsstring) :=
  match s with
  | [] => None
  | c :: s' =>
      if Ascii.eqb c sep then Some (rev cur, s')
      else cut_at sep (c :: cur) s'
  end.

(** ** Numbers *)

(** A number value: NaN, an infinity, or the finite decimal
    [(-1)^neg * mantissa * 10^exp10]. *)
Inductive jsnumber : Type :=
| NaN
| Infinite (neg : bool)
| Finite (neg : bool) (mantissa : N) (exp10 : Z).

Definition isNaN (n : jsnumber) : bool :=
  match n with
  | NaN => true
  | _ => false
  end.

Fixpoint span (p : ascii -> bool) (s : jsstring) : jsstring * jsstring :=
  match s with
  | c :: s' =>
      if p c then let (a, b) := span p s' in (c :: a, b) else ([], s)
  | [] => ([], [])
  end.

Definition digit_value (c : ascii) : N :=
  if is_digit c then code c - 48
  else if in_range 97 102 c then code c - 87
  else if in_range 65 70 c then code c - 55
  else 0.

Definition digits_value (radix : N) (ds : jsstring) : N :=
  fold_left (fun acc c => acc * radix + digit_value c)%N ds 0%N.

Fixpoint strip_prefix (pre s : jsstring) : option jsstring :=
  match pre, s with
  | [], _ => Some s
  | a :: pre', c :: s' => if Ascii.eqb a c then strip_prefix pre' s' else None
  | _ :: _, [] => None
  end.

(** An optional sign: whether it is [-], and what follows it. *)
Definition scan_sign (s : jsstring) : bool * jsstring :=
  match s with
  | c :: s' =>
      if Ascii.eqb c "-" then (true, s')
      else if Ascii.eqb c "+" then (false, s')
      else (false, s)
  | [] => (false, s)
  end.

(** The longest [ExponentPart] the text starts with: its value and
    what follows it; no exponent reads as 0 and consumes nothing. *)
Definition scan_exponent (s : jsstring) : Z * jsstring :=
  match s with
  | c :: s' =>
      if Ascii.eqb c "e" || Ascii.eqb c "E" then
        let (neg, s1) := scan_sign s' in
        let (ds, s2) := span is_digit s1 in
        match ds with
        | [] => (0%Z, s)
        | _ =>
            let e := Z.of_N (digits_value 10 ds) in
            ((if neg then - e else e)%Z, s2)
        end
      else (0%Z, s)
  | [] => (0%Z, s)
  end.

(** The longest [StrUnsignedDecimalLiteral] the text starts with:
    [Infinity], or digits with an optional fraction and exponent. *)
Definition scan_unsigned (neg : bool) (s : jsstring)
    : option (jsnumber * jsstring) :=
  match strip_prefix "Infinity" s with
  | Some s' => Some (Infinite neg, s')
  | None =>
      let (d1, s1) := span is_digit s in
      let (d2, s2) :=
        match s1 with
        | c :: s1' => if Ascii.eqb c "." then span is_digit s1' else ([], s1)
        | [] => ([], s1)
        end in
      match d1 ++ d2 with
      | [] => None
      | ds =>
          let (e, s3) := scan_exponent s2 in
          Some (Finite neg (digits_value 10 ds) (e - Z.of_nat (length d2)), s3)
      end
  end.

(** The longest [StrDecimalLiteral] the text starts with. *)
Definition scan_decimal (s : jsstring) : option (jsnumber * jsstring) :=
  let (neg, s') := scan_sign s in scan_unsigned neg s'.

(** [parseFloat] of a string: the value of the longest prefix of the
    text, leading white space apart, that is a [StrDecimalLiteral]. *)
Definition parseFloat (s : jsstring) : jsnumber :=
  match scan_decimal (trimStart s) with
  | Some (n, _) => n
  | None => NaN
  end.

Definition is_hex_digit (c : ascii) : bool :=
  is_digit c || in_range 97 102 c || in_range 65 70 c.
Definition is_octal_digit (c : ascii) : bool := in_range 48 55 c.
Definition is_binary_digit (c : ascii) : bool := in_range 48 49 c.

(** [NonDecimalIntegerLiteral]: [0x], [0o] or [0b] (either case) and
    at least one digit of that radix, and nothing else. *)
Definition non_decimal (s : jsstring) : option jsnumber :=
  match s with
  | z :: x :: ds =>
      if Ascii.eqb z "0" then
        let lit_of (radix : N) (p : ascii -> bool) :=
          match ds with
          | [] => None
          | _ => if forallb p ds
                 then Some (Finite false (digits_value radix ds) 0)
                 else None
          end in
        if Ascii.eqb x "x" || Ascii.eqb x "X" then lit_of 16%N is_hex_digit
        else if Ascii.eqb x "o" || Ascii.eqb x "O" then lit_of 8%N is_octal_digit
        else if Ascii.eqb x "b" || Ascii.eqb x "B" then lit_of 2%N is_binary_digit
        else None
      else None
  | _ => None
  end.

(** [Number] of a string ([StringToNumber]): white space around the
    text is dropped; the empty text is 0; otherwise the whole text has
    to be a [StrDecimalLiteral] or a [NonDecimalIntegerLiteral]. *)
Definition Number (s : jsstring) : jsnumber :=
  match trim s with
  | [] => Finite false 0 0
  | t =>
      match scan_decimal t with
      | Some (n, []) => n
      | _ =>
          match non_decimal t with
          | Some n => n
          | None => NaN
          end
      end
  end.

(** ** Values *)

(** A JavaScript value as an argument of the public functions, by its
    type; an object, an array or a function is [JObject]. *)
Inductive jsval : Type :=
| JUndefined
| JNull
| JBoolean (b : bool)
| JNumber (n : jsnumber)
| JBigInt (z : Z)
| JString (s : jsstring)
| JSymbol
| JObject.

(** A frontmatter value: what [_parseFrontmatter] stores under a key. *)
Inductive fmvalue : Type :=
| VString (s : jsstring)
| VNumber (n : jsnumber)
| VBoolean (b : bool)
| VArray (items : list jsstring).

(** The own properties of the frontmatter object, in insertion order. *)
Definition object := list (jsstring * fmvalue).

(** [o[k] = v] on an object created by [{}]: an existing property keeps
    its place and takes the new value; the key [__proto__] reaches the
    setter of [Object.prototype] and creates no property. *)
Fixpoint obj_put (o : object) (k : jsstring) (v : fmvalue) : object :=
  match o with
  | [] => [(k, v)]
  | (k', v') :: o' =>
      if str_eqb k' k then (k', v) :: o' else (k', v') :: obj_put o' k v
  end.

Definition obj_set (o : object) (k : jsstring) (v : fmvalue) : object :=
  if str_eqb k "__proto__" then o else obj_put o k v.

Fixpoint obj_get (o : object) (k : jsstring) : option fmvalue :=
  match o with
  | [] => None
  | (k', v) :: o' => if str_eqb k' k then Some v else obj_get o' k
  end.

Record Document : Type := mkDocument {
  frontmatter : object;
  content : jsstring;
  rawContent : jsstring
}.

(** The decimal text of a small count, as a template literal prints it. *)
Definition nat_to_string (n : nat) : jsstring :=
  list_ascii_of_string (DecimalString.NilEmpty.string_of_uint (Nat.to_uint n)).

(** ** The Demark class *)

Module patterns.

Definition q : jsstring := [dquote].

(** [/^---\r?\n([\s\S]*?)\r?\n---\r?\n?/] *)
Definition frontmatter : RegExp :=
  mkRegExp
    (Bol +> lit "---" +> opt (is_char CR) +> Char (is_char LF)
     +> Group 1 (lazy_star is_any)
     +> opt (is_char CR) +> Char (is_char LF) +> lit "---"
     +> opt (is_char CR) +> opt (is_char LF))
    false false.

(** [/^(#{1,6})\s+(.+)/gm] *)
Definition heading : RegExp :=
  mkRegExp
    (Bol +> Group 1 (Rep (is_char "#") 1 (Some 6) true)
     +> plus is_space +> Group 2 (plus is_dot))
    true true.

(** [/\*\*(.*?)\*\*/g] *)
Definition bold : RegExp :=
  mkRegExp (lit "**" +> Group 1 (lazy_star is_dot) +> lit "**") true false.

(** [/_(.*?)_/g] *)
Definition italic : RegExp :=
  mkRegExp (lit "_" +> Group 1 (lazy_star is_dot) +> lit "_") true false.

(** [/\[([^\]]+)\]\(([^)]+)\)/g] *)
Definition link : RegExp :=
  mkRegExp
    (lit "[" +> Group 1 (plus (not_char "]")) +> lit "]("
     +> Group 2 (plus (not_char ")")) +> lit ")")
    true false.

(** The [image] pattern, flag [g]: [!\[], then group 1 [[^\]]*], then
    [\]\(], then group 2 [[^)]+], then [\)]. *)
Definition image : RegExp :=
  mkRegExp
    (lit "![" +> Group 1 (star (not_char "]")) +> lit "]("
     +> Group 2 (plus (not_char ")")) +> lit ")")
    true false.

(** [/```(\w+)?\n?([\s\S]*?)\n?```/g] *)
Definition codeBlock : RegExp :=
  mkRegExp
    (lit "```" +> Opt (Group 1 (plus is_word)) +> opt (is_char LF)
     +> Group 2 (lazy_star is_any) +> opt (is_char LF) +> lit "```")
    true false.

(** [/`([^`]+)`/g] *)
Definition inlineCode : RegExp :=
  mkRegExp (lit "`" +> Group 1 (plus (not_char "`")) +> lit "`") true false.

(** [/\n\s*\n/g] *)
Definition lineBreak : RegExp :=
  mkRegExp (Char (is_char LF) +> star is_space +> Char (is_char LF)) true false.

(** [/^---+$/gm] *)
Definition horizontalRule : RegExp :=
  mkRegExp (Bol +> lit "--" +> plus (is_char "-") +> Eol) true true.

End patterns.

(** [_parseHeadings] *)
Definition _parseHeadings (text : jsstring) : jsstring :=
  String_replace text patterns.heading
    (fun _ caps =>
       let hashes := capture_str 1 caps in
       let content := capture_str 2 caps in
       let level := nat_to_string (length hashes) in
       "<h" ++ level ++ ">" ++ trim content ++ "</h" ++ level ++ ">").

(** [_parseBold] *)
Definition _parseBold (text : jsstring) : jsstring :=
  String_replace text patterns.bold
    (expand [Lit "<strong>"; Ref 1; Lit "</strong>"]).

(** [_parseItalic] *)
Definition _parseItalic (text : jsstring) : jsstring :=
  String_replace text patterns.italic (expand [Lit "<em>"; Ref 1; Lit "</em>"]).

(** [_parseLinks]: the replacement is [<a href="$2">$1</a>]. *)
Definition _parseLinks (text : jsstring) : jsstring :=
  String_replace text patterns.link
    (expand [Lit "<a href="; Lit patterns.q; Ref 2; Lit patterns.q; Lit ">";
             Ref 1; Lit "</a>"]).

(** [_parseImages]: the replacement is [<img src="$2" alt="$1" />]. *)
Definition _parseImages (text : jsstring) : jsstring :=
  String_replace text patterns.image
    (expand [Lit "<img src="; Lit patterns.q; Ref 2; Lit patterns.q;
             Lit " alt="; Lit patterns.q; Ref 1; Lit patterns.q; Lit " />"]).

(** The [htmlEntities] table of [_escapeHtml], read at a matched text;
    a key that is not in the table reads as [undefined]. *)
Definition htmlEntities (char : jsstring) : jsstring :=
  if str_eqb char "&" then "&amp;"
  else if str_eqb char "<" then "&lt;"
  else if str_eqb char ">" then "&gt;"
  else if str_eqb char [dquote] then "&quot;"
  else if str_eqb char [squote] then "&#39;"
  else "undefined".

Definition is_html_special (c : ascii) : bool :=
  is_char "&" c || is_char "<" c || is_char ">" c
  || is_char dquote c || is_char squote c.

(** [_escapeHtml]: its pattern is the class of the five characters
    ampersand, less-than, greater-than, double quote and single quote,
    with the flag [g]. *)
Definition _escapeHtml (text : jsstring) : jsstring :=
  String_replace text (mkRegExp (Char is_html_special) true false)
    (fun char _ => htmlEntities char).

(** The replacement function of [_parseCodeBlocks]: [lang] counts when
    it is defined and not empty. *)
Definition codeBlock_replacer : replacer :=
  fun _ caps =>
    let language :=
      match capture 1 caps with
      | Some (c :: l) => " class=" ++ patterns.q ++ "language-" ++ (c :: l) ++ patterns.q
      | _ => []
      end in
    "<pre><code" ++ language ++ ">" ++ _escapeHtml (trim (capture_str 2 caps))
    ++ "</code></pre>".

(** [_parseCodeBlocks] *)
Definition _parseCodeBlocks (text : jsstring) : jsstring :=
  String_replace text patterns.codeBlock codeBlock_replacer.

(** [_parseInlineCode] *)
Definition _parseInlineCode (text : jsstring) : jsstring :=
  String_replace text patterns.inlineCode
    (expand [Lit "<code>"; Ref 1; Lit "</code>"]).

(** [_parseHorizontalRules] *)
Definition _parseHorizontalRules (text : jsstring) : jsstring :=
  String_replace text patterns.horizontalRule (expand [Lit "<hr />"]).

Definition is_empty (s : jsstring) : bool :=
  match s with
  | [] => true
  | _ => false
  end.

(** [_parseParagraphs]: the split pattern is [/\n\s*\n/]. *)
Definition _parseParagraphs (text : jsstring) : jsstring :=
  let paragraphs :=
    String_split text
      (mkRegExp (Char (is_char LF) +> star is_space +> Char (is_char LF))
         false false) in
  join [LF; LF]
    (filter (fun p => negb (is_empty p))
       (map (fun paragraph =>
               let trimmed := trim paragraph in
               if is_empty trimmed then []
               else if startsWith trimmed "<" && endsWith trimmed ">"
                    then trimmed
                    else "<p>" ++ trimmed ++ "</p>")
          paragraphs)).

(** The rewrite passes of [parse], in their order. *)
Definition pipeline (markdown : jsstring) : jsstring :=
  let html := markdown in
  let html := _parseHeadings html in
  let html := _parseImages html in
  let html := _parseLinks html in
  let html := _parseCodeBlocks html in
  let html := _parseInlineCode html in
  let html := _parseBold html in
  let html := _parseItalic html in
  let html := _parseHorizontalRules html in
  let html := _parseParagraphs html in
  trim html.

(** [parse]: a falsy value or a value that is not a string gives the
    empty string. *)
Definition parse (markdown : jsval) : jsstring :=
  match markdown with
  | JString (c :: s) => pipeline (c :: s)
  | _ => []
  end.

(** *** Frontmatter *)

(** Wrapped in double quotes or in single quotes: the test of
    [_parseFrontmatter] on a value and on an array item. *)
Definition is_quoted (s : jsstring) : bool :=
  (startsWith s dquote && endsWith s dquote)
  || (startsWith s squote && endsWith s squote).

Definition is_bracketed (s : jsstring) : bool :=
  startsWith s "[" && endsWith s "]".

(** The function mapped over the items of an array value. *)
Definition parse_item (item : jsstring) : jsstring :=
  let item := trim item in
  if is_quoted item then slice_1_m1 item else item.

(** "try to parse as number or boolean": the last step on a value that
    is not an array. *)
Definition coerce_scalar (value : jsstring) : fmvalue :=
  if str_eqb value "true" then VBoolean true
  else if str_eqb value "false" then VBoolean false
  else if negb (isNaN (Number value)) && negb (isNaN (parseFloat value))
       then VNumber (parseFloat value)
       else VString value.

(** The value stored for a line, from the trimmed text after its first
    colon. *)
Definition parse_value (value : jsstring) : fmvalue :=
  if is_bracketed value then
    let arrayContent := trim (slice_1_m1 value) in
    if is_empty arrayContent then VArray []
    else VArray (map parse_item (split_char "," [] arrayContent))
  else
    let value := if is_quoted value then slice_1_m1 value else value in
    coerce_scalar value.

(** The body of the [forEach] over the lines. *)
Definition parse_line (frontmatter : object) (line : jsstring) : object :=
  match cut_at ":" [] line with
  | None => frontmatter
  | Some (k, v) => obj_set frontmatter (trim k) (parse_value (trim v))
  end.

(** [_parseFrontmatter] *)
Definition _parseFrontmatter (frontmatterContent : jsstring) : object :=
  fold_left parse_line (split_char LF [] (trim frontmatterContent)) [].

(** [parseDocument] *)
Definition parseDocument (markdownContent : jsval) : Document :=
  match markdownContent with
  | JString (c :: s) =>
      let markdownContent := c :: s in
      let frontmatterMatch := String_match markdownContent patterns.frontmatter in
      let (frontmatter, content) :=
        match frontmatterMatch with
        | Some m =>
            (_parseFrontmatter (capture_str 1 (groups m)),
             trim (String_replace markdownContent patterns.frontmatter
                     (expand [])))
        | None => ([], markdownContent)
        end in
      let htmlContent := parse (JString content) in
      mkDocument frontmatter htmlContent content
  | _ => mkDocument [] [] []
  end.

(** *** Slugs *)

(** The three patterns of [createSlug]: [/[^\w\s-]/g], [/[\s_-]+/g]
    and [/^-+|-+$/g]. *)
Definition is_slug_junk (c : ascii) : bool :=
  negb (is_word c || is_space c || is_char "-" c).

Definition is_slug_sep (c : ascii) : bool :=
  is_space c || is_char "_" c || is_char "-" c.

Definition slug_special : RegExp := mkRegExp (Char is_slug_junk) true false.

Definition slug_separators : RegExp := mkRegExp (plus is_slug_sep) true false.

Definition slug_edges : RegExp :=
  mkRegExp (Alt (Bol +> plus (is_char "-")) (plus (is_char "-") +> Eol))
    true false.

(** [createSlug] on a string. *)
Definition createSlug (text : jsstring) : jsstring :=
  if is_empty text then []
  else
    let s := trim (toLowerCase text) in
    let s := String_replace s slug_special (expand []) in
    let s := String_replace s slug_separators (expand [Lit "-"]) in
    String_replace s slug_edges (expand []).

(** * Definitions for the statements *)

(** ** A declarative reading of patterns

    [matches ml r st caps st' caps']: the pattern [r] can match from
    the position [st] to the position [st'], turning the captures
    [caps] into [caps'].  The relation says which matches exist; the
    matcher chooses among them by its order of trial.  [hi_ok hi n]:
    [n] iterations respect the upper bound [hi] of a quantifier. *)

Definition hi_ok (hi : option nat) (n : nat) : Prop :=
  match hi with
  | Some h => n <= h
  | None => True
  end.

Inductive matches (ml : bool)
    : regex -> position -> captures -> position -> captures -> Prop :=
| m_empty st caps : matches ml Empty st caps st caps
| m_char p c af st caps :
    snd st = c :: af -> p c = true ->
    matches ml (Char p) st caps (c :: fst st, af) caps
| m_seq r1 r2 st caps st1 caps1 st2 caps2 :
    matches ml r1 st caps st1 caps1 ->
    matches ml r2 st1 caps1 st2 caps2 ->
    matches ml (Seq r1 r2) st caps st2 caps2
| m_alt_l r1 r2 st caps st' caps' :
    matches ml r1 st caps st' caps' ->
    matches ml (Alt r1 r2) st caps st' caps'
| m_alt_r r1 r2 st caps st' caps' :
    matches ml r2 st caps st' caps' ->
    matches ml (Alt r1 r2) st caps st' caps'
| m_rep p lo hi greedy pre post st caps :
    snd st = pre ++ post -> forallb p pre = true ->
    lo <= length pre -> hi_ok hi (length pre) ->
    matches ml (Rep p lo hi greedy) st caps (rev pre ++ fst st, post) caps
| m_opt_skip r st caps : matches ml (Opt r) st caps st caps
| m_opt_take r st caps st' caps' :
    matches ml r st caps st' caps' ->
    length (snd st') <> length (snd st) ->
    matches ml (Opt r) st caps st' caps'
| m_group i r st caps st' caps' :
    matches ml r st caps st' caps' ->
    matches ml (Group i r) st caps st' ((i, between st st') :: caps')
| m_bol st caps : at_bol ml st = true -> matches ml Bol st caps st caps
| m_eol st caps : at_eol ml st = true -> matches ml Eol st caps st caps.

Ltac invert_matches :=
  repeat match goal with
         | H : matches _ (Seq _ _) _ _ _ _ |- _ => inversion H; subst; clear H
         | H : matches _ (Char _) _ _ _ _ |- _ => inversion H; subst; clear H
         | H : matches _ (Group _ _) _ _ _ _ |- _ => inversion H; subst; clear H
         | H : matches _ (Rep _ _ _ _) _ _ _ _ |- _ => inversion H; subst; clear H
         | H : matches _ Bol _ _ _ _ |- _ => inversion H; subst; clear H
         | H : matches _ (lazy_star _) _ _ _ _ |- _ => unfold lazy_star in H
         | H : matches _ (opt _) _ _ _ _ |- _ => unfold opt in H
         end.

Ltac literal_matches :=
  lazymatch goal with
  | |- matches _ (Seq _ _) _ _ _ _ =>
      eapply m_seq; [literal_matches | literal_matches]
  | |- matches _ (Char _) _ _ _ _ =>
      eapply m_char; [simpl; reflexivity | reflexivity]
  | |- matches _ Bol _ _ _ _ => apply m_bol; reflexivity
  end.

(** ** The frontmatter block *)

(** A line break: LF or CR LF. *)
Definition is_line_break (nl : jsstring) : Prop := nl = [LF] \/ nl = [CR; LF].

(** The documents [patterns.frontmatter] matches: [---], a line break,
    any text, a line break and [---]; what follows is free. *)
Definition frontmatter_shape (s : jsstring) : Prop :=
  exists nl1 body nl2 tail,
    is_line_break nl1 /\ is_line_break nl2 /\
    s = "---" ++ nl1 ++ body ++ nl2 ++ "---" ++ tail.

(** ** Values and texts *)

Definition nl : jsstring := [LF].

Definition is_string (v : jsval) : Prop :=
  match v with
  | JString _ => True
  | _ => False
  end.

(** ** Slugs

    The slug generator in the words of the specification: lowercase and
    trim; remove every character that is not a letter (of [\w]: [A-Z]
    and [a-z]), a digit, an underscore, white space or a hyphen;
    collapse every run of white space, underscores and hyphens into one
    hyphen; strip the leading and the trailing hyphens. *)

Definition is_letter (c : ascii) : bool := is_upper c || is_lower c.

Definition kept_in_slug (c : ascii) : bool :=
  is_letter c || is_digit c || is_char "_" c || is_space c || is_char "-" c.

Definition remove_special (s : jsstring) : jsstring := filter kept_in_slug s.

Fixpoint collapse_runs (in_run : bool) (s : jsstring) : jsstring :=
  match s with
  | [] => []
  | c :: s' =>
      if is_slug_sep c
      then if in_run then collapse_runs true s'
           else "-"%char :: collapse_runs true s'
      else c :: collapse_runs false s'
  end.

Definition strip_leading (s : jsstring) : jsstring := snd (span (is_char "-") s).

Fixpoint strip_trailing (s : jsstring) : jsstring :=
  match s with
  | [] => []
  | c :: s' => if forallb (is_char "-") s then [] else c :: strip_trailing s'
  end.

Definition slugify (text : jsstring) : jsstring :=
  if is_empty text then []
  else strip_trailing
         (strip_leading
            (collapse_runs false (remove_special (trim (toLowerCase text))))).

(** The shape of a slug: lower-case letters, digits and hyphens only,
    no hyphen next to another, none at the start and none at the end.
    [no_double prev s]: no hyphen of [s] follows a hyphen, [prev]
    telling whether a hyphen stands just before [s]. *)
Definition is_slug_char (c : ascii) : bool :=
  is_lower c || is_digit c || is_char "-" c.

Fixpoint no_double (prev : bool) (s : jsstring) : bool :=
  match s with
  | [] => true
  | c :: s' =>
      if is_char "-" c then negb prev && no_double true s'
      else no_double false s'
  end.

Definition slug_shape (s : jsstring) : Prop :=
  Forall (fun c => is_slug_char c = true) s
  /\ no_double false s = true
  /\ startsWith s "-" = false
  /\ endsWith s "-" = false.

(** The invariant that the passes establish. *)
Definition slug_invariant (s : jsstring) : Prop :=
  Forall (fun c => is_slug_char c = true) s
  /\ no_double true s = true
  /\ strip_trailing s = s.

Ltac each_char c := destruct c as [[] [] [] [] [] [] [] []].

(** ** Numeric strings *)

(** The numeric strings of ECMAScript, production by production:
    [DecimalDigits], an optional sign, an optional [ExponentPart],
    [StrUnsignedDecimalLiteral] and [StrDecimalLiteral]. *)
Definition DecimalDigits (s : jsstring) : Prop :=
  s <> [] /\ forallb is_digit s = true.

Inductive Sign : jsstring -> Prop :=
| sign_none : Sign []
| sign_plus : Sign "+"
| sign_minus : Sign "-".

Inductive ExponentPart_opt : jsstring -> Prop :=
| exp_none : ExponentPart_opt []
| exp_some (e : ascii) (sg ds : jsstring) :
    e = "e"%char \/ e = "E"%char -> Sign sg -> DecimalDigits ds ->
    ExponentPart_opt (e :: sg ++ ds).

Inductive StrUnsignedDecimalLiteral : jsstring -> Prop :=
| sud_infinity : StrUnsignedDecimalLiteral "Infinity"
| sud_int_dot (i f e : jsstring) :
    DecimalDigits i -> forallb is_digit f = true -> ExponentPart_opt e ->
    StrUnsignedDecimalLiteral (i ++ "." ++ f ++ e)
| sud_dot (f e : jsstring) :
    DecimalDigits f -> ExponentPart_opt e ->
    StrUnsignedDecimalLiteral ("." ++ f ++ e)
| sud_int (i e : jsstring) :
    DecimalDigits i -> ExponentPart_opt e ->
    StrUnsignedDecimalLiteral (i ++ e).

Inductive StrDecimalLiteral : jsstring -> Prop :=
| sdl (sg u : jsstring) :
    Sign sg -> StrUnsignedDecimalLiteral u -> StrDecimalLiteral (sg ++ u).

(** A finite decimal number, as the specification has it: a
    [StrDecimalLiteral] that is not an infinity. *)
Definition finite_decimal (s : jsstring) : Prop :=
  StrDecimalLiteral s /\ forall sg, s <> sg ++ "Infinity".

Definition is_sign_char (c : ascii) : bool := Ascii.eqb c "-" || Ascii.eqb c "+".

(** [head_fails p s]: the text [s] does not start with a code unit of [p]. *)
Definition head_fails (p : ascii -> bool) (s : jsstring) : Prop :=
  match s with
  | [] => True
  | c :: _ => p c = false
  end.

(** ** Plain text *)

(** The characters some pass of [parse] starts a match at, and the line
    feed the paragraph pass splits at. *)
Definition is_markup (c : ascii) : bool :=
  is_char "#" c || is_char "[" c || is_char "`" c || is_char "*" c
  || is_char "_" c || is_char "-" c || is_char LF c.

(** What [_parseParagraphs] makes of one block. *)
Definition wrap_block (paragraph : jsstring) : jsstring :=
  let trimmed := trim paragraph in
  if is_empty trimmed then []
  else if startsWith trimmed "<" && endsWith trimmed ">" then trimmed
       else "<p>" ++ trimmed ++ "</p>".

(** ** Escaped text *)

(** The four reserved characters that open or close a tag or an
    attribute value. *)
Definition is_html_delimiter (c : ascii) : bool :=
  is_char "<" c || is_char ">" c || is_char dquote c || is_char squote c.

(** What [_escapeHtml] writes for one code unit. *)
Definition escape_char (c : ascii) : jsstring :=
  if is_html_special c then htmlEntities [c] else [c].

(** ** Frontmatter entries *)

(** [entry_from_line lines k v]: the key [k] is trimmed and is not
    [__proto__], and some line [kraw:vraw] of [lines], cut at its
    first colon, has [k] as its trimmed key and [v] as the value of
    its trimmed rest. *)
Definition entry_from_line (lines : list jsstring) (k : jsstring) (v : fmvalue)
    : Prop :=
  trim k = k /\ k <> "__proto__"
  /\ exists kraw vraw,
       In (kraw ++ ":" ++ vraw) lines
       /\ forallb (not_char ":") kraw = true
       /\ k = trim kraw /\ v = parse_value (trim vraw).

(** A letter of [A-Z] or [a-z], or a digit. *)
Definition is_alnum (c : ascii) : bool := is_letter c || is_digit c.

(** A line feed and three hyphens at the start of [x]: the closing
    fence of a frontmatter block, as [patterns.frontmatter] reads it. *)
Definition lf_fence (x : jsstring) : bool :=
  match x with
  | a :: b :: c :: d :: _ =>
      is_char LF a && is_char "-" b && is_char "-" c && is_char "-" d
  | _ => false
  end.

(** A line that starts with three hyphens somewhere after the first
    line of [s]. *)
Fixpoint has_fence (s : jsstring) : bool :=
  match s with
  | [] => false
  | _ :: s' => lf_fence s || has_fence s'
  end.

(** The position after an optional code unit of [p]. *)
Definition opt_pos (p : ascii -> bool) (st : position) : position :=
  match snd st with
  | c :: s' => if p c then (c :: fst st, s') else st
  | [] => st
  end.

(** The rest of the line is blank: white space only, up to the next
    line feed or to the end of the text. *)
Fixpoint line_blank (s : jsstring) : bool :=
  match s with
  | [] => true
  | c :: s' => is_char LF c || (is_space c && line_blank s')
  end.

(** No line feed of [s] is followed by a blank line. *)
Fixpoint no_blank_after (s : jsstring) : bool :=
  match s with
  | [] => true
  | c :: s' => (negb (is_char LF c) || negb (line_blank s')) && no_blank_after s'
  end.

(** A paragraph: a text whose lines all hold a code unit that is not
    white space. *)
Definition is_paragraph (b : jsstring) : bool :=
  negb (line_blank b) && no_blank_after b.

(** The code units that start an element of the markup: a paragraph
    without them is plain text. *)
Definition is_inline_markup (c : ascii) : bool :=
  is_char "#" c || is_char "[" c || is_char "`" c || is_char "*" c
  || is_char "_" c || is_char "-" c.

(** The split pattern of [_parseParagraphs]. *)
Definition paragraph_break : RegExp :=
  mkRegExp (Char (is_char LF) +> star is_space +> Char (is_char LF))
    false false.

(** A code unit of plain one-line text: no markup, nothing that the
    escaper rewrites, no line terminator. *)
Definition is_plain_char (c : ascii) : bool :=
  negb (is_markup c) && negb (is_html_special c) && is_dot c.




(** * Properties of the runtime model *)

(** ** Lists and character classes *)

Lemma firstn_length_app (A : Type) (pre post : list A) :
  firstn (length (pre ++ post) - length post) (pre ++ post) = pre.
Proof.
  rewrite length_app, Nat.add_sub.
  rewrite firstn_app, Nat.sub_diag, firstn_all. simpl.
  apply app_nil_r.
Qed.

Lemma between_app (bf bf' pre post : list ascii) :
  between (bf, pre ++ post) (bf', post) = pre.
Proof. unfold between. simpl. apply firstn_length_app. Qed.

Lemma between_cons (bf bf' : list ascii) (c : ascii) (af : list ascii) :
  between (bf, c :: af) (bf', af) = [c].
Proof. apply (between_app bf bf' [c] af). Qed.

Lemma between_nil (bf bf' af : list ascii) : between (bf, af) (bf', af) = [].
Proof. apply (between_app bf bf' [] af). Qed.

Lemma str_eqb_eq (s t : jsstring) : str_eqb s t = true <-> s = t.
Proof.
  revert t. induction s as [|a s IH]; intros [|b t]; simpl; split;
    try congruence; try reflexivity.
  - intros H. apply andb_true_iff in H. destruct H as [H1 H2].
    apply Ascii.eqb_eq in H1. apply IH in H2. congruence.
  - intros H. injection H as -> ->. rewrite Ascii.eqb_refl. simpl.
    apply IH. reflexivity.
Qed.

Lemma str_eqb_refl (s : jsstring) : str_eqb s s = true.
Proof. apply str_eqb_eq. reflexivity. Qed.

Lemma str_eqb_neq (s t : jsstring) : s <> t -> str_eqb s t = false.
Proof.
  intros H. destruct (str_eqb s t) eqn:E; [|reflexivity].
  apply str_eqb_eq in E. contradiction.
Qed.

(** ** The quantified atom: what a success means, and that
    backtracking finds one whenever there is one *)


Lemma hi_ok_dec (hi : option nat) (n : nat) :
  hi_zero hi = false -> hi_ok (dec_hi hi) n -> hi_ok hi (S n).
Proof. destruct hi as [[|h]|]; simpl; intros; try discriminate; lia. Qed.

Lemma hi_ok_S (hi : option nat) (n : nat) :
  hi_ok hi (S n) -> hi_zero hi = false /\ hi_ok (dec_hi hi) n.
Proof. destruct hi as [[|h]|]; simpl; intros; split; try reflexivity; lia. Qed.

Section RepLemmas.

Variable R : Type.
Variable p : ascii -> bool.

Lemma rep_greedy_sound (af : list ascii) :
  forall lo hi bf (k : position -> option R) x,
    rep_greedy p lo hi bf af k = Some x ->
    exists pre post,
      af = pre ++ post /\ forallb p pre = true /\ lo <= length pre /\
      hi_ok hi (length pre) /\ k (rev pre ++ bf, post) = Some x.
Proof.
  induction af as [|c af IH]; intros lo hi bf k x H; simpl in H.
  - destruct (hi_zero hi); destruct lo; try discriminate;
      exists [], []; simpl; repeat split; auto; try lia;
      destruct hi; simpl; auto; lia.
  - destruct (hi_zero hi) eqn:Hz.
    + destruct lo; try discriminate.
      exists [], (c :: af). simpl. repeat split; auto.
      destruct hi; simpl; auto; lia.
    + destruct (p c) eqn:Hp.
      * destruct (rep_greedy p (pred lo) (dec_hi hi) (c :: bf) af k) eqn:E.
        -- injection H as <-. apply IH in E.
           destruct E as (pre & post & -> & Hall & Hlo & Hhi & Hk).
           exists (c :: pre), post. simpl. rewrite Hp, Hall.
           repeat split; auto; try lia.
           ++ apply hi_ok_dec; assumption.
           ++ rewrite <- app_assoc. exact Hk.
        -- destruct lo; try discriminate.
           exists [], (c :: af). simpl. repeat split; auto.
           destruct hi; simpl; auto; lia.
      * destruct lo; try discriminate.
        exists [], (c :: af). simpl. repeat split; auto.
        destruct hi; simpl; auto; lia.
Qed.

Lemma rep_greedy_complete (pre : list ascii) :
  forall post lo hi bf (k : position -> option R),
    forallb p pre = true -> lo <= length pre -> hi_ok hi (length pre) ->
    k (rev pre ++ bf, post) <> None ->
    rep_greedy p lo hi bf (pre ++ post) k <> None.
Proof.
  induction pre as [|c pre IH]; intros post lo hi bf k Hall Hlo Hhi Hk.
  - simpl in *. assert (lo = 0) as -> by lia.
    destruct post as [|d post]; simpl.
    + destruct (hi_zero hi); exact Hk.
    + destruct (hi_zero hi); [exact Hk|].
      destruct (p d); [|exact Hk].
      destruct (rep_greedy p 0 (dec_hi hi) (d :: bf) post k);
        [discriminate | exact Hk].
  - simpl in *. apply andb_true_iff in Hall. destruct Hall as [Hc Hall].
    apply hi_ok_S in Hhi. destruct Hhi as [Hz Hhi].
    rewrite Hz, Hc.
    assert (Hrec : rep_greedy p (pred lo) (dec_hi hi) (c :: bf) (pre ++ post) k
                   <> None).
    { apply IH; auto; try lia. rewrite <- app_assoc in Hk. exact Hk. }
    destruct (rep_greedy p (pred lo) (dec_hi hi) (c :: bf) (pre ++ post) k);
      [discriminate | contradiction].
Qed.

Lemma rep_lazy_sound (af : list ascii) :
  forall lo hi bf (k : position -> option R) x,
    rep_lazy p lo hi bf af k = Some x ->
    exists pre post,
      af = pre ++ post /\ forallb p pre = true /\ lo <= length pre /\
      hi_ok hi (length pre) /\ k (rev pre ++ bf, post) = Some x.
Proof.
  induction af as [|c af IH]; intros lo hi bf k x H; simpl in H.
  - destruct lo.
    + destruct (k (bf, [])) eqn:E.
      * injection H as <-. exists [], []. simpl. repeat split; auto.
        destruct hi; simpl; auto; lia.
      * destruct (hi_zero hi); discriminate.
    + destruct (hi_zero hi); discriminate.
  - assert (Hmore :
      (if hi_zero hi then None
       else if p c then rep_lazy p (pred lo) (dec_hi hi) (c :: bf) af k
            else None) = Some x ->
      exists pre post,
        c :: af = pre ++ post /\ forallb p pre = true /\ lo <= length pre /\
        hi_ok hi (length pre) /\ k (rev pre ++ bf, post) = Some x).
    { intros H'. destruct (hi_zero hi) eqn:Hz; [discriminate|].
      destruct (p c) eqn:Hp; [|discriminate].
      apply IH in H'. destruct H' as (pre & post & -> & Hall & Hlo & Hhi & Hk).
      exists (c :: pre), post. simpl. rewrite Hp, Hall.
      repeat split; auto; try lia.
      - apply hi_ok_dec; assumption.
      - rewrite <- app_assoc. exact Hk. }
    destruct lo.
    + destruct (k (bf, c :: af)) eqn:E.
      * injection H as <-. exists [], (c :: af). simpl. repeat split; auto.
        destruct hi; simpl; auto; lia.
      * apply Hmore. exact H.
    + apply Hmore. exact H.
Qed.

Lemma rep_lazy_complete (pre : list ascii) :
  forall post lo hi bf (k : position -> option R),
    forallb p pre = true -> lo <= length pre -> hi_ok hi (length pre) ->
    k (rev pre ++ bf, post) <> None ->
    rep_lazy p lo hi bf (pre ++ post) k <> None.
Proof.
  induction pre as [|c pre IH]; intros post lo hi bf k Hall Hlo Hhi Hk.
  - simpl in *. assert (lo = 0) as -> by lia.
    destruct post as [|d post]; simpl.
    + destruct (k (bf, [])); [discriminate | contradiction].
    + destruct (k (bf, d :: post)); [discriminate | contradiction].
  - simpl in *. apply andb_true_iff in Hall. destruct Hall as [Hc Hall].
    apply hi_ok_S in Hhi. destruct Hhi as [Hz Hhi].
    rewrite Hz, Hc.
    assert (Hrec : rep_lazy p (pred lo) (dec_hi hi) (c :: bf) (pre ++ post) k
                   <> None).
    { apply IH; auto; try lia. rewrite <- app_assoc in Hk. exact Hk. }
    destruct lo.
    + destruct (k (bf, c :: pre ++ post)); [discriminate | exact Hrec].
    + exact Hrec.
Qed.

End RepLemmas.

(** ** The matcher against the declarative reading of patterns *)

Section MatcherLemmas.

Variable R : Type.
Variable ml : bool.

(** Every result of the matcher is the continuation's result at the
    end of a match of the pattern. *)
Lemma rmatch_sound (r : regex) :
  forall st caps (k : position -> captures -> option R) x,
    rmatch ml r st caps k = Some x ->
    exists st' caps', matches ml r st caps st' caps' /\ k st' caps' = Some x.
Proof.
  induction r as [|p|r1 IH1 r2 IH2|r1 IH1 r2 IH2|p lo hi g|r IH|i r IH| |];
    intros st caps k x H; simpl in H.
  - exists st, caps. split; [constructor | exact H].
  - destruct (snd st) as [|c af] eqn:E; [discriminate|].
    destruct (p c) eqn:Hp; [|discriminate].
    exists (c :: fst st, af), caps. split; [|exact H].
    apply m_char; assumption.
  - apply IH1 in H. destruct H as (st1 & caps1 & M1 & H).
    apply IH2 in H. destruct H as (st2 & caps2 & M2 & H).
    exists st2, caps2. split; [|exact H]. eapply m_seq; eassumption.
  - destruct (rmatch ml r1 st caps k) eqn:E.
    + injection H as <-. apply IH1 in E.
      destruct E as (st' & caps' & M & E).
      exists st', caps'. split; [|exact E]. apply m_alt_l. exact M.
    + apply IH2 in H. destruct H as (st' & caps' & M & H).
      exists st', caps'. split; [|exact H]. apply m_alt_r. exact M.
  - assert (exists pre post,
               snd st = pre ++ post /\ forallb p pre = true /\
               lo <= length pre /\ hi_ok hi (length pre) /\
               k (rev pre ++ fst st, post) caps = Some x) as Hex.
    { destruct g.
      - apply (rep_greedy_sound p (snd st) lo hi (fst st)
                 (fun st' => k st' caps)). exact H.
      - apply (rep_lazy_sound p (snd st) lo hi (fst st)
                 (fun st' => k st' caps)). exact H. }
    destruct Hex as (pre & post & E & Hall & Hlo & Hhi & Hk).
    exists (rev pre ++ fst st, post), caps. split; [|exact Hk].
    apply m_rep; assumption.
  - match type of H with
    | match ?m with _ => _ end = _ => destruct m eqn:E
    end.
    + injection H as <-. apply IH in E.
      destruct E as (st' & caps' & M & E).
      destruct (Nat.eqb (length (snd st')) (length (snd st))) eqn:Hlen;
        [discriminate|].
      exists st', caps'. split; [|exact E].
      apply m_opt_take; [exact M|]. apply Nat.eqb_neq. exact Hlen.
    + exists st, caps. split; [apply m_opt_skip | exact H].
  - apply IH in H. destruct H as (st' & caps' & M & H).
    exists st', ((i, between st st') :: caps'). split; [|exact H].
    apply m_group. exact M.
  - destruct (at_bol ml st) eqn:E; [|discriminate].
    exists st, caps. split; [apply m_bol; exact E | exact H].
  - destruct (at_eol ml st) eqn:E; [|discriminate].
    exists st, caps. split; [apply m_eol; exact E | exact H].
Qed.

(** Backtracking is exhaustive: when some match of the pattern lets
    the continuation succeed, the matcher succeeds. *)
Lemma rmatch_complete (r : regex) :
  forall st caps st' caps' (k : position -> captures -> option R),
    matches ml r st caps st' caps' ->
    k st' caps' <> None ->
    rmatch ml r st caps k <> None.
Proof.
  intros st caps st' caps' k M. revert k.
  induction M; intros k Hk; simpl.
  - exact Hk.
  - rewrite H, H0. exact Hk.
  - apply IHM1. apply IHM2. exact Hk.
  - specialize (IHM k Hk).
    destruct (rmatch ml r1 st caps k); [discriminate | contradiction].
  - specialize (IHM k Hk).
    destruct (rmatch ml r1 st caps k); [discriminate | exact IHM].
  - rewrite H. destruct greedy.
    + apply rep_greedy_complete; assumption.
    + apply rep_lazy_complete; assumption.
  - match goal with
    | |- match ?m with _ => _ end <> None => destruct m
    end; [discriminate | exact Hk].
  - assert (rmatch ml r st caps
              (fun st'0 caps'0 =>
                 if Nat.eqb (length (snd st'0)) (length (snd st)) then None
                 else k st'0 caps'0) <> None) as Hrec.
    { apply IHM. apply Nat.eqb_neq in H. rewrite H. exact Hk. }
    match goal with
    | |- match ?m with _ => _ end <> None => destruct m
    end; [discriminate | contradiction].
  - apply IHM. exact Hk.
  - rewrite H. exact Hk.
  - rewrite H. exact Hk.
Qed.

End MatcherLemmas.

(** ** The frontmatter pattern *)

Lemma is_any_true (c : ascii) : is_any c = true.
Proof. unfold is_any. destruct (is_space c); reflexivity. Qed.

Lemma forallb_is_any (s : jsstring) : forallb is_any s = true.
Proof. induction s; simpl; [|rewrite is_any_true]; auto. Qed.

Lemma is_char_eq (a c : ascii) : is_char a c = true -> c = a.
Proof. unfold is_char. apply Ascii.eqb_eq. Qed.

Lemma at_most_one (a : ascii) (pre : jsstring) :
  forallb (is_char a) pre = true -> length pre <= 1 -> pre = [] \/ pre = [a].
Proof.
  destruct pre as [|c [|d pre]]; simpl; intros H Hlen; auto; [|lia].
  right. apply andb_true_iff in H. destruct H as [H _].
  apply is_char_eq in H. congruence.
Qed.

(** An anchored pattern without the [m] flag fails away from the start. *)
Lemma frontmatter_only_at_start (c : ascii) (bf af : list ascii) :
  match_at patterns.frontmatter (c :: bf) af = None.
Proof. reflexivity. Qed.

Lemma search_frontmatter_later (af : list ascii) :
  forall c bf, search patterns.frontmatter (c :: bf) af = None.
Proof.
  induction af as [|d af IH]; intros c bf.
  - reflexivity.
  - change (search patterns.frontmatter (c :: bf) (d :: af))
      with (search patterns.frontmatter (d :: c :: bf) af).
    apply IH.
Qed.

Lemma search_frontmatter (s : jsstring) :
  search patterns.frontmatter [] s =
  option_map (fun m => ([], m)) (match_at patterns.frontmatter [] s).
Proof.
  destruct s as [|c s]; unfold search; fold search;
    destruct (match_at patterns.frontmatter [] _); simpl; auto.
  apply search_frontmatter_later.
Qed.


Lemma frontmatter_match_shape (s : jsstring) (m : match_result) :
  match_at patterns.frontmatter [] s = Some m -> frontmatter_shape s.
Proof.
  unfold match_at. intros H.
  apply rmatch_sound in H. destruct H as (st' & caps' & M & _).
  simpl in M. invert_matches. simpl in *.
  repeat match goal with
         | H : is_char _ _ = true |- _ => apply is_char_eq in H; subst
         | H : forallb (is_char _) _ = true |- _ =>
             apply at_most_one in H; [|assumption]
         end.
  subst.
  match goal with
  | |- frontmatter_shape
         (_ :: _ :: _ :: ?a ++ _ :: ?b ++ ?c ++ _ :: _ :: _ :: _ :: ?t) =>
      assert (a = [] \/ a = [CR]) as Ha by assumption;
      assert (c = [] \/ c = [CR]) as Hc by assumption;
      exists (a ++ [LF]), b, (c ++ [LF]), t
  end.
  unfold is_line_break.
  destruct Ha as [-> | ->], Hc as [-> | ->]; simpl; auto.
Qed.


Lemma frontmatter_shape_match (s : jsstring) :
  frontmatter_shape s -> match_at patterns.frontmatter [] s <> None.
Proof.
  intros (nl1 & body & nl2 & tail & H1 & H2 & ->).
  unfold match_at.
  assert (exists a, (a = [] \/ a = [CR]) /\ nl1 = a ++ [LF]) as (a & Ha & ->).
  { destruct H1 as [-> | ->]; [exists [] | exists [CR]]; auto. }
  assert (exists b, (b = [] \/ b = [CR]) /\ nl2 = b ++ [LF]) as (b & Hb & ->).
  { destruct H2 as [-> | ->]; [exists [] | exists [CR]]; auto. }
  assert (forallb (is_char CR) a = true /\ length a <= 1) as [Ha1 Ha2].
  { destruct Ha as [-> | ->]; simpl; auto. }
  assert (forallb (is_char CR) b = true /\ length b <= 1) as [Hb1 Hb2].
  { destruct Hb as [-> | ->]; simpl; auto. }
  eapply rmatch_complete; [|discriminate].
  simpl.
  eapply m_seq; [literal_matches|].
  eapply m_seq; [literal_matches|].
  eapply m_seq.
  { apply m_rep with (pre := a); simpl; auto; try lia.
    rewrite <- !app_assoc. reflexivity. }
  eapply m_seq; [literal_matches|].
  eapply m_seq.
  { apply m_group.
    apply m_rep with (pre := body); simpl; auto using forallb_is_any; lia. }
  eapply m_seq.
  { apply m_rep with (pre := b); simpl; auto; try lia.
    all: rewrite <- !app_assoc; reflexivity. }
  eapply m_seq; [literal_matches|].
  eapply m_seq; [literal_matches|].
  eapply m_seq.
  { apply m_rep with (pre := []); simpl; auto; lia. }
  apply m_rep with (pre := []); simpl; auto; lia.
Qed.


Lemma String_match_frontmatter (s : jsstring) :
  String_match s patterns.frontmatter = match_at patterns.frontmatter [] s.
Proof.
  unfold String_match. rewrite search_frontmatter.
  destruct (match_at patterns.frontmatter [] s); reflexivity.
Qed.

(** ** Replacement with one-class patterns *)

Lemma span_app (p : ascii -> bool) (s : jsstring) :
  s = fst (span p s) ++ snd (span p s).
Proof.
  induction s as [|c s IH]; simpl; [reflexivity|].
  destruct (p c); [|reflexivity].
  destruct (span p s) as [a b]. simpl in *. congruence.
Qed.

Lemma span_cons_true (p : ascii -> bool) (c : ascii) (s : jsstring) :
  p c = true -> span p (c :: s) = (c :: fst (span p s), snd (span p s)).
Proof. intros H. simpl. rewrite H. destruct (span p s). reflexivity. Qed.

Lemma span_cons_false (p : ascii -> bool) (c : ascii) (s : jsstring) :
  p c = false -> span p (c :: s) = ([], c :: s).
Proof. intros H. simpl. rewrite H. reflexivity. Qed.

(** A greedy quantifier in front of a continuation that cannot fail
    takes the whole run. *)
Lemma rep_greedy_total (R : Type) (p : ascii -> bool) (g : position -> R)
    (af : list ascii) :
  forall lo bf,
    rep_greedy p lo None bf af (fun st => Some (g st)) =
    if lo <=? length (fst (span p af))
    then Some (g (rev (fst (span p af)) ++ bf, snd (span p af)))
    else None.
Proof.
  induction af as [|c af IH]; intros lo bf; simpl rep_greedy.
  - destruct lo; reflexivity.
  - destruct (p c) eqn:Hp.
    + rewrite span_cons_true by assumption. rewrite IH. simpl fst. simpl snd.
      simpl length. simpl rev. rewrite <- app_assoc. simpl app.
      destruct lo as [|lo]; simpl pred.
      * reflexivity.
      * change (S lo <=? S (length (fst (span p af))))
          with (lo <=? length (fst (span p af))).
        destruct (lo <=? length (fst (span p af))); reflexivity.
    + rewrite span_cons_false by assumption. destruct lo; reflexivity.
Qed.

(** A greedy quantifier in front of [$] matches when the run reaches
    the end of the input. *)
Lemma rep_greedy_eol (R : Type) (p : ascii -> bool) (g : position -> R)
    (af : list ascii) :
  forall lo bf,
    rep_greedy p lo None bf af
      (fun st => if at_eol false st then Some (g st) else None) =
    if forallb p af && (lo <=? length af)
    then Some (g (rev af ++ bf, []))
    else None.
Proof.
  induction af as [|c af IH]; intros lo bf; simpl rep_greedy.
  - destruct lo; reflexivity.
  - destruct (p c) eqn:Hp.
    + rewrite IH. simpl forallb. rewrite Hp. simpl rev.
      rewrite <- app_assoc. simpl app. simpl length.
      destruct lo as [|lo]; simpl pred.
      * simpl. rewrite andb_true_r.
        destruct (forallb p af); reflexivity.
      * change (S lo <=? S (length af)) with (lo <=? length af).
        cbn [andb].
        destruct (forallb p af && (lo <=? length af)); reflexivity.
    + simpl forallb. rewrite Hp. destruct lo; reflexivity.
Qed.

Lemma between_span (p : ascii -> bool) (bf bf' af : list ascii) :
  between (bf, af) (bf', snd (span p af)) = fst (span p af).
Proof.
  pose proof (span_app p af) as H.
  set (a := fst (span p af)) in *. set (b := snd (span p af)) in *.
  clearbody a b. subst af. apply between_app.
Qed.

Lemma match_at_char (p : ascii -> bool) (g m : bool) (bf af : list ascii) :
  match_at (mkRegExp (Char p) g m) bf af =
  match af with
  | c :: af' => if p c then Some (mkMatch [c] af' []) else None
  | [] => None
  end.
Proof.
  unfold match_at. simpl. destruct af as [|c af]; [reflexivity|].
  destruct (p c); [|reflexivity]. rewrite between_cons. reflexivity.
Qed.

Lemma match_at_plus (p : ascii -> bool) (g m : bool) (bf af : list ascii) :
  match_at (mkRegExp (plus p) g m) bf af =
  match fst (span p af) with
  | [] => None
  | run => Some (mkMatch run (snd (span p af)) [])
  end.
Proof.
  unfold match_at. simpl.
  rewrite (rep_greedy_total p
             (fun st' => mkMatch (between (bf, af) st') (snd st') [])).
  cbv beta. rewrite between_span. simpl snd.
  destruct (fst (span p af)); reflexivity.
Qed.

(** Replacing the matches of a one-class pattern rewrites the code
    units of the class, one by one. *)
Lemma replace_all_char (p : ascii -> bool) (m : bool) (f : replacer)
    (s : jsstring) :
  forall bf,
    replace_all (mkRegExp (Char p) true m) f bf s 0 =
    flat_map (fun c => if p c then f [c] [] else [c]) s.
Proof.
  induction s as [|c s IH]; intros bf.
  - reflexivity.
  - unfold replace_all; fold replace_all. rewrite match_at_char.
    simpl flat_map. destruct (p c); simpl; rewrite IH; reflexivity.
Qed.

(** ** The three passes of [createSlug] *)

Lemma slug_junk_kept (c : ascii) : is_slug_junk c = negb (kept_in_slug c).
Proof.
  unfold is_slug_junk, kept_in_slug, is_word, is_letter.
  destruct (is_upper c), (is_lower c), (is_digit c), (is_space c),
    (is_char "-" c), (Ascii.eqb c "_") eqn:E; unfold is_char; rewrite ?E;
    reflexivity.
Qed.

Lemma slug_special_pass (s : jsstring) :
  String_replace s slug_special (expand []) = remove_special s.
Proof.
  unfold String_replace, slug_special. simpl global. cbv iota.
  rewrite replace_all_char. unfold remove_special.
  induction s as [|c s IH]; simpl; [reflexivity|].
  rewrite slug_junk_kept. unfold expand in *.
  destruct (kept_in_slug c); simpl in *; congruence.
Qed.

Lemma slug_separators_from (af : list ascii) :
  forall bf,
    replace_all slug_separators (expand [Lit "-"]) bf af 0
    = collapse_runs false af
    /\ replace_all slug_separators (expand [Lit "-"]) bf af
         (length (fst (span is_slug_sep af)))
       = collapse_runs true af.
Proof.
  induction af as [|c af IH]; intros bf.
  - split; reflexivity.
  - assert (replace_all slug_separators (expand [Lit "-"]) bf (c :: af) 0
            = collapse_runs false (c :: af)) as H0.
    { unfold replace_all; fold replace_all. unfold slug_separators.
      rewrite match_at_plus. simpl collapse_runs.
      destruct (is_slug_sep c) eqn:Hc.
      - rewrite span_cons_true by assumption. simpl fst. simpl snd.
        cbn [matched groups length]. destruct (IH (c :: bf)) as [_ H].
        unfold slug_separators in H. rewrite H. reflexivity.
      - rewrite span_cons_false by assumption. simpl fst.
        destruct (IH (c :: bf)) as [H _].
        unfold slug_separators in H. rewrite H. reflexivity. }
    split; [exact H0|].
    destruct (is_slug_sep c) eqn:Hc.
    + rewrite span_cons_true by assumption. simpl fst. simpl length.
      simpl collapse_runs. rewrite Hc.
      unfold replace_all; fold replace_all.
      destruct (IH (c :: bf)) as [_ H]. exact H.
    + rewrite span_cons_false by assumption. simpl fst. simpl length.
      rewrite H0. simpl. rewrite Hc. reflexivity.
Qed.

Lemma slug_separators_pass (s : jsstring) :
  String_replace s slug_separators (expand [Lit "-"]) = collapse_runs false s.
Proof. apply (slug_separators_from s []). Qed.

Lemma between_all (bf bf' af : list ascii) : between (bf, af) (bf', []) = af.
Proof.
  unfold between. simpl. rewrite Nat.sub_0_r. apply firstn_all.
Qed.

Lemma span_nil_forallb (p : ascii -> bool) (af : list ascii) :
  fst (span p af) = [] -> forallb p af && (1 <=? length af) = false.
Proof.
  destruct af as [|c af]; simpl; [reflexivity|].
  destruct (p c); [|reflexivity].
  destruct (span p af). simpl. discriminate.
Qed.

Lemma match_at_slug_edges_start (af : list ascii) :
  match_at slug_edges [] af =
  match fst (span (is_char "-") af) with
  | [] => None
  | run => Some (mkMatch run (snd (span (is_char "-") af)) [])
  end.
Proof.
  unfold match_at, slug_edges. simpl.
  rewrite (rep_greedy_total (is_char "-")
             (fun st' => mkMatch (between ([], af) st') (snd st') [])).
  rewrite (rep_greedy_eol (is_char "-")
             (fun st' => mkMatch (between ([], af) st') (snd st') [])).
  cbv beta. rewrite between_span. simpl snd.
  destruct (fst (span (is_char "-") af)) eqn:E; [|reflexivity].
  simpl. rewrite span_nil_forallb by assumption. reflexivity.
Qed.

Lemma match_at_slug_edges_later (c : ascii) (bf af : list ascii) :
  match_at slug_edges (c :: bf) af =
  if forallb (is_char "-") af && (1 <=? length af)
  then Some (mkMatch af [] [])
  else None.
Proof.
  unfold match_at, slug_edges. simpl.
  rewrite (rep_greedy_eol (is_char "-")
             (fun st' => mkMatch (between (c :: bf, af) st') (snd st') [])).
  cbv beta. rewrite between_all. reflexivity.
Qed.

(** Once a match has taken the rest of the input, nothing is left to
    replace. *)
Lemma replace_all_slug_edges_skip (af : list ascii) :
  forall c bf,
    replace_all slug_edges (expand []) (c :: bf) af (length af) = [].
Proof.
  induction af as [|d af IH]; intros c bf.
  - reflexivity.
  - simpl length. unfold replace_all; fold replace_all. apply IH.
Qed.

Lemma slug_edges_later (af : list ascii) :
  forall c bf,
    replace_all slug_edges (expand []) (c :: bf) af 0 = strip_trailing af.
Proof.
  induction af as [|d af IH]; intros c bf.
  - reflexivity.
  - unfold replace_all; fold replace_all.
    rewrite match_at_slug_edges_later. unfold strip_trailing; fold strip_trailing.
    change (1 <=? length (d :: af)) with true. rewrite andb_true_r.
    destruct (forallb (is_char "-") (d :: af)).
    + cbn [matched groups length]. rewrite replace_all_slug_edges_skip.
      reflexivity.
    + rewrite IH. reflexivity.
Qed.

Lemma slug_edges_skip_run (af : list ascii) :
  forall c bf,
    replace_all slug_edges (expand []) (c :: bf) af
      (length (fst (span (is_char "-") af)))
    = strip_trailing (snd (span (is_char "-") af)).
Proof.
  induction af as [|d af IH]; intros c bf.
  - reflexivity.
  - destruct (is_char "-" d) eqn:Hd.
    + rewrite span_cons_true by assumption. simpl fst. simpl snd. simpl length.
      unfold replace_all; fold replace_all. apply IH.
    + rewrite span_cons_false by assumption. simpl fst. simpl snd. simpl length.
      apply slug_edges_later.
Qed.

Lemma slug_edges_pass (s : jsstring) :
  String_replace s slug_edges (expand []) = strip_trailing (strip_leading s).
Proof.
  unfold String_replace. simpl global. cbv iota. unfold strip_leading.
  destruct s as [|c s]; [reflexivity|].
  unfold replace_all; fold replace_all. rewrite match_at_slug_edges_start.
  destruct (is_char "-" c) eqn:Hc.
  - rewrite span_cons_true by assumption. simpl fst. simpl snd.
    cbn [matched groups length]. rewrite slug_edges_skip_run. reflexivity.
  - rewrite span_cons_false by assumption. simpl fst. simpl snd.
    rewrite slug_edges_later.
    unfold strip_trailing; fold strip_trailing. simpl forallb. rewrite Hc.
    reflexivity.
Qed.

(** [createSlug] computes the slug of the specification. *)
Lemma createSlug_slugify (text : jsstring) : createSlug text = slugify text.
Proof.
  unfold createSlug, slugify. destruct (is_empty text); [reflexivity|].
  cbv zeta.
  rewrite slug_special_pass, slug_separators_pass, slug_edges_pass.
  reflexivity.
Qed.

(** ** The shape of a slug, and idempotence *)

Lemma lower_char_not_upper (c : ascii) : is_upper (lower_char c) = false.
Proof. each_char c; reflexivity. Qed.

Lemma slug_char_facts (c : ascii) :
  is_slug_char c = true ->
  lower_char c = c /\ is_space c = false /\ kept_in_slug c = true
  /\ is_slug_sep c = is_char "-" c.
Proof. each_char c; vm_compute; intros H; try discriminate H; auto. Qed.

Lemma kept_lower_slug_char (c : ascii) :
  kept_in_slug c = true -> is_upper c = false -> is_slug_sep c = false ->
  is_slug_char c = true /\ is_char "-" c = false.
Proof.
  each_char c; vm_compute; intros H1 H2 H3;
    try discriminate H1; try discriminate H2; try discriminate H3; auto.
Qed.

Lemma hyphen_is_sep (c : ascii) : is_char "-" c = true -> is_slug_sep c = true.
Proof.
  unfold is_slug_sep. intros ->. rewrite !orb_true_r. reflexivity.
Qed.

Lemma Forall_trimStart (P : ascii -> Prop) (s : jsstring) :
  Forall P s -> Forall P (trimStart s).
Proof.
  induction 1 as [|c s Hc Hs IH]; simpl; [constructor|].
  destruct (is_space c); [exact IH | constructor; assumption].
Qed.

Lemma Forall_trim (P : ascii -> Prop) (s : jsstring) :
  Forall P s -> Forall P (trim s).
Proof.
  intros H. unfold trim, trimEnd.
  apply Forall_rev. apply Forall_trimStart. apply Forall_rev.
  apply Forall_trimStart. exact H.
Qed.

Lemma Forall_collapse_runs (s : jsstring) :
  forall b,
    Forall (fun c => kept_in_slug c = true /\ is_upper c = false) s ->
    Forall (fun c => is_slug_char c = true) (collapse_runs b s).
Proof.
  induction s as [|c s IH]; intros b H; simpl; [constructor|].
  inversion H as [|c' s' [Hk Hu] Hs]; subst.
  destruct (is_slug_sep c) eqn:Hsep.
  - destruct b; [apply IH; assumption|].
    constructor; [reflexivity | apply IH; assumption].
  - constructor; [|apply IH; assumption].
    apply kept_lower_slug_char; assumption.
Qed.

Lemma no_double_collapse_runs (s : jsstring) :
  forall b,
    Forall (fun c => kept_in_slug c = true /\ is_upper c = false) s ->
    no_double b (collapse_runs b s) = true.
Proof.
  induction s as [|c s IH]; intros b H; simpl; [reflexivity|].
  inversion H as [|c' s' [Hk Hu] Hs]; subst.
  destruct (is_slug_sep c) eqn:Hsep.
  - destruct b; [apply IH; assumption|].
    simpl. apply IH; assumption.
  - simpl. destruct (kept_lower_slug_char c Hk Hu Hsep) as [_ ->].
    apply IH; assumption.
Qed.

Lemma Forall_span_snd (P : ascii -> Prop) (p : ascii -> bool) (s : jsstring) :
  Forall P s -> Forall P (snd (span p s)).
Proof.
  induction 1 as [|c s Hc Hs IH]; simpl; [constructor|].
  destruct (p c); [|constructor; assumption].
  destruct (span p s); exact IH.
Qed.

Lemma no_double_strip_leading (s : jsstring) :
  forall b, no_double b s = true -> no_double true (strip_leading s) = true.
Proof.
  unfold strip_leading.
  induction s as [|c s IH]; intros b H; simpl in *; [reflexivity|].
  destruct (is_char "-" c) eqn:Hc.
  - apply andb_true_iff in H. destruct H as [_ H].
    specialize (IH true H). destruct (span (is_char "-") s). exact IH.
  - simpl. rewrite Hc. exact H.
Qed.

Lemma Forall_strip_trailing (P : ascii -> Prop) (s : jsstring) :
  Forall P s -> Forall P (strip_trailing s).
Proof.
  induction 1 as [|c s Hc Hs IH]; [constructor|].
  unfold strip_trailing; fold strip_trailing.
  destruct (forallb (is_char "-") (c :: s)); constructor; assumption.
Qed.

Lemma no_double_strip_trailing (s : jsstring) :
  forall b, no_double b s = true -> no_double b (strip_trailing s) = true.
Proof.
  induction s as [|c s IH]; intros b H; [reflexivity|].
  unfold strip_trailing; fold strip_trailing.
  destruct (forallb (is_char "-") (c :: s)); [reflexivity|].
  simpl in *. destruct (is_char "-" c).
  - apply andb_true_iff in H. destruct H as [-> H]. simpl. apply IH. exact H.
  - apply IH. exact H.
Qed.

Lemma forallb_strip_trailing (s : jsstring) :
  forallb (is_char "-") s = false ->
  forallb (is_char "-") (strip_trailing s) = false.
Proof.
  induction s as [|c s IH]; intros H; [discriminate|].
  unfold strip_trailing; fold strip_trailing. rewrite H.
  simpl in *. destruct (is_char "-" c); simpl in *; auto.
Qed.

Lemma strip_trailing_cons (c : ascii) (s : jsstring) :
  strip_trailing (c :: s) =
  if forallb (is_char "-") (c :: s) then [] else c :: strip_trailing s.
Proof. reflexivity. Qed.

Lemma strip_trailing_idempotent (s : jsstring) :
  strip_trailing (strip_trailing s) = strip_trailing s.
Proof.
  induction s as [|c s IH]; [reflexivity|].
  rewrite (strip_trailing_cons c s).
  destruct (forallb (is_char "-") (c :: s)) eqn:E; [reflexivity|].
  rewrite strip_trailing_cons.
  assert (forallb (is_char "-") (c :: strip_trailing s) = false) as ->.
  { simpl in *. destruct (is_char "-" c); simpl in *; auto.
    apply forallb_strip_trailing. exact E. }
  rewrite IH. reflexivity.
Qed.

Lemma no_double_true_false (s : jsstring) :
  no_double true s = true ->
  no_double false s = true /\ startsWith s "-" = false.
Proof.
  destruct s as [|c s]; simpl; [auto|].
  unfold is_char. destruct (Ascii.eqb c "-"); simpl; [discriminate | auto].
Qed.

Lemma startsWith_app (s t : jsstring) (a : ascii) :
  s <> [] -> startsWith (s ++ t) a = startsWith s a.
Proof. destruct s; [contradiction | reflexivity]. Qed.

Lemma strip_trailing_fixed_end (s : jsstring) :
  strip_trailing s = s -> endsWith s "-" = false.
Proof.
  unfold endsWith.
  induction s as [|c s IH]; [reflexivity|].
  unfold strip_trailing; fold strip_trailing.
  destruct (forallb (is_char "-") (c :: s)) eqn:E; [discriminate|].
  intros H. injection H as H. simpl rev.
  destruct s as [|d s].
  - simpl in *. unfold is_char in E. rewrite andb_true_r in E. exact E.
  - rewrite startsWith_app.
    + apply IH. exact H.
    + simpl. destruct (rev s); discriminate.
Qed.

Lemma slugify_invariant (text : jsstring) : slug_invariant (slugify text).
Proof.
  unfold slugify. destruct (is_empty text).
  { repeat split; constructor. }
  set (u := trim (toLowerCase text)).
  assert (Forall (fun c => is_upper c = false) u) as Hu.
  { apply Forall_trim. unfold toLowerCase. apply Forall_map.
    apply Forall_forall. intros c _. apply lower_char_not_upper. }
  assert (Forall (fun c => kept_in_slug c = true /\ is_upper c = false)
            (remove_special u)) as Hv.
  { unfold remove_special. apply Forall_forall. intros c Hc.
    apply filter_In in Hc. destruct Hc as [Hin Hk]. split; [exact Hk|].
    rewrite Forall_forall in Hu. apply Hu. exact Hin. }
  repeat split.
  - apply Forall_strip_trailing. apply Forall_span_snd.
    apply Forall_collapse_runs. exact Hv.
  - apply no_double_strip_trailing.
    apply (no_double_strip_leading _ false).
    apply no_double_collapse_runs. exact Hv.
  - apply strip_trailing_idempotent.
Qed.

Lemma trimStart_no_space (s : jsstring) :
  Forall (fun c => is_space c = false) s -> trimStart s = s.
Proof. destruct 1 as [|c s Hc _]; simpl; [|rewrite Hc]; reflexivity. Qed.

Lemma trim_no_space (s : jsstring) :
  Forall (fun c => is_space c = false) s -> trim s = s.
Proof.
  intros H. unfold trim, trimEnd. rewrite (trimStart_no_space H).
  rewrite trimStart_no_space by (apply Forall_rev; exact H).
  apply rev_involutive.
Qed.

Lemma collapse_runs_fixed (s : jsstring) :
  forall b,
    Forall (fun c => is_slug_char c = true) s ->
    no_double b s = true ->
    collapse_runs b s = s.
Proof.
  induction s as [|c s IH]; intros b H Hn; simpl in *; [reflexivity|].
  inversion H as [|c' s' Hc Hs]; subst.
  destruct (slug_char_facts c Hc) as (_ & _ & _ & ->).
  destruct (is_char "-" c) eqn:Hh.
  - apply andb_true_iff in Hn. destruct Hn as [Hb Hn].
    destruct b; [discriminate|].
    apply is_char_eq in Hh. subst c. f_equal. apply IH; assumption.
  - f_equal. apply IH; assumption.
Qed.

Lemma slugify_fixed (s : jsstring) : slug_invariant s -> slugify s = s.
Proof.
  intros (Hall & Hn & Hst). unfold slugify.
  destruct (is_empty s) eqn:Es; [destruct s; [reflexivity | discriminate]|].
  assert (toLowerCase s = s) as ->.
  { unfold toLowerCase. clear - Hall.
    induction Hall as [|c s Hc Hs IH]; simpl; [reflexivity|].
    destruct (slug_char_facts c Hc) as (-> & _). congruence. }
  rewrite trim_no_space.
  2:{ eapply Forall_impl; [|exact Hall]. intros c Hc.
      apply (slug_char_facts c Hc). }
  assert (remove_special s = s) as ->.
  { unfold remove_special. clear - Hall.
    induction Hall as [|c s Hc Hs IH]; simpl; [reflexivity|].
    destruct (slug_char_facts c Hc) as (_ & _ & -> & _). congruence. }
  destruct (no_double_true_false s Hn) as [Hn' Hstart].
  rewrite collapse_runs_fixed by assumption.
  assert (strip_leading s = s) as ->.
  { unfold strip_leading. clear - Hstart. destruct s as [|c s]; [reflexivity|].
    simpl in *. unfold is_char. rewrite Hstart. reflexivity. }
  exact Hst.
Qed.

Lemma slug_invariant_shape (s : jsstring) : slug_invariant s -> slug_shape s.
Proof.
  intros (Hall & Hn & Hst).
  destruct (no_double_true_false s Hn) as [Hn' Hstart].
  repeat split; auto. apply strip_trailing_fixed_end. exact Hst.
Qed.

(** ** Priority of the quantifiers *)

(** A greedy quantifier hands the whole run to its continuation first. *)
Lemma rep_greedy_first (R : Type) (p : ascii -> bool) (run : list ascii) :
  forall rest lo bf (k : position -> option R) x,
    forallb p run = true ->
    lo <= length run ->
    match rest with [] => True | c :: _ => p c = false end ->
    k (rev run ++ bf, rest) = Some x ->
    rep_greedy p lo None bf (run ++ rest) k = Some x.
Proof.
  induction run as [|c run IH]; intros rest lo bf k x Hall Hlo Hrest Hk.
  - simpl in *. assert (lo = 0) as -> by lia.
    destruct rest as [|d rest]; simpl.
    + exact Hk.
    + rewrite Hrest. exact Hk.
  - simpl in *. apply andb_true_iff in Hall. destruct Hall as [Hc Hall].
    rewrite Hc. rewrite (IH rest (pred lo) (c :: bf) k x); auto; try lia.
    rewrite <- app_assoc in Hk. exact Hk.
Qed.

(** A lazy quantifier stops at the first position where its
    continuation succeeds. *)
Lemma rep_lazy_first (R : Type) (p : ascii -> bool) (pre : list ascii) :
  forall post bf (k : position -> option R) x,
    forallb p pre = true ->
    (forall pre1 pre2, pre = pre1 ++ pre2 -> pre2 <> [] ->
                       k (rev pre1 ++ bf, pre2 ++ post) = None) ->
    k (rev pre ++ bf, post) = Some x ->
    rep_lazy p 0 None bf (pre ++ post) k = Some x.
Proof.
  induction pre as [|c pre IH]; intros post bf k x Hall Hnone Hk.
  - simpl in *. destruct post as [|d post]; simpl; rewrite Hk; reflexivity.
  - simpl in *. apply andb_true_iff in Hall. destruct Hall as [Hc Hall].
    pose proof (Hnone [] (c :: pre) eq_refl) as H0. simpl in H0.
    rewrite H0 by discriminate.
    rewrite Hc. apply IH; auto.
    + intros pre1 pre2 E Hne.
      specialize (Hnone (c :: pre1) pre2). simpl in Hnone.
      rewrite <- app_assoc in Hnone. apply Hnone; [congruence | exact Hne].
    + rewrite <- app_assoc in Hk. exact Hk.
Qed.

(** [p?] in front of a code unit of [p] takes it when the continuation
    then succeeds. *)
Lemma opt_take (R : Type) (p : ascii -> bool) (c : ascii)
    (bf af : list ascii) (k : position -> option R) (x : R) :
  p c = true -> k (c :: bf, af) = Some x ->
  rep_greedy p 0 (Some 1) bf (c :: af) k = Some x.
Proof.
  intros Hp Hk. simpl. rewrite Hp.
  destruct af; simpl; rewrite Hk; reflexivity.
Qed.

(** [p?] in front of anything else matches the empty text. *)
Lemma opt_skip (R : Type) (p : ascii -> bool) (bf af : list ascii)
    (k : position -> option R) :
  match af with [] => True | c :: _ => p c = false end ->
  rep_greedy p 0 (Some 1) bf af k = k (bf, af).
Proof.
  intros H. destruct af as [|c af]; simpl; [reflexivity|].
  rewrite H. reflexivity.
Qed.

Lemma replace_all_skip_end (re : RegExp) (f : replacer) (af : list ascii) :
  (forall bf, match_at re bf [] = None) ->
  forall bf, replace_all re f bf af (length af) = [].
Proof.
  intros Hend. induction af as [|c af IH]; intros bf.
  - simpl. rewrite Hend. reflexivity.
  - simpl length. unfold replace_all; fold replace_all. apply IH.
Qed.

(** [\n?] and then a backtick fail in front of two code units that are
    not backticks. *)
Lemma fence_fails (R : Type) (bf : list ascii) (d e : ascii) (s : list ascii)
    (K : ascii -> list ascii -> position -> option R) :
  not_char "`" d = true -> not_char "`" e = true ->
  rep_greedy (is_char LF) 0 (Some 1) bf (d :: e :: s)
    (fun st => match snd st with
               | [] => None
               | c :: af => if is_char "`" c then K c af st else None
               end) = None.
Proof.
  unfold not_char, is_char. intros Hd He.
  apply negb_true_iff in Hd. apply negb_true_iff in He.
  simpl. rewrite Hd, He. destruct (Ascii.eqb d LF); reflexivity.
Qed.

Lemma forallb_app_r (p : ascii -> bool) (s t : jsstring) :
  forallb p (s ++ t) = true -> forallb p t = true.
Proof. rewrite forallb_app. intros H. apply andb_true_iff in H. apply H. Qed.

Lemma length_app_neq (A : Type) (s t : list A) :
  s <> [] -> (length t =? length (s ++ t)) = false.
Proof.
  intros H. apply Nat.eqb_neq. rewrite length_app.
  destruct s; [contradiction | simpl; lia].
Qed.

(** Between a fence and the first closing fence the lazy body takes
    everything up to the line end before the closing fence. *)
Lemma body_then_fence (body : jsstring) (bf : list ascii) (caps : captures)
    (whole : jsstring) :
  forallb (not_char "`") body = true ->
  rep_lazy is_any 0 None bf (body ++ LF :: "```")
    (fun st1 =>
       rep_greedy (is_char LF) 0 (Some 1) (fst st1) (snd st1)
         (fun st2 =>
            rmatch false (lit "```") st2
              ((2, between (bf, body ++ LF :: "```") st1) :: caps)
              (fun st' caps' =>
                 Some (mkMatch (between ([], whole) st') (snd st') caps'))))
  = Some (mkMatch whole [] ((2, body) :: caps)).
Proof.
  intros Hb. apply rep_lazy_first.
  - apply forallb_is_any.
  - intros pre1 pre2 E Hne. subst body. apply forallb_app_r in Hb.
    destruct pre2 as [|d pre2]; [contradiction|].
    simpl in Hb. apply andb_true_iff in Hb. destruct Hb as [Hd Hb].
    cbn [fst snd]. destruct pre2 as [|e pre2].
    + apply fence_fails; [exact Hd | reflexivity].
    + simpl in Hb. apply andb_true_iff in Hb. destruct Hb as [He Hb].
      apply fence_fails; assumption.
  - cbn [fst snd]. apply opt_take; [reflexivity|].
    simpl. rewrite between_app, between_all. reflexivity.
Qed.

Lemma orelse_some (R : Type) (x y : option R) (r : R) :
  x = Some r -> (x <|> y) = Some r.
Proof. intros ->. reflexivity. Qed.

Lemma match_at_codeBlock_tagged (tag body : jsstring) :
  tag <> [] -> forallb is_word tag = true ->
  forallb (not_char "`") body = true ->
  match_at patterns.codeBlock [] ("```" ++ tag ++ LF :: body ++ LF :: "```")
  = Some (mkMatch ("```" ++ tag ++ LF :: body ++ LF :: "```") []
            [(2, body); (1, tag)]).
Proof.
  intros Htag Hw Hb. unfold match_at. simpl.
  apply orelse_some.
  apply rep_greedy_first with (run := tag); auto.
  - destruct tag; [contradiction | simpl; lia].
  - cbn [fst snd]. rewrite length_app_neq by assumption.
    apply opt_take; [reflexivity|]. cbn [fst snd].
    rewrite between_app.
    apply (body_then_fence body _ [(1, tag)]
             ("```" ++ tag ++ LF :: body ++ LF :: "```") Hb).
Qed.

Lemma rep_greedy_zero (R : Type) (p : ascii -> bool) (bf af : list ascii)
    (k : position -> option R) :
  rep_greedy p 0 (Some 0) bf af k = k (bf, af).
Proof. destruct af; reflexivity. Qed.

Lemma match_at_codeBlock_plain (body : jsstring) :
  forallb (not_char "`") body = true ->
  match_at patterns.codeBlock [] ("```" ++ LF :: body ++ LF :: "```")
  = Some (mkMatch ("```" ++ LF :: body ++ LF :: "```") [] [(2, body)]).
Proof.
  intros Hb. unfold match_at. simpl.
  apply orelse_some. rewrite rep_greedy_zero. cbn [fst snd].
  apply (body_then_fence body _ [] ("```" ++ LF :: body ++ LF :: "```") Hb).
Qed.

Lemma match_at_inlineCode (code : jsstring) :
  code <> [] -> forallb (not_char "`") code = true ->
  match_at patterns.inlineCode [] ("`" ++ code ++ "`")
  = Some (mkMatch ("`" ++ code ++ "`") [] [(1, code)]).
Proof.
  intros Hne Hc. unfold match_at. simpl.
  apply rep_greedy_first with (run := code); auto.
  - destruct code; [contradiction | simpl; lia].
  - simpl. rewrite between_app, between_all. reflexivity.
Qed.

(** A match that takes the whole input is replaced by its replacement. *)
Lemma replace_all_whole (re : RegExp) (f : replacer) (s : jsstring)
    (caps : captures) :
  s <> [] ->
  (forall bf, match_at re bf [] = None) ->
  match_at re [] s = Some (mkMatch s [] caps) ->
  replace_all re f [] s 0 = f s caps.
Proof.
  intros Hne Hend Hm. destruct s as [|c s]; [contradiction|].
  unfold replace_all; fold replace_all. rewrite Hm.
  cbn [matched groups length]. rewrite replace_all_skip_end by assumption.
  apply app_nil_r.
Qed.

Lemma codeBlock_not_at_end (bf : list ascii) :
  match_at patterns.codeBlock bf [] = None.
Proof. reflexivity. Qed.

Lemma inlineCode_not_at_end (bf : list ascii) :
  match_at patterns.inlineCode bf [] = None.
Proof. reflexivity. Qed.

(** The escaper rewrites the five reserved characters, one by one. *)
Lemma _escapeHtml_each (text : jsstring) :
  _escapeHtml text
  = flat_map (fun c => if is_html_special c then htmlEntities [c] else [c]) text.
Proof. unfold _escapeHtml, String_replace. simpl. apply replace_all_char. Qed.

(** ** Numeric strings *)

Lemma span_exact (p : ascii -> bool) (ds rest : jsstring) :
  forallb p ds = true -> head_fails p rest -> span p (ds ++ rest) = (ds, rest).
Proof.
  intros Hds Hrest. induction ds as [|c ds IH]; simpl in *.
  - destruct rest as [|d rest]; [reflexivity|]. simpl in *.
    rewrite Hrest. reflexivity.
  - apply andb_true_iff in Hds. destruct Hds as [Hc Hds].
    rewrite Hc, (IH Hds). reflexivity.
Qed.

Lemma span_forallb (p : ascii -> bool) (s : jsstring) :
  forallb p (fst (span p s)) = true.
Proof.
  induction s as [|c s IH]; simpl; [reflexivity|].
  destruct (p c) eqn:Hp; [|reflexivity].
  destruct (span p s). simpl in *. rewrite Hp. exact IH.
Qed.

Lemma span_eq (p : ascii -> bool) (s a b : jsstring) :
  span p s = (a, b) -> s = a ++ b /\ forallb p a = true.
Proof.
  intros H. pose proof (span_app p s) as H1.
  pose proof (span_forallb p s) as H2. rewrite H in *. auto.
Qed.

Lemma strip_prefix_eq (pre s s' : jsstring) :
  strip_prefix pre s = Some s' -> s = pre ++ s'.
Proof.
  revert s. induction pre as [|a pre IH]; intros s H; simpl in *.
  - congruence.
  - destruct s as [|c s]; [discriminate|].
    destruct (Ascii.eqb a c) eqn:E; [|discriminate].
    apply Ascii.eqb_eq in E. subst. f_equal. apply IH. exact H.
Qed.

Lemma strip_prefix_app (pre s : jsstring) : strip_prefix pre (pre ++ s) = Some s.
Proof.
  induction pre as [|a pre IH]; simpl; [reflexivity|].
  rewrite Ascii.eqb_refl. exact IH.
Qed.


Lemma scan_sign_sound (s s' : jsstring) (neg : bool) :
  scan_sign s = (neg, s') -> exists sg, Sign sg /\ s = sg ++ s'.
Proof.
  unfold scan_sign. destruct s as [|c s].
  - intros H. injection H as _ <-. exists []. split; [constructor | reflexivity].
  - destruct (Ascii.eqb c "-") eqn:E1.
    + intros H. injection H as _ <-. apply Ascii.eqb_eq in E1. subst.
      exists "-". split; [constructor | reflexivity].
    + destruct (Ascii.eqb c "+") eqn:E2.
      * intros H. injection H as _ <-. apply Ascii.eqb_eq in E2. subst.
        exists "+". split; [constructor | reflexivity].
      * intros H. injection H as _ <-. exists [].
        split; [constructor | reflexivity].
Qed.

Lemma scan_sign_complete (sg u : jsstring) :
  Sign sg -> head_fails is_sign_char u ->
  exists neg, scan_sign (sg ++ u) = (neg, u).
Proof.
  intros Hsg Hu. destruct Hsg; simpl.
  - destruct u as [|c u]; [exists false; reflexivity|].
    simpl in *. unfold is_sign_char in Hu.
    apply orb_false_iff in Hu. destruct Hu as [H1 H2]. rewrite H1, H2.
    exists false. reflexivity.
  - exists false. reflexivity.
  - exists true. reflexivity.
Qed.

Lemma digit_facts (c : ascii) :
  is_digit c = true ->
  is_sign_char c = false /\ Ascii.eqb c "." = false
  /\ Ascii.eqb c "e" = false /\ Ascii.eqb c "E" = false
  /\ Ascii.eqb "I" c = false.
Proof. each_char c; vm_compute; intros H; try discriminate H; auto. Qed.

Lemma DecimalDigits_head (ds rest : jsstring) :
  DecimalDigits ds ->
  exists c r, ds ++ rest = c :: r /\ is_digit c = true.
Proof.
  intros [Hne Hall]. destruct ds as [|c ds]; [contradiction|].
  simpl in Hall. apply andb_true_iff in Hall.
  exists c, (ds ++ rest). split; [reflexivity | apply Hall].
Qed.

Lemma ExponentPart_opt_head (e : jsstring) :
  ExponentPart_opt e ->
  head_fails is_digit e /\ head_fails (fun c => Ascii.eqb c ".") e.
Proof.
  intros H. destruct H as [|e sg ds [-> | ->] _ _]; simpl; auto.
Qed.

Lemma scan_exponent_sound (s : jsstring) (v : Z) :
  scan_exponent s = (v, []) -> ExponentPart_opt s.
Proof.
  unfold scan_exponent. destruct s as [|c s]; [constructor|].
  destruct (Ascii.eqb c "e" || Ascii.eqb c "E") eqn:E; [|discriminate].
  destruct (scan_sign s) as [neg s1] eqn:Es.
  destruct (span is_digit s1) as [ds s2] eqn:Ed.
  destruct ds as [|d ds]; [discriminate|].
  intros H. injection H as _ ->.
  apply scan_sign_sound in Es. destruct Es as (sg & Hsg & ->).
  apply span_eq in Ed. destruct Ed as [-> Hds]. rewrite app_nil_r.
  apply exp_some; auto.
  - apply orb_true_iff in E.
    destruct E as [E | E]; apply Ascii.eqb_eq in E; auto.
  - split; [discriminate | exact Hds].
Qed.

Lemma scan_exponent_complete (s : jsstring) :
  ExponentPart_opt s -> exists v, scan_exponent s = (v, []).
Proof.
  intros H. destruct H as [|e sg ds He Hsg [Hne Hds]].
  - exists 0%Z. reflexivity.
  - unfold scan_exponent.
    assert (Ascii.eqb e "e" || Ascii.eqb e "E" = true) as ->.
    { destruct He as [-> | ->]; reflexivity. }
    destruct (DecimalDigits_head [] (conj Hne Hds)) as (c & r & E & Hc).
    rewrite app_nil_r in E.
    destruct (@scan_sign_complete sg ds Hsg) as [neg ->].
    { subst ds. simpl. apply (digit_facts c Hc). }
    pose proof (@span_exact is_digit ds [] Hds I) as Hs.
    rewrite app_nil_r in Hs. rewrite Hs.
    subst ds. eexists. reflexivity.
Qed.

Lemma scan_unsigned_sound (neg : bool) (s : jsstring) (n : jsnumber) :
  scan_unsigned neg s = Some (n, []) -> StrUnsignedDecimalLiteral s.
Proof.
  unfold scan_unsigned.
  destruct (strip_prefix "Infinity" s) as [s'|] eqn:Ep.
  - intros H. injection H as _ ->. apply strip_prefix_eq in Ep.
    rewrite app_nil_r in Ep. subst. constructor.
  - destruct (span is_digit s) as [d1 s1] eqn:E1.
    apply span_eq in E1. destruct E1 as [-> H1].
    destruct s1 as [|c s1].
    + rewrite app_nil_r. destruct d1 as [|d d1]; [discriminate|].
      intros _. rewrite <- (app_nil_r (d :: d1)).
      apply sud_int; [split; [discriminate | exact H1] | constructor].
    + destruct (Ascii.eqb c ".") eqn:Ec.
      * apply Ascii.eqb_eq in Ec. subst c.
        destruct (span is_digit s1) as [d2 s2] eqn:E2.
        apply span_eq in E2. destruct E2 as [-> H2].
        destruct (d1 ++ d2) as [|d ds] eqn:Ed; [discriminate|].
        destruct (scan_exponent s2) as [v s3] eqn:Ee.
        intros H. injection H as _ ->.
        apply scan_exponent_sound in Ee.
        destruct d1 as [|d' d1].
        -- simpl in *. apply (@sud_dot d2 s2);
             [split; [congruence | exact H2] | exact Ee].
        -- apply (@sud_int_dot (d' :: d1) d2 s2);
             [split; [discriminate | exact H1] | exact H2 | exact Ee].
      * rewrite app_nil_r. destruct d1 as [|d d1]; [discriminate|].
        destruct (scan_exponent (c :: s1)) as [v s3] eqn:Ee.
        intros H. injection H as _ ->.
        apply scan_exponent_sound in Ee.
        apply sud_int; [split; [discriminate | exact H1] | exact Ee].
Qed.

Lemma strip_prefix_Infinity_digit (c : ascii) (s : jsstring) :
  is_digit c = true -> strip_prefix "Infinity" (c :: s) = None.
Proof.
  intros H.
  change (strip_prefix "Infinity" (c :: s))
    with (if Ascii.eqb "I" c then strip_prefix "nfinity" s else None).
  destruct (digit_facts c H) as (_ & _ & _ & _ & ->). reflexivity.
Qed.

Lemma scan_unsigned_complete (neg : bool) (s : jsstring) :
  StrUnsignedDecimalLiteral s -> exists n, scan_unsigned neg s = Some (n, []).
Proof.
  intros H. destruct H as [|i f e Hi Hf He|f e Hf He|i e Hi He].
  - eexists. reflexivity.
  - destruct (DecimalDigits_head ("." ++ f ++ e) Hi) as (c & r & E & Hc).
    unfold scan_unsigned. rewrite E, strip_prefix_Infinity_digit by assumption.
    rewrite <- E. destruct Hi as [Hne Hi].
    rewrite span_exact by (auto; reflexivity).
    cbn [app list_ascii_of_string]. rewrite Ascii.eqb_refl.
    rewrite span_exact by (auto; apply ExponentPart_opt_head; assumption).
    destruct (scan_exponent_complete He) as [v ->].
    destruct i as [|d i]; [contradiction|]. eexists. reflexivity.
  - unfold scan_unsigned. simpl.
    rewrite span_exact
      by (try apply Hf; apply ExponentPart_opt_head; assumption).
    destruct (scan_exponent_complete He) as [v ->].
    destruct Hf as [Hne Hf]. destruct f as [|d f]; [contradiction|].
    eexists. reflexivity.
  - destruct (DecimalDigits_head e Hi) as (c & r & E & Hc).
    unfold scan_unsigned. rewrite E, strip_prefix_Infinity_digit by assumption.
    rewrite <- E. destruct Hi as [Hne Hi].
    rewrite span_exact by (auto; apply ExponentPart_opt_head; assumption).
    destruct (scan_exponent_complete He) as [v Hv].
    destruct (ExponentPart_opt_head He) as [_ Hdot].
    assert (match e with
            | [] => ([], e)
            | c0 :: s1' =>
                if Ascii.eqb c0 "." then span is_digit s1' else ([], e)
            end = (@nil ascii, e)) as ->.
    { destruct e as [|c0 e]; [reflexivity|]. simpl in Hdot. rewrite Hdot.
      reflexivity. }
    rewrite Hv. rewrite app_nil_r.
    destruct i as [|d i]; [contradiction|]. eexists. reflexivity.
Qed.

Lemma StrUnsignedDecimalLiteral_head (u : jsstring) :
  StrUnsignedDecimalLiteral u -> head_fails is_sign_char u.
Proof.
  intros H. destruct H as [|i f e Hi Hf He|f e Hf He|i e Hi He].
  - reflexivity.
  - destruct (DecimalDigits_head ("." ++ f ++ e) Hi) as (c & r & -> & Hc).
    apply (digit_facts c Hc).
  - reflexivity.
  - destruct (DecimalDigits_head e Hi) as (c & r & -> & Hc).
    apply (digit_facts c Hc).
Qed.

(** The scanner reads a whole text exactly when the text is a
    [StrDecimalLiteral]. *)
Lemma StrDecimalLiteral_scan (t : jsstring) :
  StrDecimalLiteral t <-> exists n, scan_decimal t = Some (n, []).
Proof.
  unfold scan_decimal. split.
  - intros H. destruct H as [sg u Hsg Hu].
    destruct (@scan_sign_complete sg u Hsg) as [neg ->].
    { apply StrUnsignedDecimalLiteral_head. exact Hu. }
    apply scan_unsigned_complete. exact Hu.
  - intros [n H]. destruct (scan_sign t) as [neg t'] eqn:Es.
    apply scan_sign_sound in Es. destruct Es as (sg & Hsg & ->).
    apply scan_unsigned_sound in H. constructor; assumption.
Qed.

Lemma scan_decimal_not_NaN (t r : jsstring) (n : jsnumber) :
  scan_decimal t = Some (n, r) -> isNaN n = false.
Proof.
  unfold scan_decimal, scan_unsigned.
  destruct (scan_sign t) as [neg t'].
  destruct (strip_prefix "Infinity" t').
  - intros H. injection H as <- _. reflexivity.
  - destruct (span is_digit t') as [d1 s1].
    destruct (match s1 with
              | [] => ([], s1)
              | c :: s1' =>
                  if Ascii.eqb c "." then span is_digit s1' else ([], s1)
              end) as [d2 s2].
    destruct (d1 ++ d2); [discriminate|].
    destruct (scan_exponent s2). intros H. injection H as <- _. reflexivity.
Qed.

(** ** Trimming *)

Lemma trimStart_head (s : jsstring) : head_fails is_space (trimStart s).
Proof.
  induction s as [|c s IH]; simpl; [exact I|].
  destruct (is_space c) eqn:E; [exact IH | exact E].
Qed.

Lemma trimStart_fixed (s : jsstring) :
  head_fails is_space s -> trimStart s = s.
Proof. destruct s as [|c s]; simpl; [|intros ->]; reflexivity. Qed.

Lemma trimStart_suffix (s : jsstring) : exists pre, s = pre ++ trimStart s.
Proof.
  induction s as [|c s [pre IH]]; simpl; [exists []; reflexivity|].
  destruct (is_space c).
  - exists (c :: pre). simpl. congruence.
  - exists []. reflexivity.
Qed.

Lemma trimEnd_prefix (s : jsstring) : exists suf, s = trimEnd s ++ suf.
Proof.
  unfold trimEnd. destruct (trimStart_suffix (rev s)) as [pre H].
  exists (rev pre). rewrite <- rev_app_distr, <- H. symmetry.
  apply rev_involutive.
Qed.

Lemma trimStart_trimEnd (s : jsstring) :
  head_fails is_space s -> trimStart (trimEnd s) = trimEnd s.
Proof.
  intros H. apply trimStart_fixed.
  destruct (trimEnd_prefix s) as [suf E].
  destruct (trimEnd s) as [|c r]; [exact I|].
  rewrite E in H. exact H.
Qed.

Lemma trimEnd_idempotent (s : jsstring) : trimEnd (trimEnd s) = trimEnd s.
Proof.
  unfold trimEnd. rewrite rev_involutive.
  rewrite trimStart_fixed by apply trimStart_head. reflexivity.
Qed.

(** A trimmed text is left as it is by further trimming. *)
Lemma trim_idempotent (s : jsstring) : trim (trim s) = trim s.
Proof.
  unfold trim.
  rewrite trimStart_trimEnd by apply trimStart_head.
  apply trimEnd_idempotent.
Qed.

Lemma trimStart_length (s : jsstring) :
  trimStart s = s \/ length (trimStart s) < length s.
Proof.
  induction s as [|c s IH]; simpl; [auto|].
  destruct (is_space c); [|auto].
  right. destruct IH as [-> | IH]; lia.
Qed.

Lemma trim_fixed_start (s : jsstring) : trim s = s -> trimStart s = s.
Proof.
  intros H. destruct (trimStart_length s) as [E | E]; [exact E|].
  exfalso. assert (length (trim s) < length s); [|rewrite H in *; lia].
  unfold trim, trimEnd. rewrite length_rev.
  destruct (trimStart_length (rev (trimStart s))) as [-> | E2];
    rewrite ?length_rev in *; lia.
Qed.

(** ** Value coercion *)

Lemma quoted_not_bracketed (v : jsstring) :
  is_quoted v = true -> is_bracketed v = false.
Proof.
  unfold is_quoted, is_bracketed, startsWith. destruct v as [|c v]; simpl.
  - discriminate.
  - destruct (Ascii.eqb c "[") eqn:E; [|reflexivity].
    apply Ascii.eqb_eq in E. subst c. simpl. discriminate.
Qed.

(** The last step of the coercion on a text without white space around
    it that is no [0x], [0o] or [0b] literal: a number exactly when
    the whole text is a [StrDecimalLiteral]. *)
Lemma coerce_scalar_trimmed (u : jsstring) :
  trim u = u -> u <> "true" -> u <> "false" -> non_decimal u = None ->
  (StrDecimalLiteral u /\ coerce_scalar u = VNumber (parseFloat u)
   /\ isNaN (parseFloat u) = false)
  \/ (~ StrDecimalLiteral u /\ coerce_scalar u = VString u).
Proof.
  intros Htrim Ht Hf Hnd. unfold coerce_scalar.
  rewrite (str_eqb_neq Ht), (str_eqb_neq Hf).
  unfold Number, parseFloat. rewrite Htrim, (trim_fixed_start Htrim).
  assert (~ StrDecimalLiteral u \/ exists n, scan_decimal u = Some (n, []))
    as Hcases.
  { destruct (scan_decimal u) as [[n r]|] eqn:E.
    - destruct r as [|c r]; [right; exists n; reflexivity|].
      left. intros H. apply StrDecimalLiteral_scan in H.
      destruct H as [n' H]. congruence.
    - left. intros H. apply StrDecimalLiteral_scan in H.
      destruct H as [n' H]. congruence. }
  destruct Hcases as [Hno | [n E]].
  - right. split; [exact Hno|].
    destruct u as [|c u].
    + reflexivity.
    + rewrite Hnd.
      destruct (scan_decimal (c :: u)) as [[n r]|] eqn:E; [|reflexivity].
      destruct r as [|d r]; [|reflexivity].
      exfalso. apply Hno. apply StrDecimalLiteral_scan. exists n. exact E.
  - left. split; [apply StrDecimalLiteral_scan; exists n; exact E|].
    pose proof (scan_decimal_not_NaN _ E) as Hn.
    destruct u as [|c u]; [discriminate E|].
    rewrite E, Hn. auto.
Qed.

(** ** The captures the replacement functions read

    [_parseHeadings] reads [hashes.length] and [content.trim()], and
    [_parseCodeBlocks] reads [code.trim()]: in every match these
    captures are defined, so the reads cannot fail. *)

Lemma heading_groups_defined (bf af : list ascii) (m : match_result) :
  match_at patterns.heading bf af = Some m ->
  exists hashes content,
    groups m = [(2, content); (1, hashes)]
    /\ 1 <= length hashes <= 6.
Proof.
  unfold match_at. intros H.
  apply rmatch_sound in H. destruct H as (st' & caps' & M & Hk).
  injection Hk as <-. simpl in M. unfold plus in M. invert_matches.
  simpl groups. do 2 eexists. split; [reflexivity|].
  simpl in *. subst af. rewrite between_app. lia.
Qed.

Lemma codeBlock_groups_defined (bf af : list ascii) (m : match_result) :
  match_at patterns.codeBlock bf af = Some m ->
  exists code, capture 2 (groups m) = Some code.
Proof.
  unfold match_at. intros H.
  apply rmatch_sound in H. destruct H as (st' & caps' & M & Hk).
  injection Hk as <-. simpl in M. unfold plus in M. invert_matches.
  simpl groups. eexists. reflexivity.
Qed.

(** ** The model on the documented examples *)

Example parse_heading : parse (JString "# Hello") = "<h1>Hello</h1>".
Proof. vm_compute. reflexivity. Qed.

Example parse_readme :
  parse (JString ("# Hello" ++ nl ++ nl ++ "This is **bold** text."))
  = "<h1>Hello</h1>" ++ nl ++ nl ++ "<p>This is <strong>bold</strong> text.</p>".
Proof. vm_compute. reflexivity. Qed.

Example parse_rule_not_wrapped :
  parse (JString ("above" ++ nl ++ nl ++ "---" ++ nl ++ nl ++ "below"))
  = "<p>above</p>" ++ nl ++ nl ++ "<hr />" ++ nl ++ nl ++ "<p>below</p>".
Proof. vm_compute. reflexivity. Qed.

Example parse_link_and_image :
  parse (JString "![logo](a.png) and [home](/)")
  = "<img src=" ++ patterns.q ++ "a.png" ++ patterns.q ++ " alt="
    ++ patterns.q ++ "logo" ++ patterns.q ++ " /> and <a href="
    ++ patterns.q ++ "/" ++ patterns.q ++ ">home</a>".
Proof. vm_compute. reflexivity. Qed.

Example parseDocument_round_trip :
  parseDocument
    (JString
       ("---" ++ nl
        ++ "title: " ++ patterns.q ++ "My Post" ++ patterns.q ++ nl
        ++ "tags: [" ++ patterns.q ++ "a" ++ patterns.q ++ ", "
        ++ patterns.q ++ "b" ++ patterns.q ++ "]" ++ nl
        ++ "featured: true" ++ nl
        ++ "---" ++ nl
        ++ "# Hi"))
  = mkDocument
      [("title" : jsstring, VString "My Post");
       ("tags" : jsstring, VArray ["a" : jsstring; "b" : jsstring]);
       ("featured" : jsstring, VBoolean true)]
      "<h1>Hi</h1>" "# Hi".
Proof. vm_compute. reflexivity. Qed.

(** * The claims *)

(** C1, as amended.  A value wrapped in double or in single quotes is
    unwrapped, and the unwrapped text then takes the same last step as
    an unquoted value: [true] and [false] become booleans, and a text
    without white space around it (no [0x], [0o] or [0b] literal)
    becomes a number when it is a decimal numeric string and stays the
    unwrapped plain string when it is not. *)
Theorem quoted_value_coercion (v : jsstring) :
  is_quoted v = true ->
  parse_value v = coerce_scalar (slice_1_m1 v)
  /\ (slice_1_m1 v = "true" -> parse_value v = VBoolean true)
  /\ (slice_1_m1 v = "false" -> parse_value v = VBoolean false)
  /\ (trim (slice_1_m1 v) = slice_1_m1 v ->
      slice_1_m1 v <> "true" -> slice_1_m1 v <> "false" ->
      non_decimal (slice_1_m1 v) = None ->
      (StrDecimalLiteral (slice_1_m1 v)
       /\ parse_value v = VNumber (parseFloat (slice_1_m1 v))
       /\ isNaN (parseFloat (slice_1_m1 v)) = false)
      \/ (~ StrDecimalLiteral (slice_1_m1 v)
          /\ parse_value v = VString (slice_1_m1 v))).
Proof.
  intros Hq.
  assert (parse_value v = coerce_scalar (slice_1_m1 v)) as Hpv.
  { unfold parse_value. rewrite (quoted_not_bracketed v Hq), Hq. reflexivity. }
  rewrite Hpv. repeat split.
  - intros ->. reflexivity.
  - intros ->. reflexivity.
  - apply coerce_scalar_trimmed.
Qed.

Lemma quoted_value_coercion_witness :
  parse_value (patterns.q ++ "My Post" ++ patterns.q) = VString "My Post"
  /\ parse_value ("'42'") = VNumber (Finite false 42 0).
Proof.
  split.
  - destruct (@quoted_value_coercion (patterns.q ++ "My Post" ++ patterns.q)
                eq_refl) as (_ & _ & _ & H).
    destruct H as [(_ & H & _) | (_ & H)];
      try reflexivity; try discriminate; exact H.
  - destruct (@quoted_value_coercion "'42'" eq_refl) as (_ & _ & _ & H).
    destruct H as [(_ & H & _) | (_ & H)];
      try reflexivity; try discriminate; exact H.
Defined.

(** C1, the claim as stated fails: the quoted values [true], [false]
    and [42] come out as booleans and a number. *)
Lemma quoted_claim_fails :
  is_quoted (patterns.q ++ "true" ++ patterns.q) = true
  /\ is_bracketed (patterns.q ++ "true" ++ patterns.q) = false
  /\ parse_value (patterns.q ++ "true" ++ patterns.q) <> VString "true"
  /\ parse_value (patterns.q ++ "true" ++ patterns.q) = VBoolean true
  /\ parse_value (patterns.q ++ "false" ++ patterns.q) = VBoolean false
  /\ parse_value (patterns.q ++ "42" ++ patterns.q)
     = VNumber (Finite false 42 0)
  /\ obj_get
       (_parseFrontmatter
          ("draft: " ++ patterns.q ++ "true" ++ patterns.q ++ nl
           ++ "year: " ++ patterns.q ++ "42" ++ patterns.q))
       "draft" = Some (VBoolean true).
Proof. repeat split; vm_compute; (reflexivity || discriminate). Qed.

(** C2, as amended.  A trimmed raw value that is not in brackets, not
    in quotes, not [true], not [false] and no [0x], [0o] or [0b]
    literal is coerced to a number exactly when the entire raw value
    is a decimal numeric string, [Infinity] with an optional sign
    included; otherwise it stays the raw string. *)
Theorem number_coercion (raw : jsstring) :
  trim raw = raw -> is_bracketed raw = false -> is_quoted raw = false ->
  raw <> "true" -> raw <> "false" -> non_decimal raw = None ->
  (StrDecimalLiteral raw /\ parse_value raw = VNumber (parseFloat raw)
   /\ isNaN (parseFloat raw) = false)
  \/ (~ StrDecimalLiteral raw /\ parse_value raw = VString raw).
Proof.
  intros Htrim Hb Hq Ht Hf Hnd.
  assert (parse_value raw = coerce_scalar raw) as ->.
  { unfold parse_value. rewrite Hb, Hq. reflexivity. }
  apply coerce_scalar_trimmed; assumption.
Qed.

Lemma number_coercion_witness :
  parse_value "-12.5e3" = VNumber (Finite true 125 2)
  /\ parse_value "12abc" = VString "12abc"
  /\ parse_value "-Infinity" = VNumber (Infinite true).
Proof.
  split; [|split].
  - destruct (@number_coercion "-12.5e3") as [(_ & H & _) | (_ & H)];
      try reflexivity; try discriminate; exact H.
  - destruct (@number_coercion "12abc") as [(_ & H & _) | (_ & H)];
      try reflexivity; try discriminate; exact H.
  - destruct (@number_coercion "-Infinity") as [(_ & H & _) | (_ & H)];
      try reflexivity; try discriminate; exact H.
Defined.

(** C2, the claim as stated fails: the raw value [Infinity], which is
    no finite decimal number, is coerced to a number, and so is the
    hexadecimal form [0x10]. *)
Lemma number_claim_fails :
  is_quoted "Infinity" = false /\ is_bracketed "Infinity" = false
  /\ ~ finite_decimal "Infinity"
  /\ parse_value "Infinity" <> VString "Infinity"
  /\ parse_value "Infinity" = VNumber (Infinite false)
  /\ parse_value "0x10" <> VString "0x10"
  /\ parse_value "0x10" = VNumber (Finite false 0 0)
  /\ obj_get (_parseFrontmatter "limit: Infinity") "limit"
     = Some (VNumber (Infinite false)).
Proof.
  repeat split; try (vm_compute; (reflexivity || discriminate)).
  intros [_ H]. apply (H []). reflexivity.
Qed.

(** C3, as amended.  [parseDocument] finds a frontmatter block exactly
    when the document starts with [---], a line break (LF or CR LF), any
    text (possibly none), a line break and [---]; whatever follows the
    second [---] is free.  A document of another shape is passed on
    whole, with an empty frontmatter. *)
Theorem frontmatter_recognized_iff (s : jsstring) :
  ((exists m, String_match s patterns.frontmatter = Some m)
   <-> frontmatter_shape s)
  /\ (~ frontmatter_shape s ->
      parseDocument (JString s) = mkDocument [] (parse (JString s)) s).
Proof.
  assert ((exists m, String_match s patterns.frontmatter = Some m)
          <-> frontmatter_shape s) as Hiff.
  { rewrite String_match_frontmatter. split.
    - intros [m H]. eapply frontmatter_match_shape. exact H.
    - intros H. apply frontmatter_shape_match in H.
      destruct (match_at patterns.frontmatter [] s) as [m|];
        [exists m; reflexivity | contradiction]. }
  split; [exact Hiff|].
  intros Hno. destruct s as [|c s]; [reflexivity|].
  unfold parseDocument.
  destruct (String_match (c :: s) patterns.frontmatter) as [m|] eqn:E.
  - exfalso. apply Hno. apply Hiff. exists m. reflexivity.
  - reflexivity.
Qed.

(** C3, the claim as stated fails twice.  With no line between the two
    [---] lines nothing is recognized and the document is rendered
    whole; with text after the second [---] on its line the block is
    recognized all the same. *)
Lemma frontmatter_claim_fails :
  parseDocument (JString ("---" ++ nl ++ "---" ++ nl ++ "# Hi"))
  = mkDocument []
      ("<hr />" ++ nl ++ "<hr />" ++ nl ++ "<h1>Hi</h1>")
      ("---" ++ nl ++ "---" ++ nl ++ "# Hi")
  /\ String_match ("---" ++ nl ++ "---") patterns.frontmatter = None
  /\ String_match ("---" ++ nl ++ "a: 1" ++ nl ++ "---x") patterns.frontmatter
     <> None
  /\ parseDocument (JString ("---" ++ nl ++ "a: 1" ++ nl ++ "---x"))
     = mkDocument [("a" : jsstring, VNumber (Finite false 1 0))] "<p>x</p>" "x".
Proof. repeat split; vm_compute; (reflexivity || discriminate). Qed.

(** C4, the code at the failing input.  [\s+] in [patterns.heading]
    also matches a line terminator, so a line that holds only [#] takes
    the text of the next line as its heading. *)
Theorem heading_takes_next_line :
  _parseHeadings ("#" ++ nl ++ "Hello") = "<h1>Hello</h1>"
  /\ parse (JString ("#" ++ nl ++ "Hello")) = "<h1>Hello</h1>"
  /\ parse (JString ("#" ++ nl ++ nl ++ "Hello")) = "<h1>Hello</h1>".
Proof. repeat split; vm_compute; reflexivity. Qed.

(** C5.  [parse("# **Bold** heading")] is
    [<h1><strong>Bold</strong> heading</h1>]: the heading pass wraps
    the line, the bold pass then rewrites inside it, and the paragraph
    pass leaves the block, which starts with [<] and ends with [>],
    unwrapped. *)
Theorem parse_bold_heading :
  parse (JString "# **Bold** heading") = "<h1><strong>Bold</strong> heading</h1>"
  /\ _parseHeadings "# **Bold** heading" = "<h1>**Bold** heading</h1>"
  /\ _parseBold "<h1>**Bold** heading</h1>"
     = "<h1><strong>Bold</strong> heading</h1>"
  /\ _parseParagraphs "<h1><strong>Bold</strong> heading</h1>"
     = "<h1><strong>Bold</strong> heading</h1>".
Proof. repeat split; vm_compute; reflexivity. Qed.

(** C7.  For every value that is not a string, [undefined] and [null]
    among them, [parseDocument] returns the document with an empty
    frontmatter, empty content and empty raw content, and [parse]
    returns the empty string.  Both are total functions: no input makes
    them fail. *)
Theorem fallback_on_non_strings (v : jsval) :
  ~ is_string v ->
  parseDocument v = mkDocument [] [] [] /\ parse v = [].
Proof.
  intros H. destruct v; simpl in *; auto. contradiction.
Qed.

Lemma fallback_on_non_strings_witness :
  (parseDocument JNull = mkDocument [] [] [] /\ parse JNull = [])
  /\ (parseDocument JUndefined = mkDocument [] [] [] /\ parse JUndefined = [])
  /\ (parseDocument (JNumber (Finite false 42 0)) = mkDocument [] [] []
      /\ parse (JNumber (Finite false 42 0)) = []).
Proof.
  split; [|split].
  - apply (fallback_on_non_strings JNull). simpl. exact (fun H => H).
  - apply (fallback_on_non_strings JUndefined). simpl. exact (fun H => H).
  - apply (fallback_on_non_strings (JNumber (Finite false 42 0))).
    simpl. exact (fun H => H).
Defined.

(** C8.  [createSlug] lowercases and trims its input, removes every
    character that is not a letter, a digit, an underscore, white space
    or a hyphen, collapses every run of white space, underscores and
    hyphens into one hyphen, and strips the leading and the trailing
    hyphens ([slugify] is that reading, step by step); and the two
    examples have their stated values. *)
Theorem createSlug_meets_its_description :
  (forall text, createSlug text = slugify text)
  /\ createSlug "Hello, World! 2025" = "hello-world-2025"
  /\ createSlug "  --multiple---hyphens--  " = "multiple-hyphens".
Proof.
  split; [exact createSlug_slugify|].
  split; vm_compute; reflexivity.
Qed.

(** C9.  For every string, the [content] of [parseDocument] is [parse]
    of its [rawContent]. *)
Theorem content_is_parse_of_rawContent (s : jsstring) :
  content (parseDocument (JString s))
  = parse (JString (rawContent (parseDocument (JString s)))).
Proof.
  destruct s as [|c s]; [reflexivity|].
  unfold parseDocument.
  destruct (String_match (c :: s) patterns.frontmatter); reflexivity.
Qed.

(** C10.  [createSlug] is idempotent on every string, and its output
    has the shape of a slug: lower-case letters, digits and hyphens,
    with no hyphen next to another and none at either end. *)
Theorem createSlug_idempotent (s : jsstring) :
  createSlug (createSlug s) = createSlug s /\ slug_shape (createSlug s).
Proof.
  rewrite !createSlug_slugify. split.
  - apply slugify_fixed. apply slugify_invariant.
  - apply slug_invariant_shape. apply slugify_invariant.
Qed.

(** * Further properties of the code *)

(** ** Replacement around the places where a pattern can start *)

Section ReplaceLemmas.

Variable re : RegExp.
Variable f : replacer.
Variable trig : ascii -> bool.

Hypothesis no_start :
  forall bf af, head_fails trig af -> match_at re bf af = None.

Lemma replace_all_prefix (a : jsstring) :
  forall rest bf,
    forallb (fun c => negb (trig c)) a = true ->
    replace_all re f bf (a ++ rest) 0
    = a ++ replace_all re f (rev a ++ bf) rest 0.
Proof.
  induction a as [|c a IH]; intros rest bf Ha; [reflexivity|].
  simpl in Ha. apply andb_true_iff in Ha. destruct Ha as [Hc Ha].
  apply negb_true_iff in Hc.
  simpl app. unfold replace_all; fold replace_all.
  rewrite no_start by exact Hc.
  rewrite IH by exact Ha. simpl rev. rewrite <- app_assoc. reflexivity.
Qed.

Lemma replace_all_untouched (s : jsstring) (bf : list ascii) :
  forallb (fun c => negb (trig c)) s = true ->
  replace_all re f bf s 0 = s.
Proof.
  intros Hs. rewrite <- (app_nil_r s) at 1.
  rewrite replace_all_prefix by exact Hs.
  simpl. rewrite no_start by exact I. apply app_nil_r.
Qed.

Lemma replace_all_skip (m : jsstring) :
  forall rest bf,
    replace_all re f bf (m ++ rest) (length m)
    = replace_all re f (rev m ++ bf) rest 0.
Proof.
  induction m as [|c m IH]; intros rest bf; [reflexivity|].
  simpl length. simpl app. unfold replace_all; fold replace_all.
  rewrite IH. simpl rev. rewrite <- app_assoc. reflexivity.
Qed.

Lemma replace_all_one (m rest : jsstring) (bf : list ascii) (caps : captures) :
  m <> [] ->
  match_at re bf (m ++ rest) = Some (mkMatch m rest caps) ->
  replace_all re f bf (m ++ rest) 0
  = f m caps ++ replace_all re f (rev m ++ bf) rest 0.
Proof.
  intros Hne Hm. destruct m as [|c m]; [contradiction|].
  simpl app in *. unfold replace_all; fold replace_all. rewrite Hm.
  cbn [matched groups length]. f_equal.
  rewrite (replace_all_skip m rest (c :: bf)).
  simpl rev. rewrite <- app_assoc. reflexivity.
Qed.

(** One match between two texts in which the pattern cannot start. *)
Lemma replace_all_in_context (a m c : jsstring) (caps : captures) :
  forallb (fun x => negb (trig x)) a = true ->
  forallb (fun x => negb (trig x)) c = true ->
  m <> [] ->
  match_at re (rev a) (m ++ c) = Some (mkMatch m c caps) ->
  replace_all re f [] (a ++ m ++ c) 0 = a ++ f m caps ++ c.
Proof.
  intros Ha Hc Hne Hm.
  rewrite replace_all_prefix by exact Ha. rewrite app_nil_r.
  erewrite replace_all_one; [|exact Hne|exact Hm].
  rewrite replace_all_untouched by exact Hc. reflexivity.
Qed.

End ReplaceLemmas.

Lemma replace_all_never (re : RegExp) (f : replacer) (q : ascii -> bool)
    (s : jsstring) :
  (forall bf af, forallb q af = true -> match_at re bf af = None) ->
  forall bf, forallb q s = true -> replace_all re f bf s 0 = s.
Proof.
  intros Hno. induction s as [|c s IH]; intros bf Hs.
  - simpl. rewrite Hno by reflexivity. reflexivity.
  - unfold replace_all; fold replace_all. rewrite Hno by exact Hs.
    simpl in Hs. apply andb_true_iff in Hs. destruct Hs as [_ Hs].
    rewrite IH by exact Hs. reflexivity.
Qed.

Lemma split_from_never (re : RegExp) (q : ascii -> bool) (af : jsstring) :
  (forall bf af', forallb q af' = true -> match_at re bf af' = None) ->
  forall cur bf,
    forallb q af = true -> split_from re cur bf af 0 = [rev cur ++ af].
Proof.
  intros Hno. induction af as [|c af IH]; intros cur bf Hs.
  - simpl. rewrite app_nil_r. reflexivity.
  - unfold split_from; fold split_from. rewrite Hno by exact Hs.
    simpl in Hs. apply andb_true_iff in Hs. destruct Hs as [_ Hs].
    rewrite IH by exact Hs. simpl rev. rewrite <- app_assoc. reflexivity.
Qed.

(** ** Where the patterns of the table can start *)

Ltac head_char H :=
  match type of H with
  | forallb _ ?af = true =>
      destruct af as [|? ?];
      [unfold match_at; simpl; try destruct (at_bol _ _); reflexivity|];
      simpl in H; apply andb_true_iff in H; destruct H as [H ?];
      unfold not_char in H; apply negb_true_iff in H
  end.

Lemma heading_needs_hash (bf af : list ascii) :
  forallb (not_char "#") af = true -> match_at patterns.heading bf af = None.
Proof.
  intros H. head_char H. unfold match_at. simpl. unfold is_char. rewrite H.
  destruct (at_bol true (bf, a :: af)); reflexivity.
Qed.

Lemma image_needs_bracket (bf af : list ascii) :
  forallb (not_char "[") af = true -> match_at patterns.image bf af = None.
Proof.
  intros H. head_char H. unfold match_at. simpl. unfold is_char.
  destruct (Ascii.eqb a "!"); [|reflexivity].
  match goal with H' : forallb _ af = true |- _ => rename H' into H2 end.
  destruct af as [|b af]; [reflexivity|].
  simpl in H2. apply andb_true_iff in H2. destruct H2 as [H2 _].
  unfold not_char in H2. apply negb_true_iff in H2. rewrite H2. reflexivity.
Qed.

Lemma link_needs_bracket (bf af : list ascii) :
  forallb (not_char "[") af = true -> match_at patterns.link bf af = None.
Proof.
  intros H. head_char H. unfold match_at. simpl. unfold is_char. rewrite H.
  reflexivity.
Qed.

Lemma codeBlock_needs_backtick (bf af : list ascii) :
  forallb (not_char "`") af = true -> match_at patterns.codeBlock bf af = None.
Proof.
  intros H. head_char H. unfold match_at. simpl. unfold is_char. rewrite H.
  reflexivity.
Qed.

Lemma inlineCode_needs_backtick (bf af : list ascii) :
  forallb (not_char "`") af = true -> match_at patterns.inlineCode bf af = None.
Proof.
  intros H. head_char H. unfold match_at. simpl. unfold is_char. rewrite H.
  reflexivity.
Qed.

Lemma bold_needs_star (bf af : list ascii) :
  forallb (not_char "*") af = true -> match_at patterns.bold bf af = None.
Proof.
  intros H. head_char H. unfold match_at. simpl. unfold is_char. rewrite H.
  reflexivity.
Qed.

Lemma italic_needs_underscore (bf af : list ascii) :
  forallb (not_char "_") af = true -> match_at patterns.italic bf af = None.
Proof.
  intros H. head_char H. unfold match_at. simpl. unfold is_char. rewrite H.
  reflexivity.
Qed.

Lemma horizontalRule_needs_hyphen (bf af : list ascii) :
  forallb (not_char "-") af = true ->
  match_at patterns.horizontalRule bf af = None.
Proof.
  intros H. head_char H. unfold match_at. simpl. unfold is_char. rewrite H.
  destruct (at_bol true (bf, a :: af)); reflexivity.
Qed.

Lemma String_replace_never (re : RegExp) (f : replacer) (q : ascii -> bool)
    (text : jsstring) :
  global re = true ->
  (forall bf af, forallb q af = true -> match_at re bf af = None) ->
  forallb q text = true -> String_replace text re f = text.
Proof.
  intros Hg Hno H. unfold String_replace. rewrite Hg.
  apply (replace_all_never re f q text Hno [] H).
Qed.

Lemma _parseHeadings_plain (text : jsstring) :
  forallb (not_char "#") text = true -> _parseHeadings text = text.
Proof.
  apply String_replace_never; [reflexivity | exact heading_needs_hash].
Qed.

Lemma _parseImages_plain (text : jsstring) :
  forallb (not_char "[") text = true -> _parseImages text = text.
Proof.
  apply String_replace_never; [reflexivity | exact image_needs_bracket].
Qed.

Lemma _parseLinks_plain (text : jsstring) :
  forallb (not_char "[") text = true -> _parseLinks text = text.
Proof.
  apply String_replace_never; [reflexivity | exact link_needs_bracket].
Qed.

Lemma _parseCodeBlocks_plain (text : jsstring) :
  forallb (not_char "`") text = true -> _parseCodeBlocks text = text.
Proof.
  apply String_replace_never; [reflexivity | exact codeBlock_needs_backtick].
Qed.

Lemma _parseInlineCode_plain (text : jsstring) :
  forallb (not_char "`") text = true -> _parseInlineCode text = text.
Proof.
  apply String_replace_never; [reflexivity | exact inlineCode_needs_backtick].
Qed.

Lemma _parseBold_plain (text : jsstring) :
  forallb (not_char "*") text = true -> _parseBold text = text.
Proof.
  apply String_replace_never; [reflexivity | exact bold_needs_star].
Qed.

Lemma _parseItalic_plain (text : jsstring) :
  forallb (not_char "_") text = true -> _parseItalic text = text.
Proof.
  apply String_replace_never; [reflexivity | exact italic_needs_underscore].
Qed.

Lemma _parseHorizontalRules_plain (text : jsstring) :
  forallb (not_char "-") text = true -> _parseHorizontalRules text = text.
Proof.
  apply String_replace_never; [reflexivity | exact horizontalRule_needs_hyphen].
Qed.

(** X1.  Every rewrite pass leaves a text unchanged when the text lacks
    the character the pass's pattern has to start with: [#] for
    headings, [[] for images and links, a backtick for code blocks and
    inline code, [*] for bold, [_] for italic and [-] for horizontal
    rules. *)
Theorem passes_leave_plain_text (text : jsstring) :
  (forallb (not_char "#") text = true -> _parseHeadings text = text)
  /\ (forallb (not_char "[") text = true ->
      _parseImages text = text /\ _parseLinks text = text)
  /\ (forallb (not_char "`") text = true ->
      _parseCodeBlocks text = text /\ _parseInlineCode text = text)
  /\ (forallb (not_char "*") text = true -> _parseBold text = text)
  /\ (forallb (not_char "_") text = true -> _parseItalic text = text)
  /\ (forallb (not_char "-") text = true -> _parseHorizontalRules text = text).
Proof.
  repeat split; intros;
    first [ apply _parseHeadings_plain | apply _parseImages_plain
          | apply _parseLinks_plain | apply _parseCodeBlocks_plain
          | apply _parseInlineCode_plain | apply _parseBold_plain
          | apply _parseItalic_plain | apply _parseHorizontalRules_plain ];
    assumption.
Qed.

Lemma passes_leave_plain_text_witness :
  _parseBold "2 + 2 = 4, a_b" = "2 + 2 = 4, a_b"
  /\ _parseItalic "2 * 3" = "2 * 3".
Proof.
  split.
  - destruct (passes_leave_plain_text "2 + 2 = 4, a_b")
      as (_ & _ & _ & H & _).
    exact (H eq_refl).
  - destruct (passes_leave_plain_text "2 * 3") as (_ & _ & _ & _ & H & _).
    exact (H eq_refl).
Defined.

(** ** Plain text through the whole pipeline *)

Lemma trim_fixed (s : jsstring) :
  head_fails is_space s -> head_fails is_space (rev s) -> trim s = s.
Proof.
  intros H1 H2. unfold trim, trimEnd.
  rewrite (trimStart_fixed s H1), (trimStart_fixed (rev s) H2).
  apply rev_involutive.
Qed.

Lemma trim_wrap_block (text : jsstring) : trim (wrap_block text) = wrap_block text.
Proof.
  unfold wrap_block. cbv zeta. destruct (is_empty (trim text)); [reflexivity|].
  destruct (startsWith (trim text) "<" && endsWith (trim text) ">").
  - apply trim_idempotent.
  - apply trim_fixed; [reflexivity|].
    rewrite !rev_app_distr. reflexivity.
Qed.

Lemma split_needs_line_feed (bf af : list ascii) :
  forallb (not_char LF) af = true ->
  match_at
    (mkRegExp (Char (is_char LF) +> star is_space +> Char (is_char LF))
       false false) bf af = None.
Proof.
  intros H. head_char H. unfold match_at. simpl. unfold is_char. rewrite H.
  reflexivity.
Qed.

Lemma _parseParagraphs_one_block (text : jsstring) :
  forallb (not_char LF) text = true -> _parseParagraphs text = wrap_block text.
Proof.
  intros H. unfold _parseParagraphs. cbv zeta.
  assert (String_split text
            (mkRegExp (Char (is_char LF) +> star is_space +> Char (is_char LF))
               false false) = [text]) as ->.
  { destruct text as [|c text]; [reflexivity|].
    unfold String_split.
    apply (split_from_never _ (not_char LF) (c :: text)
             split_needs_line_feed [] [] H). }
  change (join [LF; LF]
            (filter (fun p => negb (is_empty p)) [wrap_block text])
          = wrap_block text).
  generalize (wrap_block text). intros w. destruct w; reflexivity.
Qed.

Lemma forallb_weaken (p q : ascii -> bool) (s : jsstring) :
  (forall c, p c = true -> q c = true) ->
  forallb p s = true -> forallb q s = true.
Proof.
  intros Hpq. induction s as [|c s IH]; simpl; [reflexivity|].
  intros H. apply andb_true_iff in H. destruct H as [Hc Hs].
  rewrite (Hpq c Hc), (IH Hs). reflexivity.
Qed.

Lemma not_markup (c : ascii) :
  negb (is_markup c) = true ->
  not_char "#" c = true /\ not_char "[" c = true /\ not_char "`" c = true
  /\ not_char "*" c = true /\ not_char "_" c = true /\ not_char "-" c = true
  /\ not_char LF c = true.
Proof.
  unfold is_markup, not_char, is_char. intros H. apply negb_true_iff in H.
  repeat (apply orb_false_iff in H; destruct H as [H ?]).
  repeat split; apply negb_true_iff; assumption.
Qed.

(** X2.  A text without [#], [[], backtick, [*], [_], [-] and line feed
    comes out of [parse] as one paragraph: [<p>], the trimmed text,
    [</p>]; it comes out empty when it is blank, and trimmed but
    unwrapped when it starts with [<] and ends with [>]. *)
Theorem parse_plain_text (text : jsstring) :
  forallb (fun c => negb (is_markup c)) text = true ->
  parse (JString text) = wrap_block text.
Proof.
  intros H. destruct text as [|c0 text0] eqn:E; [reflexivity|].
  rewrite <- E in *. assert (parse (JString text) = pipeline text) as ->.
  { rewrite E. reflexivity. }
  clear E. unfold pipeline. cbv zeta.
  assert (forall x, (forall c, negb (is_markup c) = true -> not_char x c = true)
                    -> forallb (not_char x) text = true) as Hx.
  { intros x Himp. eapply forallb_weaken; [exact Himp | exact H]. }
  rewrite _parseHeadings_plain, _parseImages_plain, _parseLinks_plain,
    _parseCodeBlocks_plain, _parseInlineCode_plain, _parseBold_plain,
    _parseItalic_plain, _parseHorizontalRules_plain
    by (apply Hx; intros c Hc; apply (not_markup c Hc)).
  rewrite _parseParagraphs_one_block
    by (apply Hx; intros c Hc; apply (not_markup c Hc)).
  apply trim_wrap_block.
Qed.

Lemma parse_plain_text_witness :
  parse (JString "  Hello, world!  ") = "<p>Hello, world!</p>"
  /\ parse (JString "<b>raw</b>") = "<b>raw</b>".
Proof.
  split.
  - rewrite (@parse_plain_text "  Hello, world!  " eq_refl). reflexivity.
  - rewrite (@parse_plain_text "<b>raw</b>" eq_refl). reflexivity.
Defined.

(** ** One inline element between plain texts *)

Ltac head_fails_char H :=
  match type of H with
  | head_fails _ ?af =>
      destruct af as [|? ?]; [reflexivity|];
      simpl in H; unfold match_at; simpl; unfold is_char in *; rewrite H;
      reflexivity
  end.

Lemma bold_starts_with_star (bf af : list ascii) :
  head_fails (is_char "*") af -> match_at patterns.bold bf af = None.
Proof. intros H. head_fails_char H. Qed.

Lemma italic_starts_with_underscore (bf af : list ascii) :
  head_fails (is_char "_") af -> match_at patterns.italic bf af = None.
Proof. intros H. head_fails_char H. Qed.

Lemma link_starts_with_bracket (bf af : list ascii) :
  head_fails (is_char "[") af -> match_at patterns.link bf af = None.
Proof. intros H. head_fails_char H. Qed.

Lemma image_starts_with_bang (bf af : list ascii) :
  head_fails (is_char "!") af -> match_at patterns.image bf af = None.
Proof. intros H. head_fails_char H. Qed.

Lemma inlineCode_starts_with_backtick (bf af : list ascii) :
  head_fails (is_char "`") af -> match_at patterns.inlineCode bf af = None.
Proof. intros H. head_fails_char H. Qed.

Lemma head_fails_app (p : ascii -> bool) (s t : jsstring) :
  forallb (fun c => negb (p c)) s = true -> head_fails p t ->
  head_fails p (s ++ t).
Proof.
  destruct s as [|c s]; simpl; [auto|].
  intros H _. apply andb_true_iff in H. destruct H as [H _].
  apply negb_true_iff. exact H.
Qed.

(** The lazy [(.*?)] in front of a closing delimiter that starts with
    the code unit [a]: it takes a text without [a] whole. *)
Lemma lazy_until_delimiter (R : Type) (a : ascii) (x post : jsstring)
    (bf : list ascii) (k : position -> option R) (r : R) :
  forallb is_dot x = true -> forallb (not_char a) x = true ->
  (forall bf' d af, not_char a d = true -> k (bf', d :: af) = None) ->
  k (rev x ++ bf, post) = Some r ->
  rep_lazy is_dot 0 None bf (x ++ post) k = Some r.
Proof.
  intros Hdot Hx Hk Hend. apply rep_lazy_first; auto.
  intros pre1 pre2 E Hne. subst x. apply forallb_app_r in Hx.
  destruct pre2 as [|d pre2]; [contradiction|].
  simpl in Hx. apply andb_true_iff in Hx. destruct Hx as [Hd _].
  apply Hk. exact Hd.
Qed.

Lemma between_eq (bf bf' whole m c : list ascii) :
  whole = m ++ c -> between (bf, whole) (bf', c) = m.
Proof. intros ->. apply between_app. Qed.

Ltac list_eq := repeat (simpl; rewrite <- app_assoc); simpl; reflexivity.

Lemma match_at_bold (x c : jsstring) (bf : list ascii) :
  forallb is_dot x = true -> forallb (not_char "*") x = true ->
  match_at patterns.bold bf ("**" ++ x ++ "**" ++ c)
  = Some (mkMatch ("**" ++ x ++ "**") c [(1, x)]).
Proof.
  intros Hdot Hx. unfold match_at. simpl.
  apply lazy_until_delimiter with (a := "*"%char); auto.
  - intros bf' d af Hd. simpl. unfold not_char in Hd.
    apply negb_true_iff in Hd. unfold is_char. rewrite Hd. reflexivity.
  - simpl. rewrite between_app.
    rewrite (@between_eq _ _ _ ("**" ++ x ++ "**") c) by list_eq.
    reflexivity.
Qed.

Lemma match_at_italic (x c : jsstring) (bf : list ascii) :
  forallb is_dot x = true -> forallb (not_char "_") x = true ->
  match_at patterns.italic bf ("_" ++ x ++ "_" ++ c)
  = Some (mkMatch ("_" ++ x ++ "_") c [(1, x)]).
Proof.
  intros Hdot Hx. unfold match_at. simpl.
  apply lazy_until_delimiter with (a := "_"%char); auto.
  - intros bf' d af Hd. simpl. unfold not_char in Hd.
    apply negb_true_iff in Hd. unfold is_char. rewrite Hd. reflexivity.
  - simpl. rewrite between_app.
    rewrite (@between_eq _ _ _ ("_" ++ x ++ "_") c) by list_eq.
    reflexivity.
Qed.

Lemma String_replace_in_context (re : RegExp) (f : replacer)
    (trig : ascii -> bool) (a m c : jsstring) (caps : captures) :
  global re = true ->
  (forall bf af, head_fails trig af -> match_at re bf af = None) ->
  forallb (fun x => negb (trig x)) a = true ->
  forallb (fun x => negb (trig x)) c = true ->
  m <> [] ->
  match_at re (rev a) (m ++ c) = Some (mkMatch m c caps) ->
  String_replace (a ++ m ++ c) re f = a ++ f m caps ++ c.
Proof.
  intros Hg Hno Ha Hc Hne Hm. unfold String_replace. rewrite Hg.
  eapply replace_all_in_context; eassumption.
Qed.

(** X3.  Between two texts without [*], a text without [*] and
    without line terminator that stands between [**] and [**] is put
    between [<strong>] and [</strong>], and the texts around it are
    kept. *)
Theorem bold_in_plain_context (a x c : jsstring) :
  forallb (not_char "*") a = true -> forallb (not_char "*") c = true ->
  forallb (not_char "*") x = true -> forallb is_dot x = true ->
  _parseBold (a ++ "**" ++ x ++ "**" ++ c)
  = a ++ "<strong>" ++ x ++ "</strong>" ++ c.
Proof.
  intros Ha Hc Hx Hdot. unfold _parseBold.
  replace (a ++ "**" ++ x ++ "**" ++ c) with (a ++ ("**" ++ x ++ "**") ++ c)
    by (f_equal; list_eq).
  rewrite (@String_replace_in_context patterns.bold _ (is_char "*")
             a ("**" ++ x ++ "**") c [(1, x)]); auto.
  - f_equal. unfold expand. simpl. rewrite <- app_assoc. reflexivity.
  - exact bold_starts_with_star.
  - discriminate.
  - replace (("**" ++ x ++ "**") ++ c) with ("**" ++ x ++ "**" ++ c)
      by list_eq.
    apply match_at_bold; assumption.
Qed.

Lemma bold_in_plain_context_witness :
  _parseBold "This is **bold** text."
  = "This is " ++ "<strong>" ++ "bold" ++ "</strong>" ++ " text.".
Proof.
  exact (@bold_in_plain_context "This is " "bold" " text."
           eq_refl eq_refl eq_refl eq_refl).
Defined.

(** X4.  Between two texts without [_], a text without [_] and
    without line terminator that stands between two [_] is put between
    [<em>] and [</em>]; the pass does not look at what stands around
    the underscores, so the middle of [snake_case_identifier] is
    emphasised as well. *)
Theorem italic_in_plain_context (a x c : jsstring) :
  forallb (not_char "_") a = true -> forallb (not_char "_") c = true ->
  forallb (not_char "_") x = true -> forallb is_dot x = true ->
  _parseItalic (a ++ "_" ++ x ++ "_" ++ c) = a ++ "<em>" ++ x ++ "</em>" ++ c.
Proof.
  intros Ha Hc Hx Hdot. unfold _parseItalic.
  replace (a ++ "_" ++ x ++ "_" ++ c) with (a ++ ("_" ++ x ++ "_") ++ c)
    by (f_equal; list_eq).
  rewrite (@String_replace_in_context patterns.italic _ (is_char "_")
             a ("_" ++ x ++ "_") c [(1, x)]); auto.
  - f_equal. unfold expand. simpl. rewrite <- app_assoc. reflexivity.
  - exact italic_starts_with_underscore.
  - discriminate.
  - replace (("_" ++ x ++ "_") ++ c) with ("_" ++ x ++ "_" ++ c) by list_eq.
    apply match_at_italic; assumption.
Qed.

Lemma italic_in_plain_context_witness :
  _parseItalic "snake_case_identifier"
  = "snake" ++ "<em>" ++ "case" ++ "</em>" ++ "identifier".
Proof.
  exact (@italic_in_plain_context "snake" "case" "identifier"
           eq_refl eq_refl eq_refl eq_refl).
Defined.

Lemma nonempty_length (A : Type) (s : list A) : s <> [] -> 1 <= length s.
Proof. destruct s; [contradiction | simpl; lia]. Qed.

Lemma match_at_link (t u c : jsstring) (bf : list ascii) :
  t <> [] -> forallb (not_char "]") t = true ->
  u <> [] -> forallb (not_char ")") u = true ->
  match_at patterns.link bf ("[" ++ t ++ "](" ++ u ++ ")" ++ c)
  = Some (mkMatch ("[" ++ t ++ "](" ++ u ++ ")") c [(2, u); (1, t)]).
Proof.
  intros Ht Ht' Hu Hu'. unfold match_at. simpl.
  apply rep_greedy_first with (run := t); auto using nonempty_length.
  simpl. apply rep_greedy_first with (run := u); auto using nonempty_length.
  simpl. rewrite !between_app.
  rewrite (@between_eq _ _ _ ("[" ++ t ++ "](" ++ u ++ ")") c) by list_eq.
  reflexivity.
Qed.

Lemma match_at_image (alt src c : jsstring) (bf : list ascii) :
  forallb (not_char "]") alt = true ->
  src <> [] -> forallb (not_char ")") src = true ->
  match_at patterns.image bf ("![" ++ alt ++ "](" ++ src ++ ")" ++ c)
  = Some (mkMatch ("![" ++ alt ++ "](" ++ src ++ ")") c [(2, src); (1, alt)]).
Proof.
  intros Ha Hs Hs'. unfold match_at. simpl.
  apply rep_greedy_first with (run := alt); auto; [lia|].
  simpl. apply rep_greedy_first with (run := src); auto using nonempty_length.
  simpl. rewrite !between_app.
  rewrite (@between_eq _ _ _ ("![" ++ alt ++ "](" ++ src ++ ")") c) by list_eq.
  reflexivity.
Qed.

Lemma match_at_inlineCode_context (code c : jsstring) (bf : list ascii) :
  code <> [] -> forallb (not_char "`") code = true ->
  match_at patterns.inlineCode bf ("`" ++ code ++ "`" ++ c)
  = Some (mkMatch ("`" ++ code ++ "`") c [(1, code)]).
Proof.
  intros Hne Hc. unfold match_at. simpl.
  apply rep_greedy_first with (run := code); auto using nonempty_length.
  simpl. rewrite !between_app.
  rewrite (@between_eq _ _ _ ("`" ++ code ++ "`") c) by list_eq.
  reflexivity.
Qed.

(** X5.  Between two texts without [[], a link [[text](url)] whose
    text is not empty and has no []] and whose url is not empty and
    has no [)] becomes an anchor with the url as [href] and the text
    as content; both are copied as they are, without escaping. *)
Theorem link_in_plain_context (a t u c : jsstring) :
  forallb (not_char "[") a = true -> forallb (not_char "[") c = true ->
  t <> [] -> forallb (not_char "]") t = true ->
  u <> [] -> forallb (not_char ")") u = true ->
  _parseLinks (a ++ "[" ++ t ++ "](" ++ u ++ ")" ++ c)
  = a ++ "<a href=" ++ patterns.q ++ u ++ patterns.q ++ ">" ++ t ++ "</a>"
    ++ c.
Proof.
  intros Ha Hc Ht Ht' Hu Hu'. unfold _parseLinks.
  replace (a ++ "[" ++ t ++ "](" ++ u ++ ")" ++ c)
    with (a ++ ("[" ++ t ++ "](" ++ u ++ ")") ++ c) by (f_equal; list_eq).
  rewrite (@String_replace_in_context patterns.link _ (is_char "[")
             a ("[" ++ t ++ "](" ++ u ++ ")") c [(2, u); (1, t)]); auto.
  - f_equal. unfold expand, capture_str. list_eq.
  - exact link_starts_with_bracket.
  - discriminate.
  - replace (("[" ++ t ++ "](" ++ u ++ ")") ++ c)
      with ("[" ++ t ++ "](" ++ u ++ ")" ++ c) by list_eq.
    apply match_at_link; assumption.
Qed.

Lemma link_in_plain_context_witness :
  _parseLinks "see [the docs](https://example.org/a_b) now"
  = "see " ++ "<a href=" ++ patterns.q ++ "https://example.org/a_b"
    ++ patterns.q ++ ">" ++ "the docs" ++ "</a>" ++ " now".
Proof.
  apply (@link_in_plain_context "see " "the docs" "https://example.org/a_b"
           " now"); try reflexivity; discriminate.
Defined.

(** X6.  Between two texts without [!], an image [![alt](src)] whose
    alt text has no []] (it may be empty) and whose src is not empty
    and has no [)] becomes an [img] element with that [src] and that
    [alt]. *)
Theorem image_in_plain_context (a alt src c : jsstring) :
  forallb (not_char "!") a = true -> forallb (not_char "!") c = true ->
  forallb (not_char "]") alt = true ->
  src <> [] -> forallb (not_char ")") src = true ->
  _parseImages (a ++ "![" ++ alt ++ "](" ++ src ++ ")" ++ c)
  = a ++ "<img src=" ++ patterns.q ++ src ++ patterns.q ++ " alt="
    ++ patterns.q ++ alt ++ patterns.q ++ " />" ++ c.
Proof.
  intros Ha Hc Halt Hs Hs'. unfold _parseImages.
  replace (a ++ "![" ++ alt ++ "](" ++ src ++ ")" ++ c)
    with (a ++ ("![" ++ alt ++ "](" ++ src ++ ")") ++ c) by (f_equal; list_eq).
  rewrite (@String_replace_in_context patterns.image _ (is_char "!")
             a ("![" ++ alt ++ "](" ++ src ++ ")") c [(2, src); (1, alt)]);
    auto.
  - f_equal. unfold expand, capture_str. list_eq.
  - exact image_starts_with_bang.
  - discriminate.
  - replace (("![" ++ alt ++ "](" ++ src ++ ")") ++ c)
      with ("![" ++ alt ++ "](" ++ src ++ ")" ++ c) by list_eq.
    apply match_at_image; assumption.
Qed.

Lemma image_in_plain_context_witness :
  _parseImages "logo: ![](logo.png)."
  = "logo: " ++ "<img src=" ++ patterns.q ++ "logo.png" ++ patterns.q
    ++ " alt=" ++ patterns.q ++ "" ++ patterns.q ++ " />" ++ ".".
Proof.
  apply (@image_in_plain_context "logo: " "" "logo.png" ".");
    try reflexivity; discriminate.
Defined.

(** X7.  Between two texts without a backtick, a text that is not
    empty and has no backtick and stands between two backticks is put
    between [<code>] and [</code>] as it is. *)
Theorem inline_code_in_plain_context (a code c : jsstring) :
  forallb (not_char "`") a = true -> forallb (not_char "`") c = true ->
  code <> [] -> forallb (not_char "`") code = true ->
  _parseInlineCode (a ++ "`" ++ code ++ "`" ++ c)
  = a ++ "<code>" ++ code ++ "</code>" ++ c.
Proof.
  intros Ha Hc Hne Hcode. unfold _parseInlineCode.
  replace (a ++ "`" ++ code ++ "`" ++ c) with (a ++ ("`" ++ code ++ "`") ++ c)
    by (f_equal; list_eq).
  rewrite (@String_replace_in_context patterns.inlineCode _ (is_char "`")
             a ("`" ++ code ++ "`") c [(1, code)]); auto.
  - f_equal. unfold expand, capture_str. list_eq.
  - exact inlineCode_starts_with_backtick.
  - discriminate.
  - replace (("`" ++ code ++ "`") ++ c) with ("`" ++ code ++ "`" ++ c)
      by list_eq.
    apply match_at_inlineCode_context; assumption.
Qed.

Lemma inline_code_in_plain_context_witness :
  _parseInlineCode "call `f(x) < 1` here"
  = "call " ++ "<code>" ++ "f(x) < 1" ++ "</code>" ++ " here".
Proof.
  apply (@inline_code_in_plain_context "call " "f(x) < 1" " here");
    try reflexivity; discriminate.
Defined.

(** ** Headings and horizontal rules *)

Lemma rep_greedy_first_bounded (R : Type) (p : ascii -> bool)
    (run : list ascii) :
  forall rest lo hi bf (k : position -> option R) x,
    forallb p run = true ->
    lo <= length run -> hi_ok hi (length run) ->
    head_fails p rest ->
    k (rev run ++ bf, rest) = Some x ->
    rep_greedy p lo hi bf (run ++ rest) k = Some x.
Proof.
  induction run as [|c run IH]; intros rest lo hi bf k x Hall Hlo Hhi Hrest Hk.
  - simpl in *. assert (lo = 0) as -> by lia.
    destruct rest as [|d rest]; simpl.
    + destruct (hi_zero hi); exact Hk.
    + simpl in Hrest. rewrite Hrest. destruct (hi_zero hi); exact Hk.
  - simpl in *. apply andb_true_iff in Hall. destruct Hall as [Hc Hall].
    apply hi_ok_S in Hhi. destruct Hhi as [Hz Hhi]. rewrite Hz, Hc.
    rewrite (IH rest (pred lo) (dec_hi hi) (c :: bf) k x); auto; try lia.
    rewrite <- app_assoc in Hk. exact Hk.
Qed.

Lemma forallb_repeat (p : ascii -> bool) (c : ascii) (n : nat) :
  p c = true -> forallb p (repeat c n) = true.
Proof. intros H. induction n; simpl; [|rewrite H]; auto. Qed.

Lemma heading_starts_with_hash (bf af : list ascii) :
  head_fails (is_char "#") af -> match_at patterns.heading bf af = None.
Proof.
  intros H. destruct af as [|c af];
    unfold match_at; simpl; [destruct (at_bol true (bf, [])); reflexivity|].
  simpl in H. unfold is_char in *. rewrite H.
  destruct (at_bol true (bf, c :: af)); reflexivity.
Qed.

Lemma match_at_heading (n : nat) (sep content tail : jsstring) :
  1 <= n <= 6 ->
  sep <> [] -> forallb is_space sep = true ->
  content <> [] -> forallb is_dot content = true ->
  head_fails is_space content -> head_fails is_dot tail ->
  match_at patterns.heading [] (repeat "#"%char n ++ sep ++ content ++ tail)
  = Some (mkMatch (repeat "#"%char n ++ sep ++ content) tail
            [(2, content); (1, repeat "#"%char n)]).
Proof.
  intros Hn Hsep Hsep' Hc Hc' Hhead Htail. unfold match_at. simpl.
  apply rep_greedy_first_bounded with (run := repeat "#"%char n).
  - apply forallb_repeat. reflexivity.
  - rewrite repeat_length. lia.
  - simpl. rewrite repeat_length. lia.
  - destruct sep as [|s sep]; [contradiction|]. simpl in *.
    apply andb_true_iff in Hsep'. destruct Hsep' as [Hs _].
    each_char s; try discriminate Hs; reflexivity.
  - simpl. apply rep_greedy_first with (run := sep);
      auto using nonempty_length.
    { destruct content as [|c0 content]; [contradiction | exact Hhead]. }
    simpl. apply rep_greedy_first with (run := content);
      auto using nonempty_length.
    simpl. rewrite !between_app.
    rewrite (@between_eq _ _ _ (repeat "#"%char n ++ sep ++ content) tail)
      by list_eq.
    reflexivity.
Qed.

(** X8.  A text that starts with one to six [#], then white space (a
    line break counts), then a line of content that does not start
    with white space, and in which no [#] follows that line: the line
    becomes a heading of the level given by the number of [#], with
    the content trimmed, and what follows the line is kept. *)
Theorem heading_first_line (n : nat) (sep content tail : jsstring) :
  1 <= n <= 6 ->
  sep <> [] -> forallb is_space sep = true ->
  content <> [] -> forallb is_dot content = true ->
  head_fails is_space content ->
  head_fails is_dot tail -> forallb (not_char "#") tail = true ->
  _parseHeadings (repeat "#"%char n ++ sep ++ content ++ tail)
  = "<h" ++ nat_to_string n ++ ">" ++ trim content
    ++ "</h" ++ nat_to_string n ++ ">" ++ tail.
Proof.
  intros Hn Hsep Hsep' Hc Hc' Hhead Htail Htail'. unfold _parseHeadings.
  replace (repeat "#"%char n ++ sep ++ content ++ tail)
    with ([] ++ (repeat "#"%char n ++ sep ++ content) ++ tail) by list_eq.
  rewrite (@String_replace_in_context patterns.heading _ (is_char "#")
             [] (repeat "#"%char n ++ sep ++ content) tail
             [(2, content); (1, repeat "#"%char n)]); auto.
  - cbv beta zeta. unfold capture_str. cbn [capture Nat.eqb].
    rewrite repeat_length. list_eq.
  - exact heading_starts_with_hash.
  - destruct n; [lia | discriminate].
  - replace ((repeat "#"%char n ++ sep ++ content) ++ tail)
      with (repeat "#"%char n ++ sep ++ content ++ tail) by list_eq.
    apply match_at_heading; assumption.
Qed.

Lemma heading_first_line_witness :
  _parseHeadings ("## Getting started  " ++ nl ++ "Some text.")
  = "<h" ++ nat_to_string 2 ++ ">" ++ trim "Getting started  "
    ++ "</h" ++ nat_to_string 2 ++ ">" ++ nl ++ "Some text.".
Proof.
  apply (@heading_first_line 2 " " "Getting started  " (nl ++ "Some text."));
    try reflexivity; try discriminate; lia.
Defined.

Lemma heading_not_after_hash (bf af : list ascii) :
  match_at patterns.heading ("#"%char :: bf) af = None.
Proof. reflexivity. Qed.

Lemma app_longer_head (A : Type) (pre : list A) :
  forall post run rest,
    pre ++ post = run ++ rest -> length pre < length run ->
    exists c post', post = c :: post' /\ In c run.
Proof.
  induction pre as [|a pre IH]; intros post run rest E Hlen.
  - destruct run as [|c run]; [simpl in Hlen; lia|].
    simpl in E. exists c, (run ++ rest). split; [exact E | left; reflexivity].
  - destruct run as [|c run]; [simpl in Hlen; lia|].
    simpl in E. injection E as _ E. simpl in Hlen.
    destruct (IH post run rest E) as (d & post' & -> & Hin); [lia|].
    exists d, post'. split; [reflexivity | right; exact Hin].
Qed.

(** A bounded greedy quantifier fails when the run is longer than its
    bound and the continuation fails in front of the run's code units. *)
Lemma rep_greedy_too_long (R : Type) (p : ascii -> bool) (h lo : nat)
    (run rest bf : list ascii) (k : position -> option R) :
  h < length run ->
  (forall bf' c af, In c run -> k (bf', c :: af) = None) ->
  rep_greedy p lo (Some h) bf (run ++ rest) k = None.
Proof.
  intros Hlen Hk.
  destruct (rep_greedy p lo (Some h) bf (run ++ rest) k) as [x|] eqn:E;
    [|reflexivity].
  apply rep_greedy_sound in E.
  destruct E as (pre & post & E & _ & _ & Hhi & Hx).
  simpl in Hhi. symmetry in E.
  destruct (@app_longer_head _ pre post run rest E) as (c & post' & -> & Hin);
    [lia|].
  rewrite Hk in Hx by exact Hin. discriminate.
Qed.

Lemma In_repeat (c d : ascii) (n : nat) : In d (repeat c n) -> d = c.
Proof. intros H. apply repeat_spec in H. exact H. Qed.

Lemma heading_seven_hashes (n : nat) (rest : jsstring) :
  7 <= n -> match_at patterns.heading [] (repeat "#"%char n ++ rest) = None.
Proof.
  intros Hn. unfold match_at. simpl.
  apply rep_greedy_too_long.
  - rewrite repeat_length. lia.
  - intros bf' c af Hin. apply In_repeat in Hin. subst c. reflexivity.
Qed.

Lemma replace_all_after_hashes (f : replacer) (rest : jsstring) (h : nat) :
  forallb (not_char "#") rest = true ->
  forall bf,
    replace_all patterns.heading f ("#"%char :: bf) (repeat "#"%char h ++ rest) 0
    = repeat "#"%char h ++ rest.
Proof.
  intros Hrest. induction h as [|h IH]; intros bf.
  - simpl. apply replace_all_untouched with (trig := is_char "#").
    + exact heading_starts_with_hash.
    + exact Hrest.
  - simpl repeat. simpl app. unfold replace_all; fold replace_all.
    rewrite heading_not_after_hash. rewrite IH. reflexivity.
Qed.

(** X9.  A text that starts with seven or more [#] and has no other
    [#] after them is left as it is by the headings pass: there is no
    heading of a level above six, and the run is not cut into a
    heading of level six either. *)
Theorem heading_needs_at_most_six (n : nat) (rest : jsstring) :
  7 <= n -> forallb (not_char "#") rest = true ->
  _parseHeadings (repeat "#"%char n ++ rest) = repeat "#"%char n ++ rest.
Proof.
  intros Hn Hrest. unfold _parseHeadings, String_replace.
  simpl global. cbv iota.
  destruct n as [|n]; [lia|].
  change (repeat "#"%char (S n) ++ rest)
    with ("#"%char :: repeat "#"%char n ++ rest).
  unfold replace_all; fold replace_all.
  change ("#"%char :: repeat "#"%char n ++ rest)
    with (repeat "#"%char (S n) ++ rest) at 1.
  rewrite heading_seven_hashes by exact Hn.
  rewrite replace_all_after_hashes by exact Hrest. reflexivity.
Qed.

Lemma heading_needs_at_most_six_witness :
  _parseHeadings (repeat "#"%char 7 ++ " too deep")
  = repeat "#"%char 7 ++ " too deep".
Proof.
  apply (@heading_needs_at_most_six 7 " too deep"); [lia | reflexivity].
Defined.

Lemma horizontalRule_starts_with_hyphen (bf af : list ascii) :
  head_fails (is_char "-") af -> match_at patterns.horizontalRule bf af = None.
Proof.
  intros H. destruct af as [|c af];
    unfold match_at; simpl; [destruct (at_bol true (bf, [])); reflexivity|].
  simpl in H. unfold is_char in *. rewrite H.
  destruct (at_bol true (bf, c :: af)); reflexivity.
Qed.

Lemma at_eol_line_end (bf tail : list ascii) :
  head_fails is_dot tail -> at_eol true (bf, tail) = true.
Proof.
  destruct tail as [|c tail]; simpl; [reflexivity|].
  unfold is_dot. intros H. apply negb_false_iff in H. exact H.
Qed.

Lemma match_at_horizontalRule (n : nat) (tail : jsstring) :
  3 <= n -> head_fails is_dot tail -> head_fails (is_char "-") tail ->
  match_at patterns.horizontalRule [] (repeat "-"%char n ++ tail)
  = Some (mkMatch (repeat "-"%char n) tail []).
Proof.
  intros Hn Htail Htail'.
  destruct n as [|[|n]]; try lia. unfold match_at. simpl.
  apply rep_greedy_first with (run := repeat "-"%char n).
  - apply forallb_repeat. reflexivity.
  - rewrite repeat_length. lia.
  - exact Htail'.
  - rewrite (at_eol_line_end _ tail Htail).
    rewrite (@between_eq _ _ _ (repeat "-"%char (S (S n))) tail)
      by reflexivity.
    reflexivity.
Qed.

Lemma forallb_head_fails (a : ascii) (s : jsstring) :
  forallb (not_char a) s = true -> head_fails (is_char a) s.
Proof.
  destruct s as [|c s]; simpl; [auto|].
  intros H. apply andb_true_iff in H. destruct H as [H _].
  unfold not_char in H. apply negb_true_iff in H. exact H.
Qed.

(** X10.  A text whose first line is three or more [-] and nothing
    else, and which has no [-] after that line: the line becomes
    [<hr />], and what follows it is kept. *)
Theorem horizontal_rule_first_line (n : nat) (tail : jsstring) :
  3 <= n -> head_fails is_dot tail -> forallb (not_char "-") tail = true ->
  _parseHorizontalRules (repeat "-"%char n ++ tail) = "<hr />" ++ tail.
Proof.
  intros Hn Htail Htail'. unfold _parseHorizontalRules.
  replace (repeat "-"%char n ++ tail)
    with ([] ++ repeat "-"%char n ++ tail) by reflexivity.
  rewrite (@String_replace_in_context patterns.horizontalRule _ (is_char "-")
             [] (repeat "-"%char n) tail []); auto.
  - exact horizontalRule_starts_with_hyphen.
  - destruct n; [lia | discriminate].
  - apply match_at_horizontalRule; auto using forallb_head_fails.
Qed.

Lemma horizontal_rule_first_line_witness :
  _parseHorizontalRules (repeat "-"%char 5 ++ nl ++ "next")
  = "<hr />" ++ nl ++ "next".
Proof.
  apply (@horizontal_rule_first_line 5 (nl ++ "next"));
    [lia | reflexivity | reflexivity].
Defined.

(** ** The HTML escaper *)

Lemma _escapeHtml_flat_map (text : jsstring) :
  _escapeHtml text = flat_map escape_char text.
Proof. apply _escapeHtml_each. Qed.

Lemma escape_char_safe (c : ascii) :
  forallb (fun d => negb (is_html_delimiter d)) (escape_char c) = true.
Proof. each_char c; reflexivity. Qed.

Lemma escape_char_plain (c : ascii) :
  is_html_special c = false -> escape_char c = [c].
Proof. unfold escape_char. intros ->. reflexivity. Qed.

Lemma html_special_cases (c : ascii) :
  is_html_special c = true ->
  c = "&"%char \/ c = "<"%char \/ c = ">"%char \/ c = dquote \/ c = squote.
Proof.
  unfold is_html_special, is_char. intros H.
  repeat (apply orb_true_iff in H; destruct H as [H | H]);
    apply Ascii.eqb_eq in H; auto.
Qed.

Lemma escape_char_head (c : ascii) :
  is_html_special c = true -> exists r, escape_char c = "&"%char :: r.
Proof.
  intros H. destruct (html_special_cases c H) as [->|[->|[->|[->| ->]]]];
    eexists; reflexivity.
Qed.

(** The codes of two code units do not overlap: one is no prefix of
    the other. *)
Lemma escape_char_prefix_free (c d : ascii) (x y : jsstring) :
  escape_char c ++ x = escape_char d ++ y -> c = d /\ x = y.
Proof.
  destruct (is_html_special c) eqn:Hc, (is_html_special d) eqn:Hd.
  - destruct (html_special_cases c Hc) as [->|[->|[->|[->| ->]]]];
      destruct (html_special_cases d Hd) as [->|[->|[->|[->| ->]]]];
      intros H; try discriminate H; injection H as H; auto.
  - rewrite (escape_char_plain d Hd).
    destruct (escape_char_head c Hc) as [r ->]. intros H. injection H as <- _.
    discriminate Hd.
  - rewrite (escape_char_plain c Hc).
    destruct (escape_char_head d Hd) as [r ->]. intros H. injection H as -> _.
    discriminate Hc.
  - rewrite (escape_char_plain c Hc), (escape_char_plain d Hd).
    intros H. injection H as -> ->. auto.
Qed.

Lemma escape_char_nonempty (c : ascii) : escape_char c <> [].
Proof.
  destruct (is_html_special c) eqn:Hc.
  - destruct (escape_char_head c Hc) as [r ->]. discriminate.
  - rewrite (escape_char_plain c Hc). discriminate.
Qed.

(** X11.  The escaper works code unit by code unit, so it distributes
    over concatenation; its output has no [<], no [>] and no quote of
    either kind; and a text without the five reserved characters is
    left as it is. *)
Theorem escapeHtml_output (s t : jsstring) :
  _escapeHtml (s ++ t) = _escapeHtml s ++ _escapeHtml t
  /\ forallb (fun d => negb (is_html_delimiter d)) (_escapeHtml s) = true
  /\ (forallb (fun c => negb (is_html_special c)) s = true ->
      _escapeHtml s = s).
Proof.
  rewrite !_escapeHtml_flat_map. split; [apply flat_map_app|]. split.
  - induction s as [|c s IH]; simpl; [reflexivity|].
    rewrite forallb_app, escape_char_safe, IH. reflexivity.
  - induction s as [|c s IH]; simpl; [reflexivity|].
    intros H. apply andb_true_iff in H. destruct H as [Hc Hs].
    apply negb_true_iff in Hc.
    rewrite (escape_char_plain c Hc), (IH Hs). reflexivity.
Qed.

(** X12.  The escaper loses nothing: two texts with the same escaped
    form are the same text. *)
Theorem escapeHtml_injective (s t : jsstring) :
  _escapeHtml s = _escapeHtml t -> s = t.
Proof.
  rewrite !_escapeHtml_flat_map. revert t.
  induction s as [|c s IH]; intros [|d t]; simpl; intros H.
  - reflexivity.
  - symmetry in H. apply app_eq_nil in H. destruct H as [H _].
    destruct (escape_char_nonempty d H).
  - apply app_eq_nil in H. destruct H as [H _].
    destruct (escape_char_nonempty c H).
  - apply escape_char_prefix_free in H. destruct H as [-> H].
    f_equal. apply IH. exact H.
Qed.

Lemma escapeHtml_injective_witness : ("a < b" : jsstring) = "a < b".
Proof. apply (@escapeHtml_injective "a < b" "a < b"). reflexivity. Defined.

(** ** The frontmatter object *)

Lemma obj_get_put_same (o : object) (k : jsstring) (v : fmvalue) :
  obj_get (obj_put o k v) k = Some v.
Proof.
  induction o as [|[k' v'] o IH]; simpl.
  - rewrite str_eqb_refl. reflexivity.
  - destruct (str_eqb k' k) eqn:E; simpl; rewrite E; [reflexivity | exact IH].
Qed.

Lemma obj_get_put_other (o : object) (k k' : jsstring) (v : fmvalue) :
  k' <> k -> obj_get (obj_put o k v) k' = obj_get o k'.
Proof.
  intros Hne. induction o as [|[k0 v0] o IH]; simpl.
  - rewrite str_eqb_neq by congruence. reflexivity.
  - destruct (str_eqb k0 k) eqn:E; simpl.
    + apply str_eqb_eq in E. subst k0.
      rewrite str_eqb_neq by congruence. reflexivity.
    + rewrite IH. reflexivity.
Qed.

Lemma obj_put_In (o : object) (k k' : jsstring) (v v' : fmvalue) :
  In (k', v') (obj_put o k v) -> (k' = k /\ v' = v) \/ In (k', v') o.
Proof.
  induction o as [|[k0 v0] o IH]; simpl.
  - intros [H | []]. injection H as <- <-. auto.
  - destruct (str_eqb k0 k) eqn:E; simpl.
    + apply str_eqb_eq in E. subst k0.
      intros [H | H]; [injection H as <- <-; auto | auto].
    + intros [H | H]; [auto|]. destruct (IH H); auto.
Qed.

Lemma obj_put_keys (o : object) (k k' : jsstring) (v : fmvalue) :
  In k' (map fst (obj_put o k v)) -> k' = k \/ In k' (map fst o).
Proof.
  induction o as [|[k0 v0] o IH]; simpl.
  - intros [H | []]. auto.
  - destruct (str_eqb k0 k) eqn:E; simpl.
    + intros [H | H]; auto.
    + intros [H | H]; [auto|]. destruct (IH H); auto.
Qed.

Lemma obj_put_NoDup (o : object) (k : jsstring) (v : fmvalue) :
  NoDup (map fst o) -> NoDup (map fst (obj_put o k v)).
Proof.
  induction o as [|[k0 v0] o IH]; simpl; intros H.
  - constructor; [intros [] | constructor].
  - inversion H as [|? ? Hnot Hrest]; subst.
    destruct (str_eqb k0 k) eqn:E; simpl.
    + constructor; assumption.
    + constructor; [|apply IH; exact Hrest].
      intros Hin. apply obj_put_keys in Hin. destruct Hin as [-> | Hin].
      * rewrite str_eqb_refl in E. discriminate.
      * contradiction.
Qed.

Lemma cut_at_first (sep : ascii) (k v cur : jsstring) :
  forallb (not_char sep) k = true ->
  cut_at sep cur (k ++ sep :: v) = Some (rev cur ++ k, v).
Proof.
  revert cur. induction k as [|c k IH]; intros cur H; simpl.
  - rewrite Ascii.eqb_refl, app_nil_r. reflexivity.
  - simpl in H. apply andb_true_iff in H. destruct H as [Hc Hk].
    unfold not_char in Hc. apply negb_true_iff in Hc. rewrite Hc.
    rewrite IH by exact Hk. simpl. rewrite <- app_assoc. reflexivity.
Qed.

Lemma cut_at_some (sep : ascii) (l : jsstring) :
  forall cur k v,
    cut_at sep cur l = Some (k, v) ->
    exists k', k = rev cur ++ k' /\ l = k' ++ sep :: v
               /\ forallb (not_char sep) k' = true.
Proof.
  induction l as [|c l IH]; intros cur k v H; simpl in H; [discriminate|].
  destruct (Ascii.eqb c sep) eqn:E.
  - injection H as <- <-. apply Ascii.eqb_eq in E. subst c.
    exists []. rewrite app_nil_r. auto.
  - apply IH in H. destruct H as (k' & -> & -> & Hk').
    exists (c :: k'). simpl. unfold not_char at 1. rewrite E, Hk'.
    rewrite <- app_assoc. auto.
Qed.

Lemma parse_line_colon (o : object) (k v : jsstring) :
  forallb (not_char ":") k = true ->
  parse_line o (k ++ ":" ++ v) = obj_set o (trim k) (parse_value (trim v)).
Proof.
  intros H. unfold parse_line.
  change (k ++ ":" ++ v) with (k ++ ":"%char :: v).
  rewrite cut_at_first by exact H. reflexivity.
Qed.

Lemma parse_line_other_key (o : object) (l k : jsstring) :
  (forall k' v', l = k' ++ ":" ++ v' -> forallb (not_char ":") k' = true ->
                 trim k' <> k) ->
  obj_get (parse_line o l) k = obj_get o k.
Proof.
  intros H. unfold parse_line.
  destruct (cut_at ":" [] l) as [[k' v']|] eqn:E; [|reflexivity].
  apply cut_at_some in E. destruct E as (k0 & -> & -> & Hk0).
  change (rev [] ++ k0) with k0.
  unfold obj_set. destruct (str_eqb (trim k0) "__proto__"); [reflexivity|].
  apply obj_get_put_other. intros Heq.
  apply (H k0 v' eq_refl Hk0). symmetry. exact Heq.
Qed.

Lemma fold_parse_line_other_key (ls : list jsstring) (k : jsstring) :
  (forall l k' v', In l ls -> l = k' ++ ":" ++ v' ->
                   forallb (not_char ":") k' = true -> trim k' <> k) ->
  forall o, obj_get (fold_left parse_line ls o) k = obj_get o k.
Proof.
  induction ls as [|l ls IH]; intros H o; [reflexivity|].
  simpl. rewrite IH.
  - apply parse_line_other_key. intros k' v'. apply H. left. reflexivity.
  - intros l' k' v' Hin. apply H. right. exact Hin.
Qed.

(** X13.  A line is cut at its first colon, and the last line with a
    given key decides the value stored under it: when the lines of
    the trimmed block are [ls1], then a line [k:v] whose [k] has no
    colon, then [ls2], and no line of [ls2] has the same trimmed key,
    the frontmatter holds the value of [v] under the trimmed [k],
    whatever [ls1] says.  (The key [__proto__] is no key of the
    object.) *)
Theorem frontmatter_last_line_wins
    (content : jsstring) (ls1 ls2 : list jsstring) (k v : jsstring) :
  split_char LF [] (trim content) = ls1 ++ (k ++ ":" ++ v) :: ls2 ->
  forallb (not_char ":") k = true ->
  trim k <> "__proto__" ->
  (forall l k' v', In l ls2 -> l = k' ++ ":" ++ v' ->
                   forallb (not_char ":") k' = true -> trim k' <> trim k) ->
  obj_get (_parseFrontmatter content) (trim k) = Some (parse_value (trim v)).
Proof.
  intros Hlines Hk Hproto Hlater. unfold _parseFrontmatter.
  rewrite Hlines, fold_left_app. cbn [fold_left].
  rewrite fold_parse_line_other_key by exact Hlater.
  rewrite parse_line_colon by exact Hk.
  unfold obj_set. rewrite str_eqb_neq by exact Hproto.
  apply obj_get_put_same.
Qed.

Lemma frontmatter_last_line_wins_witness :
  obj_get
    (_parseFrontmatter
       ("title: one" ++ nl ++ "url: http://a.b/c" ++ nl ++ "title: two"))
    (trim "title")
  = Some (parse_value (trim " two")).
Proof.
  apply (@frontmatter_last_line_wins
           ("title: one" ++ nl ++ "url: http://a.b/c" ++ nl ++ "title: two")
           ["title: one" : jsstring; "url: http://a.b/c" : jsstring] []
           "title" " two");
    try reflexivity; try discriminate.
  intros l k' v' [].
Defined.

Lemma parse_line_invariant (lines : list jsstring) (l : jsstring) (o : object) :
  In l lines ->
  NoDup (map fst o) ->
  (forall k v, In (k, v) o -> entry_from_line lines k v) ->
  NoDup (map fst (parse_line o l))
  /\ (forall k v, In (k, v) (parse_line o l) -> entry_from_line lines k v).
Proof.
  intros Hl Hnd Hall. unfold parse_line.
  destruct (cut_at ":" [] l) as [[kr vr]|] eqn:E; [|auto].
  apply cut_at_some in E. destruct E as (k0 & -> & -> & Hk0).
  change (rev [] ++ k0) with k0. unfold obj_set.
  destruct (str_eqb (trim k0) "__proto__") eqn:Ep; [auto|].
  split; [apply obj_put_NoDup; exact Hnd|].
  intros k v Hin. apply obj_put_In in Hin. destruct Hin as [[-> ->] | Hin].
  - split; [apply trim_idempotent|]. split.
    + intros Heq. rewrite Heq, str_eqb_refl in Ep. discriminate.
    + exists k0, vr. auto.
  - apply Hall. exact Hin.
Qed.

Lemma fold_parse_line_invariant (lines ls : list jsstring) :
  (forall l, In l ls -> In l lines) ->
  forall o,
    NoDup (map fst o) ->
    (forall k v, In (k, v) o -> entry_from_line lines k v) ->
    NoDup (map fst (fold_left parse_line ls o))
    /\ (forall k v, In (k, v) (fold_left parse_line ls o) ->
                    entry_from_line lines k v).
Proof.
  induction ls as [|l ls IH]; intros Hsub o Hnd Hall; [auto|].
  cbn [fold_left].
  destruct (@parse_line_invariant lines l o) as [Hnd' Hall']; auto.
  { apply Hsub. left. reflexivity. }
  apply IH; auto. intros l' Hin. apply Hsub. right. exact Hin.
Qed.

(** X14.  The frontmatter object has each key once; every key is
    trimmed and is not [__proto__]; and every entry comes from a line
    of the trimmed block that has a colon: its key is the trimmed text
    before the first colon and its value the coerced trimmed text
    after it.  Lines without a colon leave no entry. *)
Theorem frontmatter_entries (content : jsstring) :
  NoDup (map fst (_parseFrontmatter content))
  /\ (forall k v,
        In (k, v) (_parseFrontmatter content) ->
        entry_from_line (split_char LF [] (trim content)) k v).
Proof.
  unfold _parseFrontmatter. apply fold_parse_line_invariant.
  - auto.
  - constructor.
  - intros k v [].
Qed.

(** ** Array values *)

Lemma split_char_pieces (sep : ascii) (s : jsstring) :
  forall cur,
    Forall (fun c => not_char sep c = true) cur ->
    Forall (Forall (fun c => not_char sep c = true)) (split_char sep cur s).
Proof.
  induction s as [|c s IH]; intros cur Hcur; simpl.
  - constructor; [apply Forall_rev; exact Hcur | constructor].
  - destruct (Ascii.eqb c sep) eqn:E.
    + constructor; [apply Forall_rev; exact Hcur | apply IH; constructor].
    + apply IH. constructor; [|exact Hcur].
      unfold not_char. rewrite E. reflexivity.
Qed.

Lemma split_char_length (sep : ascii) (s : jsstring) :
  forall cur,
    length (split_char sep cur s) = S (length (filter (is_char sep) s)).
Proof.
  induction s as [|c s IH]; intros cur; simpl; [reflexivity|].
  unfold is_char at 1. destruct (Ascii.eqb c sep); simpl; rewrite IH; reflexivity.
Qed.

Lemma Forall_removelast (A : Type) (P : A -> Prop) (s : list A) :
  Forall P s -> Forall P (removelast s).
Proof.
  induction 1 as [|c s Hc Hs IH]; simpl; [constructor|].
  destruct s; [constructor | constructor; assumption].
Qed.

Lemma Forall_slice (P : ascii -> Prop) (s : jsstring) :
  Forall P s -> Forall P (slice_1_m1 s).
Proof.
  intros H. unfold slice_1_m1. apply Forall_removelast.
  destruct H; [constructor | assumption].
Qed.

Lemma Forall_parse_item (P : ascii -> Prop) (item : jsstring) :
  Forall P item -> Forall P (parse_item item).
Proof.
  intros H. unfold parse_item. cbv zeta.
  destruct (is_quoted (trim item));
    [apply Forall_slice|]; apply Forall_trim; exact H.
Qed.

(** X15.  A value in brackets always becomes a sequence of strings,
    never a number or a boolean: it is empty when there is only white
    space between the brackets, and otherwise it has one item more
    than there are commas between the brackets, no item holding a
    comma (a comma inside quotes splits too). *)
Theorem bracketed_value_is_array (value : jsstring) :
  is_bracketed value = true ->
  exists items,
    parse_value value = VArray items
    /\ Forall (Forall (fun c => not_char "," c = true)) items
    /\ length items
       = (if is_empty (trim (slice_1_m1 value)) then 0
          else S (length (filter (is_char ",") (trim (slice_1_m1 value))))).
Proof.
  intros Hb. unfold parse_value. rewrite Hb. cbv zeta.
  destruct (is_empty (trim (slice_1_m1 value))).
  - exists []. repeat split. constructor.
  - eexists. split; [reflexivity|]. split.
    + apply Forall_map.
      eapply Forall_impl; [|apply split_char_pieces; constructor].
      intros item. apply Forall_parse_item.
    + rewrite length_map. apply split_char_length.
Qed.

Lemma bracketed_value_is_array_witness :
  exists items,
    parse_value "[true, 42]" = VArray items
    /\ Forall (Forall (fun c => not_char "," c = true)) items
    /\ length items = 2.
Proof.
  destruct (@bracketed_value_is_array "[true, 42]" eq_refl)
    as (items & H1 & H2 & H3).
  exists items. auto.
Defined.

(** ** Slugs *)

Lemma strip_trailing_last (s : jsstring) (c : ascii) :
  is_char "-" c = false -> strip_trailing (s ++ [c]) = s ++ [c].
Proof.
  intros Hc. induction s as [|a s IH].
  - simpl. rewrite Hc. reflexivity.
  - change ((a :: s) ++ [c]) with (a :: s ++ [c]).
    rewrite strip_trailing_cons, IH.
    assert (forallb (is_char "-") (a :: s ++ [c]) = false) as ->;
      [|reflexivity].
    simpl. rewrite forallb_app. simpl. rewrite Hc.
    rewrite andb_false_r, andb_false_r. reflexivity.
Qed.

Lemma strip_trailing_fixed (s : jsstring) :
  endsWith s "-" = false -> strip_trailing s = s.
Proof.
  unfold endsWith. intros H.
  rewrite <- (rev_involutive s). destruct (rev s) as [|c r]; [reflexivity|].
  simpl. apply strip_trailing_last. exact H.
Qed.

Lemma slug_shape_invariant (s : jsstring) : slug_shape s -> slug_invariant s.
Proof.
  intros (Hall & Hn & Hstart & Hend). repeat split.
  - exact Hall.
  - destruct s as [|c s]; [reflexivity|]. simpl in *. unfold is_char in *.
    rewrite Hstart in *. exact Hn.
  - apply strip_trailing_fixed. exact Hend.
Qed.

(** X16.  The slugs are the fixed points of [createSlug]: a text is
    returned as it is exactly when it has the shape of a slug
    (lower-case letters, digits and single hyphens, none at either
    end). *)
Theorem createSlug_fixed_points (s : jsstring) :
  createSlug s = s <-> slug_shape s.
Proof.
  rewrite createSlug_slugify. split.
  - intros H. rewrite <- H. apply slug_invariant_shape, slugify_invariant.
  - intros H. apply slugify_fixed, slug_shape_invariant. exact H.
Qed.

Lemma strip_trailing_empty (s : jsstring) :
  strip_trailing s = [] <-> forallb (is_char "-") s = true.
Proof.
  destruct s as [|c s]; [simpl; tauto|].
  rewrite strip_trailing_cons.
  destruct (forallb (is_char "-") (c :: s)); split; auto; discriminate.
Qed.

Lemma strip_leading_hyphens (s : jsstring) :
  forallb (is_char "-") (strip_leading s) = forallb (is_char "-") s.
Proof.
  unfold strip_leading. induction s as [|c s IH]; [reflexivity|].
  simpl. destruct (is_char "-" c) eqn:E.
  - destruct (span (is_char "-") s) as [a b]. simpl in *. exact IH.
  - simpl. rewrite E. reflexivity.
Qed.

Lemma collapse_runs_hyphens (s : jsstring) :
  forall b,
    forallb (is_char "-") (collapse_runs b s) = forallb is_slug_sep s.
Proof.
  induction s as [|c s IH]; intros b; simpl; [reflexivity|].
  destruct (is_slug_sep c) eqn:E.
  - destruct b; simpl; apply IH.
  - simpl. assert (is_char "-" c = false) as ->; [|reflexivity].
    unfold is_slug_sep in E. apply orb_false_iff in E. apply E.
Qed.

Lemma kept_or_alnum (c : ascii) :
  (if kept_in_slug c then is_slug_sep c else true) = negb (is_alnum c).
Proof. each_char c; reflexivity. Qed.

Lemma remove_special_seps (s : jsstring) :
  forallb is_slug_sep (remove_special s)
  = forallb (fun c => negb (is_alnum c)) s.
Proof.
  unfold remove_special. induction s as [|c s IH]; simpl; [reflexivity|].
  rewrite <- kept_or_alnum. destruct (kept_in_slug c); simpl; rewrite IH;
    reflexivity.
Qed.

Lemma space_not_alnum (c : ascii) : is_space c = true -> negb (is_alnum c) = true.
Proof. each_char c; vm_compute; intros H; try discriminate H; reflexivity. Qed.

Lemma forallb_trimStart (q : ascii -> bool) (s : jsstring) :
  (forall c, is_space c = true -> q c = true) ->
  forallb q (trimStart s) = forallb q s.
Proof.
  intros Hq. induction s as [|c s IH]; simpl; [reflexivity|].
  destruct (is_space c) eqn:E; [|reflexivity].
  rewrite IH, (Hq c E). reflexivity.
Qed.

Lemma forallb_rev (q : ascii -> bool) (s : jsstring) :
  forallb q (rev s) = forallb q s.
Proof.
  induction s as [|c s IH]; simpl; [reflexivity|].
  rewrite forallb_app, IH. simpl. rewrite andb_true_r. apply andb_comm.
Qed.

Lemma forallb_trim (q : ascii -> bool) (s : jsstring) :
  (forall c, is_space c = true -> q c = true) ->
  forallb q (trim s) = forallb q s.
Proof.
  intros Hq. unfold trim, trimEnd.
  rewrite forallb_rev, (forallb_trimStart _ _ Hq), forallb_rev.
  apply forallb_trimStart. exact Hq.
Qed.

Lemma lower_char_alnum (c : ascii) : is_alnum (lower_char c) = is_alnum c.
Proof. each_char c; reflexivity. Qed.

(** X17.  On texts of the code units U+0000 to U+00FF, the range of
    [jsstring], [createSlug] returns the empty string exactly for the
    texts without a letter of [A-Z] or [a-z] and without a digit:
    white space, punctuation, underscores, hyphens and the accented
    letters of that range alone leave nothing for a slug.  (Above the
    range the lower-casing of a text can bring such a letter in, as
    the Kelvin sign U+212A becomes [k]; those texts are not texts of
    [jsstring].) *)
Theorem createSlug_empty (text : jsstring) :
  createSlug text = [] <-> forallb (fun c => negb (is_alnum c)) text = true.
Proof.
  rewrite createSlug_slugify. unfold slugify.
  destruct (is_empty text) eqn:E.
  { destruct text; [simpl; tauto | discriminate]. }
  rewrite strip_trailing_empty, strip_leading_hyphens, collapse_runs_hyphens,
    remove_special_seps, (forallb_trim _ _ space_not_alnum).
  assert (forallb (fun c => negb (is_alnum c)) (toLowerCase text)
          = forallb (fun c => negb (is_alnum c)) text) as ->; [|tauto].
  unfold toLowerCase. clear E. induction text as [|c text IH]; simpl.
  - reflexivity.
  - rewrite lower_char_alnum, IH. reflexivity.
Qed.

(** ** Documents with a frontmatter block *)

Lemma opt_greedy (R : Type) (p : ascii -> bool) (bf s : list ascii)
    (k : position -> option R) :
  (forall st, k st <> None) ->
  rep_greedy p 0 (Some 1) bf s k = k (opt_pos p (bf, s)).
Proof.
  intros Hk. unfold opt_pos. destruct s as [|c s]; simpl; [reflexivity|].
  destruct (p c); [|reflexivity].
  rewrite rep_greedy_zero.
  destruct (k (c :: bf, s)) eqn:E; [reflexivity|].
  destruct (Hk _ E).
Qed.

Lemma trimStart_opt_pos (p : ascii -> bool) (st : position) :
  (forall c, p c = true -> is_space c = true) ->
  trimStart (snd (opt_pos p st)) = trimStart (snd st).
Proof.
  intros Hp. unfold opt_pos. destruct st as [bf [|c s]]; simpl; [reflexivity|].
  destruct (p c) eqn:E; [|reflexivity].
  simpl. rewrite (Hp c E). reflexivity.
Qed.

(** The closing fence is not read where no line feed and three hyphens
    stand, with or without a carriage return before them. *)
Lemma closing_fence_fails (R : Type) (bf x : list ascii)
    (K : ascii -> ascii -> ascii -> ascii -> position -> list ascii
         -> option R) :
  lf_fence x = false ->
  (startsWith x CR = true -> lf_fence (tl x) = false) ->
  rep_greedy (is_char CR) 0 (Some 1) bf x
    (fun st'0 : position =>
       match snd st'0 with
       | [] => None
       | c :: af =>
           if is_char LF c
           then match af with
                | [] => None
                | c0 :: af0 =>
                    if is_char "-" c0
                    then match af0 with
                         | [] => None
                         | c1 :: af1 =>
                             if is_char "-" c1
                             then match af1 with
                                  | [] => None
                                  | c2 :: af2 =>
                                      if is_char "-" c2
                                      then K c2 c1 c0 c st'0 af2
                                      else None
                                  end
                             else None
                         end
                    else None
                end
           else None
       end) = None.
Proof.
  intros H1 H2.
  destruct x as [|a x]; [reflexivity|].
  simpl rep_greedy. rewrite rep_greedy_zero. cbn [snd].
  simpl tl in H2. simpl startsWith in H2.
  assert (forall y,
             lf_fence y = false ->
             forall bf',
             match y with
             | [] => None
             | c :: af =>
                 if is_char LF c
                 then match af with
                      | [] => None
                      | c0 :: af0 =>
                          if is_char "-" c0
                          then match af0 with
                               | [] => None
                               | c1 :: af1 =>
                                   if is_char "-" c1
                                   then match af1 with
                                        | [] => None
                                        | c2 :: af2 =>
                                            if is_char "-" c2
                                            then K c2 c1 c0 c (bf', y) af2
                                            else None
                                        end
                                   else None
                               end
                          else None
                      end
                 else None
             end = None) as Hy.
  { intros y Hf bf'.
    destruct y as [|a' [|b [|c [|d y]]]]; simpl in *;
      repeat match goal with
             | |- (if ?t then _ else _) = _ => destruct t; simpl in *
             end; try reflexivity; discriminate. }
  pose proof (Hy (a :: x) H1 bf) as E1.
  unfold is_char at 1. destruct (Ascii.eqb a CR); [|exact E1].
  pose proof (Hy x (H2 eq_refl) (a :: bf)) as E2.
  match goal with
  | |- match ?t with _ => _ end = _ =>
      replace t with (@None R) by (symmetry; exact E2)
  end.
  exact E1.
Qed.

Lemma lf_fence_app (p rest : jsstring) :
  head_fails (is_char "-") rest -> lf_fence p = false ->
  p <> [] -> lf_fence (p ++ rest) = false.
Proof.
  intros Hr Hp Hne.
  destruct p as [|a [|b [|c [|d p]]]]; [contradiction| | | |exact Hp];
    destruct rest as [|r0 rest]; try reflexivity; simpl in Hr;
      destruct rest as [|r1 [|r2 rest]]; simpl; rewrite ?Hr;
        rewrite ?andb_false_r; reflexivity.
Qed.

Lemma has_fence_suffix (pre1 pre2 : jsstring) :
  has_fence (pre1 ++ pre2) = false -> has_fence pre2 = false.
Proof.
  induction pre1 as [|c pre1 IH]; simpl; [auto|].
  intros H. apply orb_false_iff in H. apply IH, H.
Qed.

Lemma has_fence_head (s : jsstring) : has_fence s = false -> lf_fence s = false.
Proof.
  destruct s as [|c s]; [reflexivity|].
  cbn [has_fence]. intros H. apply orb_false_iff in H. apply H.
Qed.

Lemma no_fence_inside (pre1 pre2 rest : jsstring) :
  has_fence (pre1 ++ pre2) = false -> endsWith (pre1 ++ pre2) CR = false ->
  pre2 <> [] ->
  head_fails (is_char "-") rest ->
  (lf_fence rest = true -> startsWith rest LF = true) ->
  lf_fence (pre2 ++ rest) = false
  /\ (startsWith (pre2 ++ rest) CR = true ->
      lf_fence (tl (pre2 ++ rest)) = false).
Proof.
  intros Hf He Hne Hr Hlf. split.
  - apply lf_fence_app; auto.
    apply has_fence_head, (has_fence_suffix pre1), Hf.
  - destruct pre2 as [|a p]; [contradiction|]. simpl. intros Ha.
    destruct p as [|b p].
    + exfalso. unfold endsWith in He. rewrite rev_app_distr in He.
      simpl in He. congruence.
    + apply lf_fence_app; [exact Hr| |discriminate].
      apply has_fence_head, (has_fence_suffix (pre1 ++ [a])).
      rewrite <- app_assoc. exact Hf.
Qed.

Lemma match_at_frontmatter (nl1 body nl2 tail : jsstring) :
  is_line_break nl1 -> is_line_break nl2 ->
  has_fence body = false -> endsWith body CR = false ->
  exists m,
    match_at patterns.frontmatter []
      ("---" ++ nl1 ++ body ++ nl2 ++ "---" ++ tail) = Some m
    /\ groups m = [(1, body)]
    /\ trimStart (rest m) = trimStart tail.
Proof.
  intros H1 H2 Hf He.
  destruct H1 as [-> | ->], H2 as [-> | ->]; unfold match_at; simpl.
  all: eexists; split;
    [try apply orelse_some; apply rep_lazy_first;
     [apply forallb_is_any
     |intros pre1 pre2 E Hne; cbn beta; cbn [fst snd]; subst body;
      apply closing_fence_fails;
      eapply no_fence_inside; eauto; try reflexivity
     | cbn beta; cbn [fst snd];
       first [apply opt_take; [reflexivity|] | rewrite opt_skip by reflexivity];
       simpl;
       rewrite opt_greedy;
       [rewrite opt_greedy; [reflexivity | discriminate]
       |intros st; rewrite opt_greedy; discriminate] ] |].
  all: split; [simpl; rewrite between_app; reflexivity|].
  all: cbn [rest]; rewrite trimStart_opt_pos; cbn [snd];
    rewrite ?trimStart_opt_pos; try reflexivity.
  all: intros c H; apply is_char_eq in H; subst c; reflexivity.
Qed.

Lemma trim_same_start (s t : jsstring) :
  trimStart s = trimStart t -> trim s = trim t.
Proof. unfold trim. intros ->. reflexivity. Qed.

(** X18.  A document that opens with a frontmatter block: [---], a
    line break, the block, a line break, [---] and the rest.  When no
    later line of the block starts with [---] (and the block does not
    end in a carriage return), the frontmatter is read from the block,
    the raw content is the rest, trimmed, and the content is its
    HTML. *)
Theorem parseDocument_frontmatter_block (nl1 body nl2 tail : jsstring) :
  is_line_break nl1 -> is_line_break nl2 ->
  has_fence body = false -> endsWith body CR = false ->
  parseDocument (JString ("---" ++ nl1 ++ body ++ nl2 ++ "---" ++ tail))
  = mkDocument (_parseFrontmatter body)
      (parse (JString (trim tail))) (trim tail).
Proof.
  intros H1 H2 Hf He.
  destruct (@match_at_frontmatter nl1 body nl2 tail H1 H2 Hf He) as (m & Hm & Hg & Hr).
  change ("---" ++ nl1 ++ body ++ nl2 ++ "---" ++ tail)
    with ("-"%char :: "--" ++ nl1 ++ body ++ nl2 ++ "---" ++ tail) in *.
  unfold parseDocument. rewrite String_match_frontmatter, Hm.
  unfold String_replace, replace_first. cbn [global patterns.frontmatter].
  rewrite search_frontmatter, Hm. cbn [option_map]. rewrite Hg.
  change (capture_str 1 [(1, body)]) with body.
  change (expand [] (matched m) [(1, body)]) with (@nil ascii).
  change ([] ++ [] ++ rest m) with (rest m).
  rewrite (trim_same_start _ _ Hr). reflexivity.
Qed.

Lemma parseDocument_frontmatter_block_witness :
  parseDocument
    (JString ("---" ++ [LF] ++ "title: Hello" ++ [LF] ++ "---"
              ++ LF :: LF :: "# Hi"))
  = mkDocument [(list_ascii_of_string "title", VString "Hello")]
      "<h1>Hi</h1>" "# Hi".
Proof.
  rewrite (@parseDocument_frontmatter_block [LF] "title: Hello" [LF]
             (LF :: LF :: "# Hi") (or_introl eq_refl) (or_introl eq_refl)
             eq_refl eq_refl).
  reflexivity.
Defined.

(** ** Paragraphs *)

Lemma line_blank_app (s t : jsstring) :
  line_blank s = false -> line_blank (s ++ t) = false.
Proof.
  induction s as [|c s IH]; simpl; [discriminate|].
  intros H. apply orb_false_iff in H. destruct H as [H1 H2]. rewrite H1.
  simpl. apply andb_false_iff in H2. destruct H2 as [H2 | H2].
  - rewrite H2. reflexivity.
  - rewrite (IH H2). apply andb_false_r.
Qed.

Lemma spaces_line_blank (s : jsstring) :
  forallb is_space s = true -> line_blank s = true.
Proof.
  induction s as [|c s IH]; simpl; [reflexivity|].
  intros H. apply andb_true_iff in H. destruct H as [H1 H2].
  rewrite H1, (IH H2). apply orb_true_r.
Qed.

(** After a line feed the white space is given back, code unit by code
    unit, when no line feed ends it. *)
Lemma blank_run_fails (R : Type) (K : ascii -> list ascii -> position -> option R)
    (s : jsstring) :
  forall bf,
    line_blank s = false ->
    rep_greedy is_space 0 None bf s
      (fun st => match snd st with
                 | [] => None
                 | c :: af => if is_char LF c then K c af st else None
                 end) = None.
Proof.
  induction s as [|c s IH]; intros bf H; [discriminate|].
  simpl in H. apply orb_false_iff in H. destruct H as [H1 H2].
  simpl. rewrite H1. destruct (is_space c); [|reflexivity].
  simpl in H2. rewrite (IH (c :: bf) H2). reflexivity.
Qed.

Lemma paragraph_break_none (bf : list ascii) (c : ascii) (s : jsstring) :
  (is_char LF c = true -> line_blank s = false) ->
  match_at paragraph_break bf (c :: s) = None.
Proof.
  intros H. unfold match_at. simpl.
  destruct (is_char LF c); [|reflexivity].
  apply blank_run_fails. apply H. reflexivity.
Qed.

Lemma paragraph_break_found (bf : list ascii) (s : jsstring) :
  line_blank s = false ->
  match_at paragraph_break bf (LF :: LF :: s) = Some (mkMatch [LF; LF] s []).
Proof.
  intros H. unfold match_at. simpl.
  rewrite blank_run_fails by exact H.
  destruct s as [|c s]; [discriminate|].
  simpl. rewrite (between_app bf _ [LF; LF] (c :: s)). reflexivity.
Qed.

Lemma split_from_block (b : jsstring) :
  forall cur bf rest,
    no_blank_after b = true ->
    split_from paragraph_break cur bf (b ++ rest) 0
    = split_from paragraph_break (rev b ++ cur) (rev b ++ bf) rest 0.
Proof.
  induction b as [|c b IH]; intros cur bf rest H; [reflexivity|].
  simpl in H. apply andb_true_iff in H. destruct H as [H1 H2].
  change ((c :: b) ++ rest) with (c :: b ++ rest).
  unfold split_from; fold split_from.
  rewrite paragraph_break_none.
  - rewrite (IH (c :: cur) (c :: bf) rest H2). simpl.
    rewrite <- !app_assoc. reflexivity.
  - intros Hc. rewrite Hc in H1. simpl in H1.
    apply line_blank_app. apply negb_true_iff. exact H1.
Qed.

Lemma split_from_break (cur bf : list ascii) (s : jsstring) :
  line_blank s = false ->
  split_from paragraph_break cur bf (LF :: LF :: s) 0
  = rev cur :: split_from paragraph_break [] (LF :: LF :: bf) s 0.
Proof.
  intros H. unfold split_from at 1; fold split_from.
  rewrite (paragraph_break_found bf s H). reflexivity.
Qed.

Lemma paragraph_first_line (b : jsstring) :
  is_paragraph b = true -> line_blank b = false /\ no_blank_after b = true.
Proof.
  unfold is_paragraph. intros H. apply andb_true_iff in H.
  destruct H as [H1 H2]. apply negb_true_iff in H1. auto.
Qed.

Lemma join_cons (sep b b' : jsstring) (l : list jsstring) :
  join sep (b :: b' :: l) = b ++ sep ++ join sep (b' :: l).
Proof. reflexivity. Qed.

Lemma join_first_line (b : jsstring) (l : list jsstring) :
  line_blank b = false -> line_blank (join [LF; LF] (b :: l)) = false.
Proof.
  intros H. destruct l as [|b' l]; [exact H|].
  rewrite join_cons. apply line_blank_app. exact H.
Qed.

Lemma split_from_paragraphs (blocks : list jsstring) :
  forall b cur bf,
    Forall (fun b => is_paragraph b = true) (b :: blocks) ->
    split_from paragraph_break cur bf (join [LF; LF] (b :: blocks)) 0
    = (rev cur ++ b) :: blocks.
Proof.
  induction blocks as [|b' l IH]; intros b cur bf H;
    inversion H as [|x y Hb Hl]; subst;
    destruct (@paragraph_first_line b Hb) as [Hb1 Hb2].
  - simpl join. rewrite <- (app_nil_r b) at 1.
    rewrite split_from_block by exact Hb2.
    simpl. rewrite rev_app_distr, rev_involutive. reflexivity.
  - rewrite join_cons. rewrite split_from_block by exact Hb2.
    inversion Hl as [|x y Hb' Hl']; subst.
    change ([LF; LF] ++ join [LF; LF] (b' :: l))
      with (LF :: LF :: join [LF; LF] (b' :: l)).
    rewrite split_from_break
      by (apply join_first_line, (@paragraph_first_line b' Hb')).
    rewrite (IH b' [] _ Hl).
    rewrite rev_app_distr, rev_involutive. reflexivity.
Qed.

Lemma wrap_block_paragraph (b : jsstring) :
  is_paragraph b = true -> is_empty (wrap_block b) = false.
Proof.
  intros H. destruct (@paragraph_first_line b H) as [H1 _].
  unfold wrap_block. cbv zeta.
  destruct (is_empty (trim b)) eqn:E.
  - exfalso. destruct (trim b) eqn:Et; [|discriminate].
    assert (forallb is_space b = true) as Hs.
    { rewrite <- (forallb_trim is_space b (fun c Hc => Hc)), Et.
      reflexivity. }
    rewrite (spaces_line_blank b Hs) in H1. discriminate.
  - destruct (startsWith (trim b) "<" && endsWith (trim b) ">");
      [exact E | reflexivity].
Qed.

Lemma filter_wrapped (blocks : list jsstring) :
  Forall (fun b => is_paragraph b = true) blocks ->
  filter (fun p => negb (is_empty p)) (map wrap_block blocks)
  = map wrap_block blocks.
Proof.
  induction 1 as [|b l Hb Hl IH]; simpl; [reflexivity|].
  rewrite (@wrap_block_paragraph b Hb), IH. reflexivity.
Qed.

Lemma _parseParagraphs_blocks (blocks : list jsstring) :
  Forall (fun b => is_paragraph b = true) blocks ->
  _parseParagraphs (join [LF; LF] blocks)
  = join [LF; LF] (map wrap_block blocks).
Proof.
  intros H. destruct blocks as [|b l]; [reflexivity|].
  unfold _parseParagraphs. cbv zeta.
  change (mkRegExp (Char (is_char LF) +> star is_space +> Char (is_char LF))
            false false) with paragraph_break.
  assert (String_split (join [LF; LF] (b :: l)) paragraph_break = b :: l) as ->.
  { unfold String_split.
    destruct (join [LF; LF] (b :: l)) eqn:E.
    - exfalso. inversion H as [|x y Hb Hl]; subst.
      pose proof (@join_first_line b l (proj1 (@paragraph_first_line b Hb))) as Hj.
      rewrite E in Hj. discriminate.
    - rewrite <- E. apply (@split_from_paragraphs l b [] [] H). }
  change (join [LF; LF]
            (filter (fun p => negb (is_empty p)) (map wrap_block (b :: l)))
          = join [LF; LF] (map wrap_block (b :: l))).
  rewrite (filter_wrapped H). reflexivity.
Qed.

(** X19.  Paragraphs that a blank line separates are wrapped one by
    one: when every line of every block holds a code unit that is not
    white space, [_parseParagraphs] of the blocks joined by two line
    feeds is the join of the wrapped blocks ([<p>], the trimmed block,
    [</p>]; a block from [<] to [>] is only trimmed). *)
Theorem paragraphs_wrapped_one_by_one (blocks : list jsstring) :
  Forall (fun b => is_paragraph b = true) blocks ->
  _parseParagraphs (join [LF; LF] blocks)
  = join [LF; LF] (map wrap_block blocks).
Proof. exact (@_parseParagraphs_blocks blocks). Qed.

Lemma paragraphs_wrapped_one_by_one_witness :
  _parseParagraphs
    (join [LF; LF]
       ["one" ++ LF :: "line two"; list_ascii_of_string "<hr />";
        list_ascii_of_string " three "])
  = "<p>one" ++ LF :: "line two</p>" ++ LF :: LF :: "<hr />"
    ++ LF :: LF :: "<p>three</p>".
Proof.
  rewrite (@paragraphs_wrapped_one_by_one
             ["one" ++ LF :: "line two"; list_ascii_of_string "<hr />";
              list_ascii_of_string " three "]).
  - reflexivity.
  - repeat constructor.
Defined.

Lemma head_fails_app_l (p : ascii -> bool) (s t : jsstring) :
  s <> [] -> head_fails p s -> head_fails p (s ++ t).
Proof. destruct s as [|c s]; [contradiction | auto]. Qed.

Lemma trimmed_ends (w : jsstring) :
  trim w = w -> head_fails is_space w /\ head_fails is_space (rev w).
Proof.
  intros H. pose proof (@trim_fixed_start w H) as Hs. split.
  - rewrite <- Hs. apply trimStart_head.
  - unfold trim in H. rewrite Hs in H. unfold trimEnd in H.
    apply (f_equal (@rev ascii)) in H. rewrite rev_involutive in H.
    rewrite <- H. apply trimStart_head.
Qed.

Lemma join_ends (p : ascii -> bool) (sep : jsstring) (ws : list jsstring) :
  forall w,
    Forall (fun w => w <> [] /\ head_fails p w /\ head_fails p (rev w))
      (w :: ws) ->
    join sep (w :: ws) <> []
    /\ head_fails p (join sep (w :: ws))
    /\ head_fails p (rev (join sep (w :: ws))).
Proof.
  induction ws as [|w' l IH]; intros w H;
    inversion H as [|x y (Hne & Hh & Hr) Hl]; subst.
  - simpl. auto.
  - destruct (IH w' Hl) as (Jne & _ & Jr).
    rewrite join_cons. split; [|split].
    + destruct w; [contradiction | discriminate].
    + apply head_fails_app_l; assumption.
    + rewrite !rev_app_distr, <- app_assoc.
      apply head_fails_app_l; [|exact Jr].
      intros E. apply Jne. apply (f_equal (@rev ascii)) in E.
      rewrite rev_involutive in E. exact E.
Qed.

Lemma trim_wrapped (blocks : list jsstring) :
  Forall (fun b => is_paragraph b = true) blocks ->
  trim (join [LF; LF] (map wrap_block blocks))
  = join [LF; LF] (map wrap_block blocks).
Proof.
  intros H. destruct blocks as [|b l]; [reflexivity|].
  destruct (@join_ends is_space [LF; LF] (map wrap_block l) (wrap_block b))
    as (_ & Hh & Hr).
  - change (Forall
              (fun w => w <> [] /\ head_fails is_space w
                        /\ head_fails is_space (rev w))
              (map wrap_block (b :: l))).
    apply Forall_map. eapply Forall_impl; [|exact H].
    intros x Hx. split.
    + pose proof (@wrap_block_paragraph x Hx) as E.
      destruct (wrap_block x); [discriminate E | discriminate].
    + apply trimmed_ends, trim_wrap_block.
  - apply trim_fixed; assumption.
Qed.

Lemma forallb_join (q : ascii -> bool) (sep : jsstring) (l : list jsstring) :
  forallb q sep = true -> Forall (fun b => forallb q b = true) l ->
  forallb q (join sep l) = true.
Proof.
  intros Hsep. induction 1 as [|b l Hb Hl IH]; [reflexivity|].
  destruct l as [|b' l]; [exact Hb|].
  rewrite join_cons, !forallb_app.
  apply andb_true_iff. split; [exact Hb|].
  apply andb_true_iff. split; [exact Hsep | exact IH].
Qed.

Lemma not_inline_markup (c : ascii) :
  negb (is_inline_markup c) = true ->
  not_char "#" c = true /\ not_char "[" c = true /\ not_char "`" c = true
  /\ not_char "*" c = true /\ not_char "_" c = true /\ not_char "-" c = true.
Proof.
  unfold is_inline_markup, not_char, is_char. intros H.
  apply negb_true_iff in H.
  repeat (apply orb_false_iff in H; destruct H as [H ?]).
  repeat split; apply negb_true_iff; assumption.
Qed.

(** X20.  Plain paragraphs through the whole of [parse]: when the
    blocks hold none of [#], [[], backtick, [*], [_] and [-], and every
    line of every block holds a code unit that is not white space, the
    blocks joined by blank lines come out as the wrapped blocks joined
    by blank lines; a line feed inside a block stays a line feed. *)
Theorem parse_plain_paragraphs (blocks : list jsstring) :
  Forall (fun b => is_paragraph b = true) blocks ->
  Forall (fun b => forallb (fun c => negb (is_inline_markup c)) b = true)
    blocks ->
  parse (JString (join [LF; LF] blocks))
  = join [LF; LF] (map wrap_block blocks).
Proof.
  intros Hp Hm. destruct blocks as [|b0 l0] eqn:Eb; [reflexivity|].
  rewrite <- Eb in *. clear Eb.
  set (text := join [LF; LF] blocks).
  assert (forallb (fun c => negb (is_inline_markup c)) text = true) as H.
  { apply forallb_join; [reflexivity | exact Hm]. }
  assert (parse (JString text) = pipeline text) as ->.
  { destruct text; reflexivity. }
  unfold pipeline. cbv zeta.
  assert (forall x,
             (forall c, negb (is_inline_markup c) = true -> not_char x c = true)
             -> forallb (not_char x) text = true) as Hx.
  { intros x Himp. eapply forallb_weaken; [exact Himp | exact H]. }
  rewrite _parseHeadings_plain, _parseImages_plain, _parseLinks_plain,
    _parseCodeBlocks_plain, _parseInlineCode_plain, _parseBold_plain,
    _parseItalic_plain, _parseHorizontalRules_plain
    by (apply Hx; intros c Hc; apply (@not_inline_markup c Hc)).
  unfold text. rewrite (@_parseParagraphs_blocks blocks Hp).
  apply trim_wrapped. exact Hp.
Qed.

Lemma parse_plain_paragraphs_witness :
  parse (JString (join [LF; LF]
                    ["Dear reader," ++ LF :: "welcome.";
                     list_ascii_of_string "Yours, A."]))
  = "<p>Dear reader," ++ LF :: "welcome.</p>" ++ LF :: LF
    :: "<p>Yours, A.</p>".
Proof.
  rewrite (@parse_plain_paragraphs
             ["Dear reader," ++ LF :: "welcome.";
              list_ascii_of_string "Yours, A."]).
  - reflexivity.
  - repeat constructor.
  - repeat constructor.
Defined.

(** ** Markup inside code *)

Lemma plain_char_facts (c : ascii) :
  is_plain_char c = true ->
  not_char "#" c = true /\ not_char "[" c = true /\ not_char "`" c = true
  /\ not_char "*" c = true /\ not_char "_" c = true /\ not_char "-" c = true
  /\ not_char LF c = true /\ negb (is_html_special c) = true
  /\ is_dot c = true.
Proof.
  unfold is_plain_char. intros H.
  apply andb_true_iff in H. destruct H as [H Hdot].
  apply andb_true_iff in H. destruct H as [Hm Hs].
  destruct (not_markup c Hm) as (H1 & H2 & H3 & H4 & H5 & H6 & H7).
  repeat split; assumption.
Qed.

Lemma _escapeHtml_app (s t : jsstring) :
  _escapeHtml (s ++ t) = _escapeHtml s ++ _escapeHtml t.
Proof. rewrite !_escapeHtml_flat_map. apply flat_map_app. Qed.

Lemma _escapeHtml_plain (s : jsstring) :
  forallb (fun c => negb (is_html_special c)) s = true -> _escapeHtml s = s.
Proof.
  rewrite _escapeHtml_flat_map.
  induction s as [|c s IH]; simpl; [reflexivity|].
  intros H. apply andb_true_iff in H. destruct H as [Hc Hs].
  apply negb_true_iff in Hc.
  rewrite (escape_char_plain c Hc), (IH Hs). reflexivity.
Qed.

Lemma _parseCodeBlocks_fenced (body : jsstring) :
  forallb (not_char "`") body = true ->
  _parseCodeBlocks ("```" ++ nl ++ body ++ nl ++ "```")
  = "<pre><code>" ++ _escapeHtml (trim body) ++ "</code></pre>".
Proof.
  intros Hb. unfold _parseCodeBlocks, String_replace. simpl global. cbv iota.
  rewrite (@replace_all_whole patterns.codeBlock codeBlock_replacer _
             [(2, body)]).
  - reflexivity.
  - discriminate.
  - exact codeBlock_not_at_end.
  - apply match_at_codeBlock_plain; assumption.
Qed.

Lemma _parseBold_between (a x c : jsstring) :
  forallb (not_char "*") a = true -> forallb (not_char "*") c = true ->
  forallb (not_char "*") x = true -> forallb is_dot x = true ->
  _parseBold (a ++ "**" ++ x ++ "**" ++ c)
  = a ++ "<strong>" ++ x ++ "</strong>" ++ c.
Proof.
  intros Ha Hc Hx Hdot. unfold _parseBold.
  replace (a ++ "**" ++ x ++ "**" ++ c) with (a ++ ("**" ++ x ++ "**") ++ c)
    by (f_equal; list_eq).
  rewrite (@String_replace_in_context patterns.bold _ (is_char "*")
             a ("**" ++ x ++ "**") c [(1, x)]); auto.
  - f_equal. unfold expand. simpl. rewrite <- app_assoc. reflexivity.
  - exact bold_starts_with_star.
  - discriminate.
  - replace (("**" ++ x ++ "**") ++ c) with ("**" ++ x ++ "**" ++ c)
      by list_eq.
    apply match_at_bold; assumption.
Qed.

Lemma _parseInlineCode_whole (code : jsstring) :
  code <> [] -> forallb (not_char "`") code = true ->
  _parseInlineCode ("`" ++ code ++ "`") = "<code>" ++ code ++ "</code>".
Proof.
  intros Hne Hc. unfold _parseInlineCode, String_replace. simpl global.
  cbv iota.
  rewrite (@replace_all_whole patterns.inlineCode _ _ [(1, code)]).
  - reflexivity.
  - discriminate.
  - exact inlineCode_not_at_end.
  - apply match_at_inlineCode; assumption.
Qed.

Lemma wrap_block_element (s : jsstring) :
  startsWith s "<" = true -> endsWith s ">" = true -> wrap_block s = s.
Proof.
  intros H1 H2.
  assert (trim s = s) as Ht.
  { apply trim_fixed.
    - destruct s as [|c s]; [exact I|]. simpl in *.
      apply Ascii.eqb_eq in H1. subst c. reflexivity.
    - unfold endsWith in H2. destruct (rev s) as [|c r]; [exact I|].
      simpl in *. apply Ascii.eqb_eq in H2. subst c. reflexivity. }
  unfold wrap_block. cbv zeta. rewrite Ht, H1, H2.
  destruct s; [discriminate H1 | reflexivity].
Qed.

Lemma endsWith_app (s t : jsstring) (a : ascii) :
  t <> [] -> endsWith (s ++ t) a = endsWith t a.
Proof.
  intros Hne. unfold endsWith. rewrite rev_app_distr.
  destruct (rev t) as [|c r] eqn:E; [|reflexivity].
  exfalso. apply Hne. apply (f_equal (@rev ascii)) in E.
  rewrite rev_involutive in E. exact E.
Qed.

Lemma codeBlock_starts_with_backtick (bf af : list ascii) :
  head_fails (is_char "`") af -> match_at patterns.codeBlock bf af = None.
Proof. intros H. head_fails_char H. Qed.

Lemma codeBlock_needs_three (bf : list ascii) (c : ascii) (af : list ascii) :
  not_char "`" c = true ->
  match_at patterns.codeBlock bf ("`"%char :: c :: af) = None.
Proof.
  intros H. unfold not_char in H. apply negb_true_iff in H.
  unfold match_at. simpl. unfold is_char. rewrite H. reflexivity.
Qed.

(** A code span is no fence: one backtick on each side of a text
    without backtick is left to the pass for inline code. *)
Lemma _parseCodeBlocks_span (code : jsstring) :
  code <> [] -> forallb (not_char "`") code = true ->
  _parseCodeBlocks ("`" ++ code ++ "`") = "`" ++ code ++ "`".
Proof.
  intros Hne Hc. unfold _parseCodeBlocks, String_replace. simpl global.
  cbv iota. destruct code as [|c code]; [contradiction|].
  pose proof Hc as Hc'. simpl in Hc'. apply andb_true_iff in Hc'.
  destruct Hc' as [Hc0 _].
  assert (forall bf,
             replace_all patterns.codeBlock codeBlock_replacer bf
               ((c :: code) ++ "`") 0 = (c :: code) ++ "`") as Hrest.
  { intros bf.
    rewrite (@replace_all_prefix patterns.codeBlock codeBlock_replacer
               (is_char "`") codeBlock_starts_with_backtick (c :: code))
      by exact Hc.
    reflexivity. }
  change ("`" ++ (c :: code) ++ "`") with ("`"%char :: c :: code ++ "`").
  unfold replace_all at 1; fold replace_all.
  rewrite codeBlock_needs_three by exact Hc0. f_equal.
  exact (Hrest ["`"%char]).
Qed.

Ltac around Hq :=
  simpl; rewrite ?forallb_app; simpl; rewrite ?Hq;
  [reflexivity | intros ? Hplain; apply (plain_char_facts _ Hplain)..].

(** X21.  Code is not kept from the later passes: emphasis inside a
    fenced block or inside an inline code span is rendered as
    [<strong>], for every plain one-line text between the asterisks. *)
Theorem emphasis_inside_code (x : jsstring) :
  forallb is_plain_char x = true ->
  parse (JString ("```" ++ nl ++ "**" ++ x ++ "**" ++ nl ++ "```"))
  = "<pre><code><strong>" ++ x ++ "</strong></code></pre>"
  /\ parse (JString ("`**" ++ x ++ "**`"))
     = "<code><strong>" ++ x ++ "</strong></code>".
Proof.
  intros Hx.
  assert (forall q, (forall c, is_plain_char c = true -> q c = true)
                    -> forallb q x = true) as Hq.
  { intros q Himp. eapply forallb_weaken; [exact Himp | exact Hx]. }
  split.
  - change (parse (JString ("```" ++ nl ++ "**" ++ x ++ "**" ++ nl ++ "```")))
      with (pipeline ("```" ++ nl ++ "**" ++ x ++ "**" ++ nl ++ "```")).
    unfold pipeline. cbv zeta.
    rewrite _parseHeadings_plain, _parseImages_plain, _parseLinks_plain
      by around Hq.
    replace ("```" ++ nl ++ "**" ++ x ++ "**" ++ nl ++ "```")
      with ("```" ++ nl ++ ("**" ++ x ++ "**") ++ nl ++ "```") by list_eq.
    rewrite _parseCodeBlocks_fenced by around Hq.
    rewrite (@trim_fixed ("**" ++ x ++ "**"));
      [|unfold head_fails; simpl; reflexivity
       |rewrite !rev_app_distr; unfold head_fails; simpl; reflexivity].
    rewrite _escapeHtml_plain by around Hq.
    rewrite _parseInlineCode_plain by around Hq.
    replace ("<pre><code>" ++ ("**" ++ x ++ "**") ++ "</code></pre>")
      with ("<pre><code>" ++ "**" ++ x ++ "**" ++ "</code></pre>") by list_eq.
    rewrite _parseBold_between; try reflexivity; try (apply Hq; intros c Hc;
      apply (plain_char_facts c Hc)).
    rewrite _parseItalic_plain, _parseHorizontalRules_plain,
      _parseParagraphs_one_block by around Hq.
    rewrite trim_wrap_block. rewrite wrap_block_element.
    + list_eq.
    + reflexivity.
    + rewrite !app_assoc. rewrite endsWith_app; [reflexivity | discriminate].
  - change (parse (JString ("`**" ++ x ++ "**`")))
      with (pipeline ("`**" ++ x ++ "**`")).
    unfold pipeline. cbv zeta.
    rewrite _parseHeadings_plain, _parseImages_plain, _parseLinks_plain
      by around Hq.
    replace ("`**" ++ x ++ "**`") with ("`" ++ ("**" ++ x ++ "**") ++ "`")
      by list_eq.
    rewrite (@_parseCodeBlocks_span ("**" ++ x ++ "**"));
      [|discriminate | around Hq].
    rewrite (@_parseInlineCode_whole ("**" ++ x ++ "**"));
      [|discriminate | around Hq].
    replace ("<code>" ++ ("**" ++ x ++ "**") ++ "</code>")
      with ("<code>" ++ "**" ++ x ++ "**" ++ "</code>") by list_eq.
    rewrite _parseBold_between; try reflexivity; try (apply Hq; intros c Hc;
      apply (plain_char_facts c Hc)).
    rewrite _parseItalic_plain, _parseHorizontalRules_plain,
      _parseParagraphs_one_block by around Hq.
    rewrite trim_wrap_block. rewrite wrap_block_element.
    + list_eq.
    + reflexivity.
    + rewrite !app_assoc. rewrite endsWith_app; [reflexivity | discriminate].
Qed.

Lemma emphasis_inside_code_witness :
  parse (JString ("```" ++ nl ++ "**" ++ "a x b" ++ "**" ++ nl ++ "```"))
  = "<pre><code><strong>" ++ "a x b" ++ "</strong></code></pre>"
  /\ parse (JString ("`**" ++ "a x b" ++ "**`"))
     = "<code><strong>" ++ "a x b" ++ "</strong></code>".
Proof. exact (@emphasis_inside_code "a x b" eq_refl). Defined.

Lemma match_at_heading_line (n : nat) (sep content tail : jsstring)
    (c : ascii) (bf : list ascii) :
  is_line_terminator c = true ->
  1 <= n <= 6 ->
  sep <> [] -> forallb is_space sep = true ->
  content <> [] -> forallb is_dot content = true ->
  head_fails is_space content -> head_fails is_dot tail ->
  match_at patterns.heading (c :: bf)
    (repeat "#"%char n ++ sep ++ content ++ tail)
  = Some (mkMatch (repeat "#"%char n ++ sep ++ content) tail
            [(2, content); (1, repeat "#"%char n)]).
Proof.
  intros Hterm Hn Hsep Hsep' Hc Hc' Hhead Htail. unfold match_at. simpl.
  assert (at_bol true (c :: bf, repeat "#"%char n ++ sep ++ content ++ tail)
          = true) as ->.
  { unfold at_bol. simpl. exact Hterm. }
  apply rep_greedy_first_bounded with (run := repeat "#"%char n).
  - apply forallb_repeat. reflexivity.
  - rewrite repeat_length. lia.
  - simpl. rewrite repeat_length. lia.
  - destruct sep as [|s sep]; [contradiction|]. simpl in *.
    apply andb_true_iff in Hsep'. destruct Hsep' as [Hs _].
    each_char s; try discriminate Hs; reflexivity.
  - simpl. apply rep_greedy_first with (run := sep);
      auto using nonempty_length.
    { destruct content as [|c0 content]; [contradiction | exact Hhead]. }
    simpl. apply rep_greedy_first with (run := content);
      auto using nonempty_length.
    simpl. rewrite !between_app.
    rewrite (@between_eq _ _ _ (repeat "#"%char n ++ sep ++ content) tail)
      by list_eq.
    reflexivity.
Qed.

Lemma _parseHeadings_between (a : jsstring) (n : nat)
    (sep content tail : jsstring) :
  forallb (not_char "#") a = true -> endsWith a LF = true ->
  1 <= n <= 6 ->
  sep <> [] -> forallb is_space sep = true ->
  content <> [] -> forallb is_dot content = true ->
  head_fails is_space content ->
  head_fails is_dot tail -> forallb (not_char "#") tail = true ->
  _parseHeadings (a ++ repeat "#"%char n ++ sep ++ content ++ tail)
  = a ++ "<h" ++ nat_to_string n ++ ">" ++ trim content
    ++ "</h" ++ nat_to_string n ++ ">" ++ tail.
Proof.
  intros Ha Hend Hn Hsep Hsep' Hc Hc' Hhead Htail Htail'.
  unfold _parseHeadings.
  replace (a ++ repeat "#"%char n ++ sep ++ content ++ tail)
    with (a ++ (repeat "#"%char n ++ sep ++ content) ++ tail)
    by (f_equal; list_eq).
  rewrite (@String_replace_in_context patterns.heading _ (is_char "#")
             a (repeat "#"%char n ++ sep ++ content) tail
             [(2, content); (1, repeat "#"%char n)]); auto.
  - f_equal. cbv beta zeta. unfold capture_str. cbn [capture Nat.eqb].
    rewrite repeat_length. list_eq.
  - exact heading_starts_with_hash.
  - destruct n; [lia | discriminate].
  - replace ((repeat "#"%char n ++ sep ++ content) ++ tail)
      with (repeat "#"%char n ++ sep ++ content ++ tail) by list_eq.
    unfold endsWith in Hend. destruct (rev a) as [|c bf]; [discriminate|].
    simpl in Hend. apply Ascii.eqb_eq in Hend. subst c.
    apply match_at_heading_line; auto.
Qed.

(** X22.  The headings are rewritten before the code blocks are
    found, so a line of a fenced block that starts with [#] (a comment
    of a shell script, say) is made a heading first, and the block
    then shows the escaped tags around it. *)
Theorem heading_inside_code (x : jsstring) :
  forallb is_plain_char x = true -> x <> [] -> trim x = x ->
  parse (JString ("```" ++ nl ++ "# " ++ x ++ nl ++ "```"))
  = "<pre><code>&lt;h1&gt;" ++ x ++ "&lt;/h1&gt;</code></pre>".
Proof.
  intros Hx Hne Htrim.
  assert (forall q, (forall c, is_plain_char c = true -> q c = true)
                    -> forallb q x = true) as Hq.
  { intros q Himp. eapply forallb_weaken; [exact Himp | exact Hx]. }
  change (parse (JString ("```" ++ nl ++ "# " ++ x ++ nl ++ "```")))
    with (pipeline ("```" ++ nl ++ "# " ++ x ++ nl ++ "```")).
  unfold pipeline. cbv zeta.
  replace ("```" ++ nl ++ "# " ++ x ++ nl ++ "```")
    with (("```" ++ nl) ++ repeat "#"%char 1 ++ " " ++ x ++ (nl ++ "```"))
    by list_eq.
  rewrite _parseHeadings_between;
    try reflexivity; try discriminate; try lia; try exact Hne;
    try (apply Hq; intros c Hc; apply (plain_char_facts c Hc));
    try (apply trimmed_ends; exact Htrim).
  rewrite Htrim.
  change (nat_to_string 1) with (list_ascii_of_string "1").
  rewrite _parseImages_plain, _parseLinks_plain by around Hq.
  replace (("```" ++ nl) ++ "<h" ++ "1" ++ ">" ++ x ++ "</h" ++ "1" ++ ">"
           ++ nl ++ "```")
    with ("```" ++ nl ++ ("<h1>" ++ x ++ "</h1>") ++ nl ++ "```") by list_eq.
  rewrite _parseCodeBlocks_fenced by around Hq.
  rewrite (@trim_fixed ("<h1>" ++ x ++ "</h1>"));
    [|unfold head_fails; simpl; reflexivity
     |rewrite !rev_app_distr; unfold head_fails; simpl; reflexivity].
  rewrite !_escapeHtml_app.
  rewrite (@_escapeHtml_plain x)
    by (apply Hq; intros c Hc; apply (plain_char_facts c Hc)).
  change (_escapeHtml "<h1>") with (list_ascii_of_string "&lt;h1&gt;").
  change (_escapeHtml "</h1>") with (list_ascii_of_string "&lt;/h1&gt;").
  rewrite _parseInlineCode_plain, _parseBold_plain, _parseItalic_plain,
    _parseHorizontalRules_plain, _parseParagraphs_one_block by around Hq.
  rewrite trim_wrap_block. rewrite wrap_block_element.
  - list_eq.
  - reflexivity.
  - rewrite !app_assoc. rewrite endsWith_app; [reflexivity | discriminate].
Qed.

Lemma heading_inside_code_witness :
  parse (JString ("```" ++ nl ++ "# " ++ "install" ++ nl ++ "```"))
  = "<pre><code>&lt;h1&gt;" ++ "install" ++ "&lt;/h1&gt;</code></pre>".
Proof.
  apply (@heading_inside_code "install"); [reflexivity | discriminate |].
  reflexivity.
Defined.

(** ** A title and its paragraphs *)

Lemma _parseHeadings_first (n : nat) (sep content tail : jsstring) :
  1 <= n <= 6 ->
  sep <> [] -> forallb is_space sep = true ->
  content <> [] -> forallb is_dot content = true ->
  head_fails is_space content ->
  head_fails is_dot tail -> forallb (not_char "#") tail = true ->
  _parseHeadings (repeat "#"%char n ++ sep ++ content ++ tail)
  = "<h" ++ nat_to_string n ++ ">" ++ trim content
    ++ "</h" ++ nat_to_string n ++ ">" ++ tail.
Proof.
  intros Hn Hsep Hsep' Hc Hc' Hhead Htail Htail'. unfold _parseHeadings.
  replace (repeat "#"%char n ++ sep ++ content ++ tail)
    with ([] ++ (repeat "#"%char n ++ sep ++ content) ++ tail) by list_eq.
  rewrite (@String_replace_in_context patterns.heading _ (is_char "#")
             [] (repeat "#"%char n ++ sep ++ content) tail
             [(2, content); (1, repeat "#"%char n)]); auto.
  - cbv beta zeta. unfold capture_str. cbn [capture Nat.eqb].
    rewrite repeat_length. list_eq.
  - exact heading_starts_with_hash.
  - destruct n; [lia | discriminate].
  - replace ((repeat "#"%char n ++ sep ++ content) ++ tail)
      with (repeat "#"%char n ++ sep ++ content ++ tail) by list_eq.
    apply match_at_heading; assumption.
Qed.

Lemma join_tail (sep b : jsstring) (l : list jsstring) :
  join sep (b :: l)
  = b ++ match l with [] => [] | _ :: _ => sep ++ join sep l end.
Proof. destruct l; simpl; [rewrite app_nil_r|]; reflexivity. Qed.

Lemma one_line_paragraph (s : jsstring) :
  forallb (not_char LF) s = true -> head_fails is_space s -> s <> [] ->
  is_paragraph s = true.
Proof.
  intros Hlf Hhead Hne. unfold is_paragraph. apply andb_true_iff. split.
  - destruct s as [|c s]; [contradiction|]. simpl in *.
    apply andb_true_iff in Hlf. destruct Hlf as [Hc _].
    unfold not_char in Hc. apply negb_true_iff in Hc.
    unfold is_char. rewrite Hc, Hhead. reflexivity.
  - clear Hhead Hne. induction s as [|c s IH]; simpl in *; [reflexivity|].
    apply andb_true_iff in Hlf. destruct Hlf as [Hc Hs].
    unfold not_char in Hc. unfold is_char. rewrite Hc, (IH Hs). reflexivity.
Qed.

(** X23.  A title line and plain paragraphs, with blank lines between
    them, through the whole of [parse]: the title becomes the heading
    of its level, every paragraph is wrapped, and the blank lines are
    kept. *)
Theorem parse_title_and_paragraphs (n : nat) (title : jsstring)
    (blocks : list jsstring) :
  1 <= n <= 6 ->
  title <> [] -> trim title = title -> forallb is_plain_char title = true ->
  Forall (fun b => is_paragraph b = true) blocks ->
  Forall (fun b => forallb (fun c => negb (is_inline_markup c)) b = true)
    blocks ->
  parse (JString
           (join [LF; LF] ((repeat "#"%char n ++ " " ++ title) :: blocks)))
  = join [LF; LF]
      (("<h" ++ nat_to_string n ++ ">" ++ title
        ++ "</h" ++ nat_to_string n ++ ">") :: map wrap_block blocks).
Proof.
  intros Hn Hne Htrim Ht Hp Hm.
  assert (forall q, (forall c, is_plain_char c = true -> q c = true)
                    -> forallb q title = true) as Hq.
  { intros q Himp. eapply forallb_weaken; [exact Himp | exact Ht]. }
  set (h := "<h" ++ nat_to_string n ++ ">" ++ title
            ++ "</h" ++ nat_to_string n ++ ">").
  assert (forall q, (forall c, is_plain_char c = true -> q c = true) ->
                    (forall c, is_digit c = true -> q c = true) ->
                    q "<"%char = true -> q ">"%char = true ->
                    q "h"%char = true -> q "/"%char = true ->
                    forallb q h = true) as Hh.
  { intros q Hplain Hdig H1 H2 H3 H4. unfold h.
    destruct n as [|[|[|[|[|[|[|n]]]]]]]; try lia;
      simpl; rewrite forallb_app; simpl;
        rewrite (Hq q Hplain), H1, H2, H3, H4, Hdig by reflexivity;
        reflexivity. }
  assert (parse (JString
            (join [LF; LF] ((repeat "#"%char n ++ " " ++ title) :: blocks)))
          = pipeline
              (join [LF; LF] ((repeat "#"%char n ++ " " ++ title) :: blocks)))
    as ->.
  { rewrite join_tail. destruct n; [lia | reflexivity]. }
  unfold pipeline. cbv zeta.
  assert (_parseHeadings
            (join [LF; LF] ((repeat "#"%char n ++ " " ++ title) :: blocks))
          = join [LF; LF] (h :: blocks)) as ->.
  { rewrite !join_tail. unfold h.
    set (tail := match blocks with
                 | [] => []
                 | _ :: _ => [LF; LF] ++ join [LF; LF] blocks
                 end).
    replace ((repeat "#"%char n ++ " " ++ title) ++ tail)
      with (repeat "#"%char n ++ " " ++ title ++ tail) by list_eq.
    rewrite _parseHeadings_first; try reflexivity; try discriminate;
      try assumption.
    - rewrite Htrim. list_eq.
    - apply Hq. intros c Hc. apply (plain_char_facts c Hc).
    - apply trimmed_ends. exact Htrim.
    - unfold tail. destruct blocks; [exact I | reflexivity].
    - unfold tail. destruct blocks as [|b l]; [reflexivity|].
      change (forallb (not_char "#") (join [LF; LF] ([] :: b :: l)) = true).
      apply forallb_join; [reflexivity|].
      constructor; [reflexivity|].
      eapply Forall_impl; [|exact Hm]. intros x Hx.
      eapply forallb_weaken; [|exact Hx].
      intros c Hc. apply (not_inline_markup c Hc). }
  assert (forallb (fun c => negb (is_inline_markup c))
            (join [LF; LF] (h :: blocks)) = true) as Hj.
  { apply forallb_join; [reflexivity|]. constructor; [|exact Hm].
    apply Hh; try reflexivity.
    - intros c Hc. destruct (plain_char_facts c Hc)
        as (H1 & H2 & H3 & H4 & H5 & H6 & _).
      unfold is_inline_markup, not_char, is_char in *.
      apply negb_true_iff in H1, H2, H3, H4, H5, H6.
      rewrite H1, H2, H3, H4, H5, H6. reflexivity.
    - intros c. each_char c; intros Hc; try discriminate Hc; reflexivity. }
  assert (forall x,
             (forall c, negb (is_inline_markup c) = true -> not_char x c = true)
             -> forallb (not_char x) (join [LF; LF] (h :: blocks)) = true)
    as Hx.
  { intros x Himp. eapply forallb_weaken; [exact Himp | exact Hj]. }
  rewrite _parseImages_plain, _parseLinks_plain,
    _parseCodeBlocks_plain, _parseInlineCode_plain, _parseBold_plain,
    _parseItalic_plain, _parseHorizontalRules_plain
    by (apply Hx; intros c Hc; apply (not_inline_markup c Hc)).
  assert (is_paragraph h = true) as Hph.
  { apply one_line_paragraph.
    - apply Hh; try reflexivity.
      + intros c Hc. apply (plain_char_facts c Hc).
      + intros c. each_char c; intros Hc; try discriminate Hc; reflexivity.
    - reflexivity.
    - discriminate. }
  assert (wrap_block h = h) as Hw.
  { apply wrap_block_element; [reflexivity|].
    unfold h. rewrite !app_assoc.
    rewrite endsWith_app; [reflexivity | discriminate]. }
  rewrite (@_parseParagraphs_blocks (h :: blocks)) by (constructor; assumption).
  rewrite (@trim_wrapped (h :: blocks)) by (constructor; assumption).
  simpl map. rewrite Hw. reflexivity.
Qed.

Lemma parse_title_and_paragraphs_witness :
  parse (JString
           (join [LF; LF]
              [repeat "#"%char 2 ++ " " ++ "Release notes";
               list_ascii_of_string "Nothing new.";
               "Two lines" ++ LF :: "in one paragraph."]))
  = join [LF; LF]
      ["<h" ++ nat_to_string 2 ++ ">" ++ "Release notes"
       ++ "</h" ++ nat_to_string 2 ++ ">";
       list_ascii_of_string "<p>Nothing new.</p>";
       "<p>Two lines" ++ LF :: "in one paragraph.</p>"].
Proof.
  apply (@parse_title_and_paragraphs 2 "Release notes"
           [list_ascii_of_string "Nothing new.";
            "Two lines" ++ LF :: "in one paragraph."]).
  - lia.
  - discriminate.
  - reflexivity.
  - reflexivity.
  - repeat constructor.
  - repeat constructor.
Defined.

(** * Fenced code and inline code in a text *)














